(** * Verification of the queue package

    Three queues live in the repository:
    - the lock-free linked queue ([LockFreeQueue], CAS on head / tail),
    - the ring-buffer queue guarded by a reader/writer lock,
    - the two-stage slice queue.

    Each is embedded below in a module of its own, translated from the Go
    source, followed by the properties proved about it. *)

From Stdlib Require Import ZArith Lia.
From stdpp Require Import base option numbers list.

Local Open Scope Z_scope.

(* ===================================================================== *)
(** * The lock-free queue *)
(* ===================================================================== *)

Module LockFree.

(** [unsafe.Pointer]: nil or the address of a node. *)
Definition ptr := option nat.

Section lock_free_queue.
Context {T : Type}.
(** The zero value of [T] ([var v T]). *)
Variable zero : T.

(** [type qNode[T any] struct { val T; next unsafe.Pointer }] *)
Record qNode := mk_qNode { val : T; next : ptr }.

(** [type LockFreeQueue[T any] struct { head, tail unsafe.Pointer; dummy qNode[T] }].
    The nodes the pointers refer to live in [heap]; address [0] is the
    embedded [dummy] field, and [&qNode[T]{val: val}] allocates the next
    free address, [length heap] (the collector never reuses an address
    that is still referenced). *)
Record LockFreeQueue := mk_queue
  { head : ptr; tail : ptr; heap : list qNode }.

(** What a call does: it returns a value and leaves a queue, it panics
    (nil or dangling dereference), or its retry loop is still spinning
    when the fuel is spent. *)
Inductive outcome (A : Type) : Type :=
| Ret (a : A) (q : LockFreeQueue)
| Panic
| Spin.
Arguments Ret {A} a q.
Arguments Panic {A}.
Arguments Spin {A}.

(** Reading a field through a pointer converted to a node pointer. *)
Definition deref (hp : list qNode) (p : ptr) : option qNode :=
  match p with
  | Some a => hp !! a
  | None => None
  end.

Definition ptr_eqb (p r : ptr) : bool := bool_decide (p = r).

(** [atomic.CompareAndSwapPointer(&queue.head, old, new)] *)
Definition CompareAndSwap_head (q : LockFreeQueue) (old new : ptr)
  : LockFreeQueue * bool :=
  if ptr_eqb (head q) old
  then (mk_queue new (tail q) (heap q), true)
  else (q, false).

(** [atomic.CompareAndSwapPointer(&rt.next, old, new)] with [rt] the node
    at address [a]. *)
Definition CompareAndSwap_next (q : LockFreeQueue) (a : nat) (old new : ptr)
  : option (LockFreeQueue * bool) :=
  match heap q !! a with
  | None => None
  | Some rt =>
      if ptr_eqb (next rt) old
      then Some (mk_queue (head q) (tail q)
                   (<[a := mk_qNode (val rt) new]> (heap q)), true)
      else Some (q, false)
  end.

(** [atomic.StorePointer(&queue.tail, p)] *)
Definition Store_tail (q : LockFreeQueue) (p : ptr) : LockFreeQueue :=
  mk_queue (head q) p (heap q).

(** [&qNode[T]{val: v}] *)
Definition alloc (q : LockFreeQueue) (v : T) : LockFreeQueue * ptr :=
  (mk_queue (head q) (tail q) (heap q ++ [mk_qNode v None]),
   Some (length (heap q))).

(** [NewQueue]: head and tail both point at the embedded dummy. *)
Definition NewQueue : LockFreeQueue :=
  let dummy := mk_qNode zero None in
  let queue_head := Some 0%nat in
  mk_queue queue_head queue_head [dummy].

(** The [for] loop of [Pop]. *)
Fixpoint Pop_loop (fuel : nat) (q : LockFreeQueue) : outcome (T * bool) :=
  match fuel with
  | O => Spin
  | S fuel' =>
      let h := head q in
      match deref (heap q) h with
      | None => Panic
      | Some rh =>
          let n := next rh in
          match n with
          | Some _ =>
              match CompareAndSwap_head q h (next rh) with
              | (q', true) =>
                  match deref (heap q') n with
                  | Some rn => Ret (val rn, true) q'
                  | None => Panic
                  end
              | (q', false) => Pop_loop fuel' q'
              end
          | None => Ret (zero, false) q
          end
      end
  end.

(** The [for] loop of [Push]; [node] is the freshly allocated node. *)
Fixpoint Push_loop (fuel : nat) (q : LockFreeQueue) (node : ptr)
  : outcome unit :=
  match fuel with
  | O => Spin
  | S fuel' =>
      match tail q with
      | None => Panic
      | Some rt =>
          match CompareAndSwap_next q rt None node with
          | None => Panic
          | Some (q', true) => Ret tt (Store_tail q' node)
          | Some (q', false) => Push_loop fuel' q' node
          end
      end
  end.

Definition Pop (fuel : nat) (q : LockFreeQueue) : outcome (T * bool) :=
  Pop_loop fuel q.

Definition Push (fuel : nat) (q : LockFreeQueue) (v : T) : outcome unit :=
  let (q1, node) := alloc q v in
  Push_loop fuel q1 node.

(** ** The chain of nodes *)

(** [chain hp a l vs]: following [next] from address [a] visits exactly
    the addresses [l] (first [a]) and stops at a node without successor;
    [vs] are the payloads of the visited nodes. *)
Inductive chain (hp : list qNode) : nat -> list nat -> list T -> Prop :=
| chain_end a nd :
    hp !! a = Some nd -> next nd = None ->
    chain hp a [a] [val nd]
| chain_step a b nd l vs :
    hp !! a = Some nd -> next nd = Some b ->
    chain hp b l vs ->
    chain hp a (a :: l) (val nd :: vs).

(** The queue holds [vs] (oldest first): the chain starts at the sentinel
    [head] points to, whose payload [v0] is spent, it has no cycle, and
    [tail] points to its last node. *)
Definition models (q : LockFreeQueue) (vs : list T) : Prop :=
  exists h l v0,
    head q = Some h /\ chain (heap q) h l (v0 :: vs) /\
    NoDup l /\ tail q = last l.

(** The structural invariant alone. *)
Definition queue_inv (q : LockFreeQueue) : Prop := exists vs, models q vs.

(** [reachable hp n p a]: [a] is reached from pointer [p] in [n] steps
    along [next]. *)
Fixpoint reachable (hp : list qNode) (n : nat) (p : ptr) (a : nat) : Prop :=
  match n with
  | O => p = Some a
  | S n' => exists nd, deref hp p = Some nd /\ reachable hp n' (next nd) a
  end.

(** The queue is empty when the successor of the node at [head] is nil. *)
Definition head_next_absent (q : LockFreeQueue) : Prop :=
  exists rh, deref (heap q) (head q) = Some rh /\ next rh = None.

(** The payloads found by walking from [p], for evaluation. *)
Fixpoint walk (fuel : nat) (hp : list qNode) (p : ptr) : list T :=
  match fuel with
  | O => []
  | S fuel' =>
      match deref hp p with
      | None => []
      | Some nd => val nd :: walk fuel' hp (next nd)
      end
  end.

(** The elements waiting in the queue: the payloads after the sentinel. *)
Definition contents (q : LockFreeQueue) : list T :=
  match deref (heap q) (head q) with
  | None => []
  | Some rh => walk (length (heap q)) (heap q) (next rh)
  end.

(** Push the values in order, then pop [n] times, one call after another. *)
Fixpoint push_all (q : LockFreeQueue) (vs : list T) : outcome unit :=
  match vs with
  | [] => Ret tt q
  | v :: vs' =>
      match Push 1 q v with
      | Ret _ q' => push_all q' vs'
      | Panic => Panic
      | Spin => Spin
      end
  end.

Fixpoint pop_n (n : nat) (q : LockFreeQueue) : outcome (list (T * bool)) :=
  match n with
  | O => Ret [] q
  | S n' =>
      match Pop 1 q with
      | Ret r q' =>
          match pop_n n' q' with
          | Ret rs q'' => Ret (r :: rs) q''
          | Panic => Panic
          | Spin => Spin
          end
      | Panic => Panic
      | Spin => Spin
      end
  end.

(** ** Interleaved callers *)

(** Where a goroutine stands inside [Push] or [Pop], with its locals.
    Every constructor is one access to shared memory in the source; only
    [PopCAS] takes the plain read of [rh.next] together with the
    compare-and-swap that uses it (a successor, once set, is never
    written again). *)
Inductive pc : Type :=
| PushAlloc (v : T)          (* node := &qNode{val: val} *)
| PushLoadTail (node : ptr)  (* rt := atomic.LoadPointer(&queue.tail) *)
| PushCAS (node rt : ptr)    (* atomic.CompareAndSwapPointer(&rt.next, nil, node) *)
| PushStore (node : ptr)     (* atomic.StorePointer(&queue.tail, node) *)
| PushDone                   (* return *)
| PopLoadHead                (* h := atomic.LoadPointer(&queue.head) *)
| PopLoadNext (h : ptr)      (* n := atomic.LoadPointer(&rh.next) *)
| PopCAS (h n : ptr)         (* atomic.CompareAndSwapPointer(&queue.head, h, rh.next) *)
| PopVal (n : ptr)           (* return n.val, true *)
| PopDone (v : T) (ok : bool)
| Crashed.                   (* nil pointer dereference *)

(** One step of one goroutine; [None] when it has returned (or crashed). *)
Definition thread_step (q : LockFreeQueue) (c : pc)
  : option (LockFreeQueue * pc) :=
  match c with
  | PushAlloc v =>
      let (q1, node) := alloc q v in Some (q1, PushLoadTail node)
  | PushLoadTail node => Some (q, PushCAS node (tail q))
  | PushCAS node rt =>
      match rt with
      | None => Some (q, Crashed)
      | Some a =>
          match CompareAndSwap_next q a None node with
          | None => Some (q, Crashed)
          | Some (q', true) => Some (q', PushStore node)
          | Some (q', false) => Some (q', PushLoadTail node)
          end
      end
  | PushStore node => Some (Store_tail q node, PushDone)
  | PushDone => None
  | PopLoadHead => Some (q, PopLoadNext (head q))
  | PopLoadNext h =>
      match deref (heap q) h with
      | None => Some (q, Crashed)
      | Some rh =>
          match next rh with
          | Some _ => Some (q, PopCAS h (next rh))
          | None => Some (q, PopDone zero false)
          end
      end
  | PopCAS h n =>
      match deref (heap q) h with
      | None => Some (q, Crashed)
      | Some rh =>
          match CompareAndSwap_head q h (next rh) with
          | (q', true) => Some (q', PopVal n)
          | (q', false) => Some (q', PopLoadHead)
          end
      end
  | PopVal n =>
      match deref (heap q) n with
      | None => Some (q, Crashed)
      | Some rn => Some (q, PopDone (val rn) true)
      end
  | PopDone _ _ => None
  | Crashed => None
  end.

(** The queue shared by a pool of goroutines. *)
Record system := mk_system { queue : LockFreeQueue; threads : list pc }.

(** Goroutine [i] takes one step; nothing happens when it has finished. *)
Definition sys_step (s : system) (i : nat) : system :=
  match threads s !! i with
  | None => s
  | Some c =>
      match thread_step (queue s) c with
      | None => s
      | Some (q', c') => mk_system q' (<[i := c']> (threads s))
      end
  end.

(** Running a schedule: the list of goroutines that step, in order. *)
Definition run (sched : list nat) (s : system) : system :=
  foldl sys_step s sched.

(** A goroutine takes [n] steps while all the others are stalled. *)
Fixpoint solo (n : nat) (q : LockFreeQueue) (c : pc) : LockFreeQueue * pc :=
  match n with
  | O => (q, c)
  | S n' =>
      match thread_step q c with
      | None => (q, c)
      | Some (q', c') => solo n' q' c'
      end
  end.

(** A call starts at the first line of [Push] or of [Pop]. *)
Definition initial (c : pc) : Prop :=
  match c with
  | PushAlloc _ | PopLoadHead => True
  | _ => False
  end.

(** The states the program can be in: any schedule from a fresh queue
    and any pool of calls. *)
Definition reachable_system (s : system) : Prop :=
  exists cs sched,
    Forall initial cs /\ s = run sched (mk_system NewQueue cs).

(** ** What holds under every interleaving *)

(** The node a push has allocated and not linked yet. *)
Definition pending (c : pc) : option nat :=
  match c with
  | PushLoadTail (Some a) | PushCAS (Some a) _ => Some a
  | _ => None
  end.

(** The push stands between its successful compare-and-swap and its store
    to [tail]. *)
Definition at_store (c : pc) : Prop :=
  match c with
  | PushStore _ => True
  | _ => False
  end.

(** [node] is allocated, has no successor and is not linked in [l]. *)
Definition fresh_node (hp : list qNode) (l : list nat) (node : ptr) : Prop :=
  exists a nd, node = Some a /\ hp !! a = Some nd /\ next nd = None /\ a ∉ l.

(** What the locals of a goroutine satisfy, when [l] is the chain from the
    dummy and [head] and [tail] point to its elements number [hi] and
    [ti]: a pointer read from [head] or [tail] is not ahead of it. *)
Definition thread_ok (hp : list qNode) (l : list nat) (hi ti : nat) (c : pc)
  : Prop :=
  match c with
  | PushAlloc _ | PushDone | PopLoadHead | PopDone _ _ => True
  | PushLoadTail node => fresh_node hp l node
  | PushCAS node rt =>
      fresh_node hp l node /\
      exists ri r, rt = Some r /\ l !! ri = Some r /\ (ri <= ti)%nat
  | PushStore node => S (S ti) = length l /\ node = last l
  | PopLoadNext h => exists i a, h = Some a /\ l !! i = Some a /\ (i <= hi)%nat
  | PopCAS h n =>
      exists i a b, h = Some a /\ n = Some b /\
                    l !! i = Some a /\ l !! S i = Some b
  | PopVal n => exists i b, n = Some b /\ l !! i = Some b
  | Crashed => False
  end.

(** The invariant of the shared queue and the pool: all linked nodes form
    one chain [l] from the dummy without repetition; [head] and [tail] point
    into it, at elements number [hi] and [ti]; [tail] is the last node, or
    the one before it while one push is about to store [tail]. *)
Definition sys_inv_at (s : system) (l : list nat) (hi ti : nat) : Prop :=
  (exists vs, chain (heap (queue s)) 0 l vs) /\
  NoDup l /\
  (exists h, head (queue s) = Some h /\ l !! hi = Some h) /\
  (exists t, tail (queue s) = Some t /\ l !! ti = Some t) /\
  (S ti = length l \/
   (S (S ti) = length l /\
    exists i node, threads s !! i = Some (PushStore node))) /\
  (forall i j c d, threads s !! i = Some c -> threads s !! j = Some d ->
                   at_store c -> at_store d -> i = j) /\
  (forall i c, threads s !! i = Some c ->
               thread_ok (heap (queue s)) l hi ti c) /\
  (forall i j c d a, threads s !! i = Some c -> threads s !! j = Some d ->
                     pending c = Some a -> pending d = Some a -> i = j).

Definition sys_inv (s : system) : Prop := exists l hi ti, sys_inv_at s l hi ti.

(** ** Progress *)

(** A push that has not linked its node yet. *)
Definition in_push (c : pc) : Prop :=
  match c with
  | PushAlloc _ | PushLoadTail _ | PushCAS _ _ => True
  | _ => False
  end.

(** A goroutine that cannot move [tail] away from the node at [t]: it is
    not at the store, and the tail it last read is [t]. *)
Definition waits_on (t : nat) (c : pc) : Prop :=
  match c with
  | PushStore _ => False
  | PushCAS _ rt => rt = Some t
  | _ => True
  end.

(** [tail] points to a node that already has a successor. *)
Definition tail_lags (q : LockFreeQueue) (t : nat) : Prop :=
  tail q = Some t /\ exists rt b, heap q !! t = Some rt /\ next rt = Some b.

(** ** The order in which calls take effect *)

(** The step from [c] to [c'] is the compare-and-swap that links the node
    of a push. *)
Definition links (c c' : pc) : bool :=
  match c, c' with
  | PushCAS _ _, PushStore _ => true
  | _, _ => false
  end.

(** The step from [c] to [c'] is the compare-and-swap by which a pop moves
    [head]. *)
Definition takes (c c' : pc) : bool :=
  match c, c' with
  | PopCAS _ _, PopVal _ => true
  | _, _ => false
  end.

(** The push has linked its node. *)
Definition linked (c : pc) : bool :=
  match c with
  | PushStore _ | PushDone => true
  | _ => false
  end.

(** The value a pop has taken out of the queue: the one it is about to
    read from its node, or has returned with [true]. *)
Definition taken (hp : list (qNode)) (c : pc) : option T :=
  match c with
  | PopVal n => val <$> deref hp n
  | PopDone v true => Some v
  | _ => None
  end.

Definition linked_at (s : system) (i : nat) : Prop :=
  exists c, threads s !! i = Some c /\ linked c = true.

Definition taken_at (s : system) (j : nat) (v : T) : Prop :=
  exists c, threads s !! j = Some c /\ taken (heap (queue s)) c = Some v.

(** A run together with the goroutines whose push has linked its node and
    those whose pop has moved [head], each in the order of these steps. *)
Record history := mk_history
  { current : system; ins : list nat; outs : list nat }.

Definition record (h : history) (i : nat) : history :=
  let s' := sys_step (current h) i in
  match threads (current h) !! i, threads s' !! i with
  | Some c, Some c' =>
      mk_history s'
        (if links c c' then ins h ++ [i] else ins h)
        (if takes c c' then outs h ++ [i] else outs h)
  | _, _ => mk_history s' (ins h) (outs h)
  end.

Definition history_of (sched : list nat) (s : system) : history :=
  foldl record (mk_history s [] []) sched.

(** Every push knows the value it was called with: it is the payload of
    its node. *)
Definition role (cs : list (pc)) (hp : list (qNode))
    (i : nat) (c : pc) : Prop :=
  match c with
  | PushAlloc v => cs !! i = Some (PushAlloc v)
  | PushLoadTail node | PushCAS node _ =>
      exists v nd, cs !! i = Some (PushAlloc v) /\
                   deref hp node = Some nd /\ val nd = v
  | PushStore _ | PushDone => exists v, cs !! i = Some (PushAlloc v)
  | _ => True
  end.

(** The values pushed by the goroutines of a list, and the values taken
    by them. *)
Definition values_in (cs : list (pc)) (l : list nat) (vs : list T)
  : Prop :=
  Forall2 (fun i v => cs !! i = Some (PushAlloc v)) l vs.

Definition values_out (s : system) (l : list nat) (vs : list T)
  : Prop :=
  Forall2 (taken_at s) l vs.

(** What a history keeps. *)
Definition recorded (cs : list (pc)) (h : history) : Prop :=
  sys_inv (current h) /\
  (forall i c, threads (current h) !! i = Some c ->
               role cs (heap (queue (current h))) i c) /\
  NoDup (ins h) /\ NoDup (outs h) /\
  (forall i, i ∈ ins h <-> linked_at (current h) i) /\
  (forall j, j ∈ outs h <-> exists v, taken_at (current h) j v) /\
  exists vins vouts,
    values_in cs (ins h) vins /\ values_out (current h) (outs h) vouts /\
    vins = vouts ++ contents (queue (current h)).

End lock_free_queue.

Arguments Ret {T A} a q.
Arguments Panic {T A}.
Arguments Spin {T A}.
Arguments mk_qNode {T} val next.
Arguments mk_queue {T} head tail heap.
Arguments mk_system {T} queue threads.
Arguments mk_history {T} current ins outs.
Arguments Crashed {T}.
Arguments PushDone {T}.
Arguments PopLoadHead {T}.

End LockFree.

(* ===================================================================== *)
(** * The ring-buffer queue behind a reader/writer lock *)
(* ===================================================================== *)

Module Ring.

(** [const minQueueLen = 16] *)
Definition minQueueLen : Z := 16.

(** Go's [int] on a 64-bit target: arithmetic wraps in two's complement. *)
Definition wrap (z : Z) : Z := (z + 2 ^ 63) mod 2 ^ 64 - 2 ^ 63.

(** [x << k] on [int]. *)
Definition shl (x k : Z) : Z := wrap (Z.shiftl x k).

(** [sync.RWMutex], as the calling goroutine finds it: the number of read
    locks held, and whether a writer holds the lock or has asked for it
    and waits for the readers to leave (from that moment on new readers
    are shut out). *)
Record RWMutex := mk_lock { readers : nat; writer : bool }.

(** [==] on the values of a type parameter constrained by [comparable]:
    [None] is the run-time panic of a comparison of interface values
    that hold uncomparable data, and the answer need not be reflexive
    (a NaN differs from itself). *)
Class Comparable (T : Type) := equal : T -> T -> option bool.

(** On integers, strings, pointers and the like [==] cannot panic and is
    equality. *)
#[global] Instance strict_comparable {T : Type} `{EqDecision T}
  : Comparable T := fun x y => Some (bool_decide (x = y)).

(** An interface type whose values are nil or hold an [int] or a [[]int]:
    values of different dynamic types differ, and comparing two slices
    panics. *)
Inductive dyn : Type := DNil | DInt (n : Z) | DSlice (l : list Z).

#[global] Instance dyn_comparable : Comparable dyn := fun x y =>
  match x, y with
  | DNil, DNil => Some true
  | DInt a, DInt b => Some (a =? b)
  | DSlice _, DSlice _ => None
  | _, _ => Some false
  end.

Section ring_queue.
Context {T : Type} `{Comparable T}.
(** The zero value of [T]. *)
Variable zero : T.

(** [type Queue[T comparable] struct { buf []T; head, tail, count int; lock sync.RWMutex }] *)
Record Queue := mk_queue
  { buf : list T; head : Z; tail : Z; count : Z; lock : RWMutex }.

(** [len(s)] *)
Definition len (s : list T) : Z := Z.of_nat (length s).

(** A call returns, panics, or waits for a lock that the calling goroutine
    can never get; each time the queue is left in some state. *)
Inductive outcome (A : Type) : Type :=
| Ret (a : A) (q : Queue)
| Panic (q : Queue)
| Block (q : Queue).
Arguments Ret {A} a q.
Arguments Panic {A} q.
Arguments Block {A} q.

Definition state_of {A} (o : outcome A) : Queue :=
  match o with Ret _ q | Panic q | Block q => q end.

(** Method bodies: state passing with panics. *)
Definition M (A : Type) : Type := Queue -> outcome A.

Definition ret {A} (a : A) : M A := fun q => Ret a q.

Definition bind {A B} (m : M A) (k : A -> M B) : M B :=
  fun q =>
    match m q with
    | Ret a q' => k a q'
    | Panic q' => Panic q'
    | Block q' => Block q'
    end.

Definition panic {A} : M A := fun q => Panic q.
Definition get : M Queue := fun q => Ret q q.
Definition modify (f : Queue -> Queue) : M unit := fun q => Ret tt (f q).

(** A partial operation of the language (index, slice, make) that panics
    when it is out of range. *)
Definition try {A} (o : option A) : M A :=
  match o with
  | Some a => ret a
  | None => panic
  end.

Notation "x <- m ;; k" := (bind m (fun x => k))
  (at level 100, m at next level, k at level 200, right associativity).
Notation "m ;;; k" := (bind m (fun _ => k))
  (at level 100, k at level 200, right associativity).

Definition set_buf (b : list T) (q : Queue) : Queue :=
  mk_queue b (head q) (tail q) (count q) (lock q).
Definition set_head (h : Z) (q : Queue) : Queue :=
  mk_queue (buf q) h (tail q) (count q) (lock q).
Definition set_tail (t : Z) (q : Queue) : Queue :=
  mk_queue (buf q) (head q) t (count q) (lock q).
Definition set_count (c : Z) (q : Queue) : Queue :=
  mk_queue (buf q) (head q) (tail q) c (lock q).
Definition set_lock (l : RWMutex) (q : Queue) : Queue :=
  mk_queue (buf q) (head q) (tail q) (count q) l.

(** ** The lock *)

(** [q.lock.Lock()]: needs no reader and no writer. A writer that finds
    read locks held announces itself and waits; one that finds another
    writer waits behind it. *)
Definition Lock : M unit := fun q =>
  match lock q with
  | mk_lock O false => Ret tt (set_lock (mk_lock O true) q)
  | mk_lock r false => Block (set_lock (mk_lock r true) q)
  | mk_lock _ true => Block q
  end.

(** [q.lock.Unlock()]: a fatal error when the write lock is not held. *)
Definition Unlock : M unit := fun q =>
  match lock q with
  | mk_lock r true => Ret tt (set_lock (mk_lock r false) q)
  | _ => Panic q
  end.

(** [q.lock.RLock()]: needs no writer, holding the lock or waiting for
    it. *)
Definition RLock : M unit := fun q =>
  match lock q with
  | mk_lock r false => Ret tt (set_lock (mk_lock (S r) false) q)
  | _ => Block q
  end.

(** [q.lock.RUnlock()]: a fatal error when no read lock is held. *)
Definition RUnlock : M unit := fun q =>
  match lock q with
  | mk_lock (S r) w => Ret tt (set_lock (mk_lock r w) q)
  | _ => Panic q
  end.

(** ** Slices *)

(** [make([]T, n)]: panics on a negative length; the limit the allocator
    puts on the size in bytes is left out. *)
Definition make (n : Z) : option (list T) :=
  if n <? 0 then None else Some (replicate (Z.to_nat n) zero).

(** [s[i]] *)
Definition index (s : list T) (i : Z) : option T :=
  if (0 <=? i) && (i <? len s) then s !! Z.to_nat i else None.

(** [s[i] = x] *)
Definition store (s : list T) (i : Z) (x : T) : option (list T) :=
  if (0 <=? i) && (i <? len s) then Some (<[Z.to_nat i := x]> s) else None.

(** [s[lo:hi]]; every slice here has its capacity equal to its length. *)
Definition slice (s : list T) (lo hi : Z) : option (list T) :=
  if (0 <=? lo) && (lo <=? hi) && (hi <=? len s)
  then Some (take (Z.to_nat (hi - lo)) (drop (Z.to_nat lo) s))
  else None.

(** [copy(dst, src)]: the destination afterwards and the number of
    elements copied. *)
Definition copy (dst src : list T) : list T * Z :=
  let n := Nat.min (length dst) (length src) in
  (take n src ++ drop n dst, Z.of_nat n).

(** ** The methods *)

(** [NewQueue] *)
Definition NewQueue : Queue :=
  mk_queue (replicate (Z.to_nat minQueueLen) zero) 0 0 0 (mk_lock O false).

(** [Size] *)
Definition Size : M Z :=
  RLock ;;;
  q <- get ;;
  let count := count q in
  RUnlock ;;;
  ret count.

(** [Empty] *)
Definition Empty : M bool :=
  n <- Size ;;
  ret (n =? 0).

(** [resize] *)
Definition resize : M unit :=
  q <- get ;;
  newBuf <- try (make (shl (count q) 1)) ;;
  newBuf' <-
    (if tail q >? head q then
       src <- try (slice (buf q) (head q) (tail q)) ;;
       ret (fst (copy newBuf src))
     else
       src <- try (slice (buf q) (head q) (len (buf q))) ;;
       let (newBuf1, n) := copy newBuf src in
       dst <- try (slice newBuf1 n (len newBuf1)) ;;
       src2 <- try (slice (buf q) 0 (tail q)) ;;
       ret (take (Z.to_nat n) newBuf1 ++ fst (copy dst src2))) ;;
  modify (set_head 0) ;;;
  modify (set_tail (count q)) ;;;
  modify (set_buf newBuf').

(** [Push] *)
Definition Push (elem : T) : M unit :=
  Lock ;;;
  q <- get ;;
  (if count q =? len (buf q) then resize else ret tt) ;;;
  q <- get ;;
  b <- try (store (buf q) (tail q) elem) ;;
  modify (set_buf b) ;;;
  modify (set_tail (Z.land (wrap (tail q + 1)) (wrap (len b - 1)))) ;;;
  modify (set_count (wrap (count q + 1))) ;;;
  Unlock.

(** [Peek] *)
Definition Peek : M T :=
  RLock ;;;
  q <- get ;;
  if count q <=? 0 then
    RUnlock ;;; panic
  else
    v <- try (index (buf q) (head q)) ;;
    RUnlock ;;;
    ret v.

(** [Get] *)
Definition Get (i : Z) : M T :=
  RLock ;;;
  q <- get ;;
  let i := if i <? 0 then wrap (i + count q) else i in
  if (i <? 0) || (i >=? count q) then
    RUnlock ;;; panic
  else
    v <- try (index (buf q)
                (Z.land (wrap (head q + i)) (wrap (len (buf q) - 1)))) ;;
    RUnlock ;;;
    ret v.

(** [Pop] *)
Definition Pop : M (T * bool) :=
  Lock ;;;
  q <- get ;;
  if count q <=? 0 then
    Unlock ;;;
    ret (zero, false)
  else
    r <- try (index (buf q) (head q)) ;;
    modify (set_head (Z.land (wrap (head q + 1)) (wrap (len (buf q) - 1)))) ;;;
    modify (set_count (wrap (count q - 1))) ;;;
    q <- get ;;
    (if (len (buf q) >? minQueueLen) && (shl (count q) 2 =? len (buf q))
     then resize else ret tt) ;;;
    Unlock ;;;
    ret (r, true).

(** One of the [for] loops of [Index]: [n] slots from [i] on, [idx] counting
    the elements passed; [inl] when the value is found. *)
Fixpoint scan (val : T) (n : nat) (i idx : Z) : M (Z + Z) :=
  match n with
  | O => ret (inr idx)
  | S n' =>
      q <- get ;;
      x <- try (index (buf q) i) ;;
      same <- try (equal x val) ;;
      if same then ret (inl idx)
      else scan val n' (wrap (i + 1)) (wrap (idx + 1))
  end.

(** [Index] *)
Definition Index (val : T) : M Z :=
  RLock ;;;
  q <- get ;;
  if count q <=? 0 then
    ret (-1)
  else
    let idx := 0 in
    if tail q >? head q then
      r <- scan val (Z.to_nat (tail q - head q)) (head q) idx ;;
      match r with
      | inl idx => RUnlock ;;; ret idx
      | inr _ => RUnlock ;;; ret (-1)
      end
    else
      r <- scan val (Z.to_nat (len (buf q) - head q)) (head q) idx ;;
      match r with
      | inl idx => RUnlock ;;; ret idx
      | inr idx =>
          r <- scan val (Z.to_nat (tail q)) 0 idx ;;
          match r with
          | inl idx => RUnlock ;;; ret idx
          | inr _ => RUnlock ;;; ret (-1)
          end
      end.

(** ** What the queue holds *)

(** The [count] elements from [head] on, around the end of the buffer:
    oldest first. *)
Definition elems (q : Queue) : list T :=
  take (Z.to_nat (count q))
       (drop (Z.to_nat (head q)) (buf q) ++ take (Z.to_nat (head q)) (buf q)).

(** The shape every operation keeps. *)
Definition ring_inv (q : Queue) : Prop :=
  (exists k, 4 <= k <= 62 /\ len (buf q) = 2 ^ k) /\
  0 <= count q <= len (buf q) /\
  0 <= head q < len (buf q) /\
  0 <= tail q < len (buf q) /\
  tail q = (head q + count q) mod len (buf q).

(** The state after the store, the new tail and the new count of [Push]. *)
Definition pushed (q : Queue) (e : T) : Queue :=
  mk_queue (<[Z.to_nat (tail q) := e]> (buf q)) (head q)
    ((tail q + 1) mod len (buf q)) (count q + 1) (lock q).

(** The state after [Pop] has moved head and decremented count. *)
Definition popped (q : Queue) : Queue :=
  mk_queue (buf q) ((head q + 1) mod len (buf q)) (tail q) (count q - 1)
    (lock q).

(** The fields other than the lock are those of [q0]. *)
Definition same_data (q0 q : Queue) : Prop :=
  buf q = buf q0 /\ head q = head q0 /\ tail q = tail q0 /\
  count q = count q0.

(** A computation that leaves the data alone, however it ends. *)
Definition keeps {A} (m : M A) : Prop :=
  forall q0 q, same_data q0 q -> same_data q0 (state_of (m q)).

(** No goroutine holds the lock. *)
Definition unlocked (q : Queue) : Prop := lock q = mk_lock O false.

(** The calls a client can make. *)
Inductive call : Type :=
| CallSize | CallEmpty | CallPush (elem : T) | CallPeek | CallGet (i : Z)
| CallPop | CallIndex (val : T).

Definition exec (c : call) (q : Queue) : Queue :=
  match c with
  | CallSize => state_of (Size q)
  | CallEmpty => state_of (Empty q)
  | CallPush e => state_of (Push e q)
  | CallPeek => state_of (Peek q)
  | CallGet i => state_of (Get i q)
  | CallPop => state_of (Pop q)
  | CallIndex v => state_of (Index v q)
  end.

(** The queue after a sequence of calls on a new queue. *)
Definition after (cs : list call) : Queue := foldl (fun q c => exec c q) NewQueue cs.

(** ** The queue as a list *)

(** The position of the first element of [l] that [==] finds equal to
    [val], counted from [idx]; [inr] with the count reached when there is
    none; [None] when a comparison on the way panics. *)
Fixpoint find_pos (val : T) (l : list T) (idx : Z) : option (Z + Z) :=
  match l with
  | [] => Some (inr idx)
  | x :: l' =>
      match equal x val with
      | None => None
      | Some true => Some (inl idx)
      | Some false => find_pos val l' (idx + 1)
      end
  end.

(** The position of the first occurrence of [val], or -1. *)
Definition index_of (val : T) (l : list T) : option Z :=
  match find_pos val l 0 with
  | Some (inl r) => Some r
  | Some (inr _) => Some (-1)
  | None => None
  end.

(** What a call does to the list of elements. *)
Definition model (l : list T) (c : call) : list T :=
  match c with
  | CallPush e => l ++ [e]
  | CallPop => drop 1 l
  | _ => l
  end.

(** [Index] is called on a queue that holds an element, with a value
    whose comparisons do not panic. *)
Definition guarded (l : list T) (c : call) : Prop :=
  match c with
  | CallIndex v => l <> [] /\ is_Some (index_of v l)
  | _ => True
  end.

(** A sequence of calls each of which is guarded when it is made. *)
Fixpoint admissible (l : list T) (cs : list call) : Prop :=
  match cs with
  | [] => True
  | c :: cs' => guarded l c /\ admissible (model l c) cs'
  end.

(** The buffer has the least capacity, or more than a quarter of it is in
    use. *)
Definition compact (q : Queue) : Prop :=
  len (buf q) = minQueueLen \/ len (buf q) < 4 * count q.

End ring_queue.

Arguments Ret {T A} a q.
Arguments Panic {T A} q.
Arguments Block {T A} q.
Arguments mk_queue {T} buf head tail count lock.

End Ring.

(* ===================================================================== *)
(** * The two-stage queue *)
(* ===================================================================== *)

Module TwoStage.

Section two_stage_queue.
(** The dynamic values stored behind [interface{}]; [None] is [nil]. *)
Context {V : Type}.
Definition value : Type := option V.

(** [type Queue struct { head []interface{}; headPos int; tail []interface{} }].
    The two slices never share a backing array: the swap in [PopFront]
    exchanges the arrays, so lists are faithful. *)
Record Queue := mk_queue
  { head : list value; headPos : Z; tail : list value }.

(** [var q Queue] *)
Definition zero_Queue : Queue := mk_queue [] 0 [].

(** A call returns a result and the queue, panics on an index out of
    range, or is still looping when the fuel is spent. *)
Inductive outcome (A : Type) : Type :=
| Ret (a : A) (q : Queue)
| Panic
| Spin.
Arguments Ret {A} a q.
Arguments Panic {A}.
Arguments Spin {A}.

(** [s[i]] *)
Definition index (s : list value) (i : Z) : option value :=
  if (0 <=? i) && (i <? Z.of_nat (length s)) then s !! Z.to_nat i else None.

(** [len]; the lengths are far from the range of [int]. *)
Definition len (q : Queue) : Z :=
  Z.of_nat (length (head q)) - headPos q + Z.of_nat (length (tail q)).

(** [Empty] *)
Definition Empty (q : Queue) : bool := len q =? 0.

(** [PushBack] *)
Definition PushBack (w : value) (q : Queue) : Queue :=
  mk_queue (head q) (headPos q) (tail q ++ [w]).

(** The last four lines of [PopFront]. *)
Definition take_front (q : Queue) : outcome value :=
  match index (head q) (headPos q) with
  | None => Panic
  | Some w =>
      Ret w (mk_queue (<[Z.to_nat (headPos q) := None]> (head q))
                      (headPos q + 1) (tail q))
  end.

(** [PopFront] *)
Definition PopFront (q : Queue) : outcome value :=
  if headPos q >=? Z.of_nat (length (head q)) then
    if Z.of_nat (length (tail q)) =? 0 then Ret None q
    else take_front (mk_queue (tail q) 0 (take 0 (head q)))
  else take_front q.

(** [PeekFront] *)
Definition PeekFront (q : Queue) : option value :=
  if headPos q <? Z.of_nat (length (head q)) then index (head q) (headPos q)
  else if Z.of_nat (length (tail q)) >? 0 then index (tail q) 0
  else Some None.

(** The loop of [CleanFront]. *)
Fixpoint CleanFront_loop (fuel : nat) (q : Queue) (cleaned : bool)
  : outcome bool :=
  match fuel with
  | O => Spin
  | S fuel' =>
      match PeekFront q with
      | None => Panic
      | Some None => Ret cleaned q
      | Some (Some _) =>
          match PopFront q with
          | Ret _ q' => CleanFront_loop fuel' q' true
          | Panic => Panic
          | Spin => Spin
          end
      end
  end.

(** [CleanFront] *)
Definition CleanFront (fuel : nat) (q : Queue) : outcome bool :=
  CleanFront_loop fuel q false.

(** The elements waiting, oldest first. *)
Definition items (q : Queue) : list value :=
  drop (Z.to_nat (headPos q)) (head q) ++ tail q.

(** [headPos] stays inside the first stage. *)
Definition stage_inv (q : Queue) : Prop :=
  0 <= headPos q <= Z.of_nat (length (head q)).

(** The longest prefix of non-nil elements is what [CleanFront] removes. *)
Fixpoint drop_present (l : list value) : list value :=
  match l with
  | Some _ :: l' => drop_present l'
  | _ => l
  end.

(** Whether the oldest element is there and is not nil. *)
Definition front_present (l : list value) : bool :=
  match l with
  | Some _ :: _ => true
  | _ => false
  end.

(** [PopFront] called [n] times; the results in order. *)
Fixpoint PopFront_n (n : nat) (q : Queue) : outcome (list value) :=
  match n with
  | O => Ret [] q
  | S n' =>
      match PopFront q with
      | Ret w q' =>
          match PopFront_n n' q' with
          | Ret ws q'' => Ret (w :: ws) q''
          | Panic => Panic
          | Spin => Spin
          end
      | Panic => Panic
      | Spin => Spin
      end
  end.

(** [PushBack] of each element of [ws] in order. *)
Definition PushBack_all (ws : list value) (q : Queue) : Queue :=
  foldl (fun q w => PushBack w q) q ws.

(** The slots of the first stage that have been popped hold nil. *)
Definition cleared (q : Queue) : Prop :=
  forall i, (i < Z.to_nat (headPos q))%nat -> head q !! i = Some None.

End two_stage_queue.

Arguments Ret {V A} a q.
Arguments Panic {V A}.
Arguments Spin {V A}.
Arguments mk_queue {V} head headPos tail.

End TwoStage.

(* ===================================================================== *)
(** * Facts about the lock-free queue, one caller at a time *)
(* ===================================================================== *)

Section lock_free_facts.
Context {T : Type}.
Variable zero : T.
Import LockFree.

Implicit Types (q : LockFreeQueue (T:=T)) (hp : list (qNode (T:=T))).
Implicit Types (l : list nat) (vs : list T).

Lemma chain_first hp a l vs :
  chain hp a l vs ->
  exists nd l' vs', hp !! a = Some nd /\ l = a :: l' /\ vs = val nd :: vs'.
Proof. destruct 1; eauto 7. Qed.

Lemma chain_bound hp a l vs :
  chain hp a l vs -> forall x, x ∈ l -> (x < length hp)%nat.
Proof.
  induction 1 as [a nd Ha _|a b nd l vs Ha _ _ IH]; intros x Hx.
  - apply list_elem_of_singleton in Hx as ->. by eapply lookup_lt_Some.
  - apply elem_of_cons in Hx as [->|Hx]; [by eapply lookup_lt_Some|auto].
Qed.

Lemma chain_last hp a l vs :
  chain hp a l vs ->
  exists t nd, last l = Some t /\ hp !! t = Some nd /\ next nd = None.
Proof.
  induction 1 as [a nd Ha Hn|a b nd l vs Ha Hn Hc (t & nd' & Hl & Ht & Hn')].
  - exists a, nd. done.
  - exists t, nd'. split; [|done].
    destruct l as [|x l]; [done|]. by rewrite last_cons_cons.
Qed.

(** Linking a fresh node behind the last one extends the chain by it. *)
Lemma chain_snoc hp a l vs t nd v :
  chain hp a l vs -> NoDup l -> last l = Some t ->
  (hp ++ [mk_qNode v None]) !! t = Some nd ->
  chain (<[t := mk_qNode (val nd) (Some (length hp))]> (hp ++ [mk_qNode v None]))
        a (l ++ [length hp]) (vs ++ [v]).
Proof.
  induction 1 as [a nd0 Ha Hn|a b nd0 l vs Ha Hn Hc IH]; intros Hnd Hl Ht.
  - pose proof (lookup_lt_Some _ _ _ Ha) as Hlt.
    cbn in Hl. injection Hl as <-.
    rewrite lookup_app_l in Ht by done.
    assert (nd = nd0) as -> by congruence.
    apply (chain_step _ a (length hp) (mk_qNode (val nd0) (Some (length hp)))).
    + apply list_lookup_insert_eq. rewrite length_app. lia.
    + reflexivity.
    + eapply (chain_end _ _ (mk_qNode v None)); [|done].
      rewrite list_lookup_insert_ne by lia.
      rewrite lookup_app_r by lia. by rewrite Nat.sub_diag.
  - apply NoDup_cons in Hnd as [Hna Hnd].
    destruct (chain_first _ _ _ _ Hc) as (ndb & l' & vs' & Hb & -> & ->).
    rewrite last_cons_cons in Hl.
    assert (t ≠ a) as Hne.
    { intros ->. apply Hna. apply last_Some in Hl as [l'' ->].
      apply elem_of_app. right. by apply list_elem_of_singleton. }
    simpl. eapply chain_step; [| exact Hn | by apply IH].
    rewrite list_lookup_insert_ne by done.
    rewrite lookup_app_l; [done|]. by eapply lookup_lt_Some.
Qed.

Lemma models_NewQueue : models (NewQueue zero) [].
Proof.
  exists 0%nat, [0%nat], zero. split_and!; try done.
  - by apply (chain_end _ 0%nat (mk_qNode zero None)).
  - apply NoDup_singleton.
Qed.

(** One iteration of the loop is enough for a caller that runs alone. *)
Lemma Push_models q vs v fuel :
  models q vs ->
  exists q', Push (S fuel) q v = Ret tt q' /\ models q' (vs ++ [v]).
Proof.
  intros (h & l & v0 & Hh & Hc & Hnd & Ht).
  destruct (chain_last _ _ _ _ Hc) as (t & nd & Hl & Hlt & Hnx).
  unfold Push, alloc. cbn [Push_loop tail]. rewrite Ht, Hl.
  unfold CompareAndSwap_next. cbn [heap].
  assert ((heap q ++ [mk_qNode v None]) !! t = Some nd) as Hlt'.
  { rewrite lookup_app_l; [done|]. by eapply lookup_lt_Some. }
  rewrite Hlt'. unfold ptr_eqb. rewrite bool_decide_eq_true_2 by done.
  eexists. split; [reflexivity|].
  exists h, (l ++ [length (heap q)]), v0. cbn. split_and!.
  - done.
  - by apply (chain_snoc _ _ _ (v0 :: vs)).
  - apply NoDup_app. split_and!; [done| |apply NoDup_singleton].
    intros x Hx Hx'. apply list_elem_of_singleton in Hx' as ->.
    pose proof (chain_bound _ _ _ _ Hc _ Hx). lia.
  - by rewrite last_snoc.
Qed.

Lemma Pop_models_nil q fuel :
  models q [] -> Pop zero (S fuel) q = Ret (zero, false) q.
Proof.
  intros (h & l & v0 & Hh & Hc & Hnd & Ht).
  unfold Pop. cbn [Pop_loop]. rewrite Hh. cbn [deref].
  inversion Hc as [a nd Ha Hn|a b nd l' vs' Ha Hn Hc']; subst.
  - by rewrite Ha, Hn.
  - destruct (chain_first _ _ _ _ Hc') as (? & ? & ? & _ & _ & ?). done.
Qed.

Lemma Pop_models_cons q v vs fuel :
  models q (v :: vs) ->
  exists q', Pop zero (S fuel) q = Ret (v, true) q' /\ models q' vs /\
             heap q' = heap q /\ tail q' = tail q /\
             exists rh, deref (heap q) (head q) = Some rh /\ head q' = next rh.
Proof.
  intros (h & l & v0 & Hh & Hc & Hnd & Ht).
  unfold Pop. cbn [Pop_loop]. rewrite Hh. cbn [deref].
  inversion Hc as [a nd Ha Hn|a b nd l' vs' Ha Hn Hc']; subst.
  rewrite Ha, Hn. unfold CompareAndSwap_head, ptr_eqb.
  rewrite Hh, bool_decide_eq_true_2 by done. cbn [deref heap].
  destruct (chain_first _ _ _ _ Hc') as (ndb & l'' & vs'' & Hb & -> & Hv).
  simplify_eq. rewrite Hb.
  eexists. split; [reflexivity|]. split_and!; try done.
  - exists b, (b :: l''), (val ndb). cbn. split_and!; try done.
    by apply NoDup_cons in Hnd as [_ ?].
  - exists nd. by rewrite Hn.
Qed.

Lemma walk_nil n hp : walk n hp None = [].
Proof. by destruct n. Qed.

Lemma walk_chain hp a l vs :
  chain hp a l vs ->
  forall n, (length l <= n)%nat -> walk n hp (Some a) = vs.
Proof.
  induction 1 as [a nd Ha Hn|a b nd l vs Ha Hn Hc IH]; intros n Hle.
  - destruct n as [|n]; [cbn in Hle; lia|].
    cbn. by rewrite Ha, Hn, walk_nil.
  - destruct n as [|n]; [cbn in Hle; lia|].
    cbn. rewrite Ha, Hn. f_equal. apply IH. cbn in Hle. lia.
Qed.

Lemma chain_length_bound hp a l vs :
  chain hp a l vs -> NoDup l -> (length l <= length hp)%nat.
Proof.
  intros Hc Hnd.
  transitivity (length (seq 0 (length hp))); [|by rewrite length_seq].
  apply submseteq_length, NoDup_submseteq; [done|].
  intros x Hx. apply elem_of_seq.
  pose proof (chain_bound _ _ _ _ Hc _ Hx). lia.
Qed.

(** [contents] computes the abstract value of a well-formed queue. *)
Lemma models_contents q vs : models q vs -> contents q = vs.
Proof.
  intros (h & l & v0 & Hh & Hc & Hnd & Ht).
  unfold contents. rewrite Hh. cbn [deref].
  pose proof (chain_length_bound _ _ _ _ Hc Hnd) as Hlen.
  inversion Hc as [a nd Ha Hn|a b nd l' vs' Ha Hn Hc']; subst.
  - by rewrite Ha, Hn, walk_nil.
  - rewrite Ha, Hn. apply (walk_chain _ _ _ _ Hc'). cbn in Hlen. lia.
Qed.

Lemma models_empty_iff q vs :
  models q vs -> (vs = [] <-> head_next_absent q).
Proof.
  intros (h & l & v0 & Hh & Hc & Hnd & Ht). unfold head_next_absent.
  rewrite Hh. cbn [deref].
  inversion Hc as [a nd Ha Hn|a b nd l' vs' Ha Hn Hc']; subst.
  - split; [eauto|done].
  - destruct (chain_first _ _ _ _ Hc') as (? & ? & ? & _ & _ & ->).
    split; [done|]. intros (rh & Hrh & Hnx). congruence.
Qed.

Lemma chain_reachable hp a l vs :
  chain hp a l vs ->
  forall i x, l !! i = Some x -> reachable hp i (Some a) x.
Proof.
  induction 1 as [a nd Ha Hn|a b nd l vs Ha Hn Hc IH]; intros i x Hi.
  - destruct i as [|i]; cbn in Hi; [|by destruct i]. by simplify_eq.
  - destruct i as [|i]; cbn in Hi; [by simplify_eq|].
    cbn. exists nd. split; [done|]. rewrite Hn. by apply IH.
Qed.

Lemma reachable_chain hp a l vs :
  chain hp a l vs ->
  forall i x, reachable hp i (Some a) x -> l !! i = Some x.
Proof.
  induction 1 as [a nd Ha Hn|a b nd l vs Ha Hn Hc IH]; intros i x Hi.
  - destruct i as [|i]; cbn in Hi; [by simplify_eq|].
    destruct Hi as (nd' & Hnd' & Hr). rewrite Ha in Hnd'. simplify_eq.
    rewrite Hn in Hr. destruct i; cbn in Hr; [done|].
    by destruct Hr as (? & ? & _).
  - destruct i as [|i]; cbn in Hi; [by simplify_eq|].
    destruct Hi as (nd' & Hnd' & Hr). rewrite Ha in Hnd'. simplify_eq.
    rewrite Hn in Hr. cbn. by apply IH.
Qed.

(** What the chain says in terms of pointers: the sentinel is live, the
    tail node is reached from it, and no node is reached twice. *)
Lemma models_structure q vs :
  models q vs ->
  (exists h rh, head q = Some h /\ heap q !! h = Some rh) /\
  (exists t n, tail q = Some t /\ reachable (heap q) n (head q) t) /\
  (forall a n m, reachable (heap q) n (head q) a ->
                 reachable (heap q) m (head q) a -> n = m).
Proof.
  intros (h & l & v0 & Hh & Hc & Hnd & Ht). split_and!.
  - destruct (chain_first _ _ _ _ Hc) as (nd & ? & ? & ? & _). eauto.
  - destruct (chain_last _ _ _ _ Hc) as (t & nd & Hl & _).
    apply last_Some in Hl as Hl'. destruct Hl' as [l' ->].
    exists t, (length l'). split; [congruence|]. rewrite Hh.
    apply (chain_reachable _ _ _ _ Hc).
    rewrite lookup_app_r by lia. by rewrite Nat.sub_diag.
  - intros a n m Hn Hm. rewrite Hh in Hn, Hm.
    apply (reachable_chain _ _ _ _ Hc) in Hn, Hm.
    by eapply NoDup_lookup.
Qed.

Lemma push_all_models vs : forall q ws,
  models q ws ->
  exists q', push_all q vs = Ret tt q' /\ models q' (ws ++ vs).
Proof.
  induction vs as [|v vs IH]; intros q ws Hq.
  - exists q. by rewrite app_nil_r.
  - destruct (Push_models q ws v 0 Hq) as (q1 & Hp & Hq1).
    destruct (IH q1 _ Hq1) as (q2 & Hps & Hq2).
    exists q2. cbn [push_all]. rewrite Hp. split; [done|].
    by rewrite <- app_assoc in Hq2.
Qed.

Lemma pop_n_models vs : forall q ws,
  models q (vs ++ ws) ->
  exists q', pop_n zero (length vs) q = Ret ((fun v => (v, true)) <$> vs) q' /\
             models q' ws.
Proof.
  induction vs as [|v vs IH]; intros q ws Hq.
  - by exists q.
  - destruct (Pop_models_cons q v (vs ++ ws) 0 Hq) as (q1 & Hp & Hq1 & _).
    destruct (IH q1 _ Hq1) as (q2 & Hps & Hq2).
    exists q2. cbn [pop_n length]. by rewrite Hp, Hps.
Qed.

End lock_free_facts.

(* ===================================================================== *)
(** * Facts about interleaved callers of the lock-free queue *)
(* ===================================================================== *)

Section lock_free_steps.
Context {T : Type}.
Variable zero : T.
Import LockFree.

Implicit Types (q : LockFreeQueue (T:=T)) (hp : list (qNode (T:=T))).
Implicit Types (c : pc (T:=T)) (node rt : ptr).

Lemma CompareAndSwap_next_fail q a old new q' :
  CompareAndSwap_next q a old new = Some (q', false) -> q' = q.
Proof.
  unfold CompareAndSwap_next. destruct (heap q !! a); [|done].
  destruct (ptr_eqb _ _); congruence.
Qed.

Lemma CompareAndSwap_head_fail q old new q' :
  CompareAndSwap_head q old new = (q', false) -> q' = q.
Proof. unfold CompareAndSwap_head. destruct (ptr_eqb _ _); congruence. Qed.

(** Run alone, the step machine does what the loop of [Push] does. *)
Lemma Push_loop_solo fuel : forall q node q',
  Push_loop fuel q node = Ret tt q' ->
  exists n, solo zero n q (PushLoadTail node) = (q', PushDone).
Proof.
  induction fuel as [|fuel IH]; intros q node q' Hp; [done|].
  cbn [Push_loop] in Hp.
  destruct (tail q) as [a|] eqn:Ht; [|done].
  destruct (CompareAndSwap_next q a None node) as [[q1 []]|] eqn:Hcas; [| |done].
  - exists 3%nat. cbn [solo thread_step]. rewrite Ht, Hcas. cbn. congruence.
  - apply CompareAndSwap_next_fail in Hcas as Heq. subst q1.
    destruct (IH _ _ _ Hp) as [n Hn].
    exists (S (S n)). cbn [solo thread_step]. by rewrite Ht, Hcas.
Qed.

Lemma Push_solo fuel q v q' :
  Push fuel q v = Ret tt q' ->
  exists n, solo zero n q (PushAlloc v) = (q', PushDone).
Proof.
  unfold Push. cbn. intros Hp.
  destruct (Push_loop_solo _ _ _ _ Hp) as [n Hn].
  by exists (S n).
Qed.

(** Run alone, the step machine does what the loop of [Pop] does. *)
Lemma Pop_solo fuel : forall q v ok q',
  Pop zero fuel q = Ret (v, ok) q' ->
  exists n, solo zero n q PopLoadHead = (q', PopDone v ok).
Proof.
  unfold Pop.
  induction fuel as [|fuel IH]; intros q v ok q' Hp; [done|].
  cbn [Pop_loop] in Hp.
  destruct (deref (heap q) (head q)) as [rh|] eqn:Hrh; [|done].
  destruct (next rh) as [b|] eqn:Hnx.
  - destruct (CompareAndSwap_head q (head q) (Some b)) as [q1 []] eqn:Hcas.
    + destruct (deref (heap q1) (Some b)) as [rn|] eqn:Hrn; [|done].
      exists 4%nat. cbn [solo thread_step]. rewrite Hrh, Hnx.
      cbn [solo thread_step]. rewrite Hrh, Hnx, Hcas.
      cbn [solo thread_step]. rewrite Hrn. cbn. congruence.
    + apply CompareAndSwap_head_fail in Hcas as Heq. subst q1.
      destruct (IH _ _ _ _ Hp) as [n Hn].
      exists (S (S (S n))). cbn [solo thread_step]. rewrite Hrh, Hnx.
      cbn [solo thread_step]. by rewrite Hrh, Hnx, Hcas.
  - exists 2%nat. cbn [solo thread_step]. rewrite Hrh, Hnx. cbn. congruence.
Qed.

(** A push whose [tail] node already has a successor only goes round the
    loop: every compare-and-swap fails and [tail] is read again. *)
Lemma Push_loop_spins fuel : forall q node a (nd : qNode),
  tail q = Some a -> heap q !! a = Some nd -> next nd <> None ->
  Push_loop fuel q node = Spin.
Proof.
  induction fuel as [|fuel IH]; intros q node a nd Ht Ha Hnx; [done|].
  cbn [Push_loop]. rewrite Ht. unfold CompareAndSwap_next. rewrite Ha.
  unfold ptr_eqb. rewrite bool_decide_eq_false_2 by done. by eapply IH.
Qed.

End lock_free_steps.

(** ** The invariant of the shared queue *)

Section lock_free_invariant.
Context {T : Type}.
Variable zero : T.
Import LockFree.

Implicit Types (q : LockFreeQueue (T:=T)) (hp : list (qNode (T:=T))).
Implicit Types (c d : pc (T:=T)) (s : system (T:=T)).
Implicit Types (l : list nat) (vs : list T).

Lemma chain_lookup hp a l vs :
  chain hp a l vs ->
  forall i x, l !! i = Some x ->
  exists nd, hp !! x = Some nd /\ next nd = l !! S i.
Proof.
  induction 1 as [a nd Ha Hn|a b nd l vs Ha Hn Hc IH]; intros i x Hi.
  - destruct i as [|i]; [|done]. cbn in Hi. simplify_eq. eauto.
  - destruct i as [|i]; cbn in Hi.
    + simplify_eq. exists nd. split; [done|].
      destruct (chain_first _ _ _ _ Hc) as (? & ? & ? & _ & -> & _). done.
    + by apply IH.
Qed.

Lemma chain_heap_app hp k a l vs : chain hp a l vs -> chain (hp ++ k) a l vs.
Proof.
  induction 1 as [a nd Ha Hn|a b nd l vs Ha Hn Hc IH].
  - apply chain_end; [|done]. by apply lookup_app_l_Some.
  - eapply chain_step; [|done..]. by apply lookup_app_l_Some.
Qed.

Lemma chain_link hp a l vs t (rt ndb : qNode) b :
  chain hp a l vs -> NoDup l -> last l = Some t ->
  hp !! t = Some rt -> hp !! b = Some ndb -> next ndb = None -> b ∉ l ->
  chain (<[t := mk_qNode (val rt) (Some b)]> hp) a (l ++ [b]) (vs ++ [val ndb]).
Proof.
  induction 1 as [a nd0 Ha Hn|a b0 nd0 l vs Ha Hn Hc IH];
    intros Hnd Hl Ht Hb Hnb Hbl.
  - cbn in Hl. injection Hl as <-.
    assert (rt = nd0) as -> by congruence.
    apply not_elem_of_cons in Hbl as [Hba _].
    apply (chain_step _ a b (mk_qNode (val nd0) (Some b))).
    + apply list_lookup_insert_eq. by eapply lookup_lt_Some.
    + reflexivity.
    + apply (chain_end _ b ndb); [|done].
      by rewrite list_lookup_insert_ne.
  - apply NoDup_cons in Hnd as [Hna Hnd].
    apply not_elem_of_cons in Hbl as [Hba Hbl].
    destruct (chain_first _ _ _ _ Hc) as (ndb0 & l' & vs' & Hb0 & -> & ->).
    rewrite last_cons_cons in Hl.
    assert (t ≠ a) as Hne.
    { intros ->. apply Hna. apply last_Some in Hl as [l'' ->].
      apply elem_of_app. right. by apply list_elem_of_singleton. }
    simpl. eapply chain_step; [| exact Hn | by apply IH].
    by rewrite list_lookup_insert_ne.
Qed.

Lemma chain_last_index hp a l vs i x (nd : qNode) :
  chain hp a l vs -> l !! i = Some x -> hp !! x = Some nd ->
  next nd = None -> S i = length l.
Proof.
  intros Hc Hi Hx Hn.
  destruct (chain_lookup _ _ _ _ Hc _ _ Hi) as (nd' & Hx' & Hn').
  assert (nd' = nd) as -> by congruence. rewrite Hn in Hn'.
  symmetry in Hn'. apply lookup_ge_None in Hn'.
  apply lookup_lt_Some in Hi. lia.
Qed.

Lemma fresh_node_app hp k l node :
  fresh_node hp l node -> fresh_node (hp ++ k) l node.
Proof.
  intros (a & nd & -> & Ha & Hn & Hl). exists a, nd.
  split_and!; try done. by apply lookup_app_l_Some.
Qed.

Lemma thread_ok_heap_app hp k l hi ti c :
  thread_ok hp l hi ti c -> thread_ok (hp ++ k) l hi ti c.
Proof.
  destruct c; cbn; try done.
  - apply fresh_node_app.
  - intros [? ?]. split; [by apply fresh_node_app|done].
Qed.

Lemma thread_ok_tail hp l hi ti ti' c :
  thread_ok hp l hi ti c -> ~ at_store c -> (ti <= ti')%nat ->
  thread_ok hp l hi ti' c.
Proof.
  destruct c; cbn; try done.
  - intros [? (ri & r & ? & ? & ?)] _ ?. split; [done|].
    exists ri, r. split_and!; [done..|lia].
Qed.

Lemma fresh_node_link hp l t (nd' : qNode) b node :
  fresh_node hp l node -> t ∈ l -> node <> Some b ->
  fresh_node (<[t := nd']> hp) (l ++ [b]) node.
Proof.
  intros (a & nd & -> & Ha & Hn & Hl) Ht Hb. exists a, nd.
  split_and!; try done.
  - rewrite list_lookup_insert_ne; [done|]. intros ->. done.
  - intros [?|Hx%list_elem_of_singleton]%elem_of_app; [done|]. congruence.
Qed.

Lemma thread_ok_head hp l hi hi' ti c :
  thread_ok hp l hi ti c -> (hi <= hi')%nat -> thread_ok hp l hi' ti c.
Proof.
  destruct c; cbn; try done.
  intros (i & a & ? & ? & ?) ?. exists i, a. split_and!; [done..|lia].
Qed.

Lemma thread_ok_link hp l hi ti t (nd' : qNode) b c :
  thread_ok hp l hi ti c -> t ∈ l -> pending c <> Some b -> ~ at_store c ->
  thread_ok (<[t := nd']> hp) (l ++ [b]) hi ti c.
Proof.
  destruct c as [v|node|node rt|node| | |h|h n|n|v ok|]; cbn; try done.
  - intros Hf Ht Hp _. apply fresh_node_link; [done..|].
    intros ->. done.
  - intros [Hf (ri & r & ? & ? & ?)] Ht Hp _. split.
    + apply fresh_node_link; [done..|]. intros ->. done.
    + exists ri, r. split_and!; [done| |done]. by apply lookup_app_l_Some.
  - intros (i & a & ? & ? & ?) _ _ _. exists i, a. split_and!; [done| |done].
    by apply lookup_app_l_Some.
  - intros (i & a & b' & ? & ? & ? & ?) _ _ _. exists i, a, b'.
    split_and!; try done; by apply lookup_app_l_Some.
  - intros (i & b' & ? & ?) _ _ _. exists i, b'. split; [done|].
    by apply lookup_app_l_Some.
Qed.


Lemma pending_bound hp l hi ti c a :
  thread_ok hp l hi ti c -> pending c = Some a -> (a < length hp)%nat.
Proof.
  destruct c as [v|node|node rt|node| | |h|h n|n|v ok|]; cbn; try done.
  - intros (a' & nd & -> & Ha & _) [= <-]. by eapply lookup_lt_Some.
  - intros [(a' & nd & -> & Ha & _) _] [= <-]. by eapply lookup_lt_Some.
Qed.

Lemma at_store_lag hp l hi ti c :
  thread_ok hp l hi ti c -> at_store c -> S (S ti) = length l.
Proof. destruct c; cbn; try done. by intros [? _] _. Qed.

(** A step that leaves heap and tail alone and moves a goroutine between
    two places that are not the tail store. *)
Lemma sys_inv_update s l hi hi' ti i c c' q' :
  sys_inv_at s l hi ti ->
  threads s !! i = Some c ->
  heap q' = heap (queue s) -> tail q' = tail (queue s) ->
  (exists h, head q' = Some h /\ l !! hi' = Some h) -> (hi <= hi')%nat ->
  thread_ok (heap q') l hi' ti c' ->
  ~ at_store c -> ~ at_store c' ->
  (forall a, pending c' = Some a -> pending c = Some a) ->
  sys_inv_at (mk_system q' (<[i := c']> (threads s))) l hi' ti.
Proof.
  intros (Hchain & Hnd & Hhead & Htail & Hlag & Huniq & Hok & Hpend)
    Hc Hhp Htl Hh' Hle Hok' Hns Hns' Hp'.
  unfold sys_inv_at. cbn [queue threads]. rewrite Hhp, Htl.
  split_and!; try done.
  - destruct Hlag as [?|[? (j & node & Hj)]]; [by left|right].
    split; [done|]. exists j, node.
    rewrite list_lookup_insert_ne; [done|]. intros ->.
    rewrite Hc in Hj. simplify_eq. by apply Hns.
  - intros j k d e [(-> & <- & _)|[? Hj]]%list_lookup_insert_Some
      [(-> & <- & _)|[? Hk]]%list_lookup_insert_Some; try done. eauto.
  - intros j d [(-> & <- & _)|[? Hj]]%list_lookup_insert_Some.
    + by rewrite <- Hhp.
    + eapply thread_ok_head; eauto.
  - intros j k d e a [(-> & <- & _)|[? Hj]]%list_lookup_insert_Some
      [(-> & <- & _)|[? Hk]]%list_lookup_insert_Some Hd He; try done.
    + apply Hp' in Hd. eauto.
    + apply Hp' in He. eauto.
    + eauto.
Qed.


(** The allocation of a push. *)
Lemma sys_inv_alloc s l hi ti i v :
  sys_inv_at s l hi ti ->
  threads s !! i = Some (PushAlloc v) ->
  sys_inv_at
    (mk_system (fst (alloc (queue s) v))
       (<[i := PushLoadTail (snd (alloc (queue s) v))]> (threads s)))
    l hi ti.
Proof.
  intros (Hchain & Hnd & Hhead & Htail & Hlag & Huniq & Hok & Hpend) Hc.
  destruct Hchain as [vs Hchain].
  unfold sys_inv_at, alloc. cbn [queue threads fst snd heap head tail].
  split_and!; try done.
  - exists vs. by apply chain_heap_app.
  - destruct Hlag as [?|[? (j & node & Hj)]]; [by left|right].
    split; [done|]. exists j, node.
    rewrite list_lookup_insert_ne; [done|]. intros ->. congruence.
  - intros j k d e [(-> & <- & _)|[? Hj]]%list_lookup_insert_Some
      [(-> & <- & _)|[? Hk]]%list_lookup_insert_Some; try done. eauto.
  - intros j d [(-> & <- & _)|[? Hj]]%list_lookup_insert_Some.
    + cbn. exists (length (heap (queue s))), (mk_qNode v None).
      split_and!; try done.
      * rewrite lookup_app_r by lia. by rewrite Nat.sub_diag.
      * intros Hin. pose proof (chain_bound _ _ _ _ Hchain _ Hin). lia.
    + apply thread_ok_heap_app. eauto.
  - intros j k d e a [(-> & <- & _)|[? Hj]]%list_lookup_insert_Some
      [(-> & <- & _)|[? Hk]]%list_lookup_insert_Some Hd He; try done.
    + cbn in Hd. injection Hd as <-.
      pose proof (pending_bound _ _ _ _ _ _ (Hok _ _ Hk) He). lia.
    + cbn in He. injection He as <-.
      pose proof (pending_bound _ _ _ _ _ _ (Hok _ _ Hj) Hd). lia.
    + eauto.
Qed.

(** The compare-and-swap of a push that finds no successor. *)
Lemma sys_inv_link s l hi ti i b r (rtn : qNode) :
  sys_inv_at s l hi ti ->
  threads s !! i = Some (PushCAS (Some b) (Some r)) ->
  heap (queue s) !! r = Some rtn -> next rtn = None ->
  sys_inv_at
    (mk_system
       (mk_queue (head (queue s)) (tail (queue s))
          (<[r := mk_qNode (val rtn) (Some b)]> (heap (queue s))))
       (<[i := PushStore (Some b)]> (threads s)))
    (l ++ [b]) hi ti.
Proof.
  intros (Hchain & Hnd & Hhead & Htail & Hlag & Huniq & Hok & Hpend) Hc Hr Hn.
  destruct Hchain as [vs Hchain].
  pose proof (Hok _ _ Hc) as Hokc. cbn in Hokc.
  destruct Hokc as [(b' & ndb & [= <-] & Hb & Hnb & Hbl)
                      (ri & r' & [= <-] & Hri & Hle)].
  pose proof (chain_last_index _ _ _ _ _ _ _ Hchain Hri Hr Hn) as Hlast.
  destruct Htail as (t & Htail & Hti).
  pose proof (lookup_lt_Some _ _ _ Hti) as Hlt.
  assert (ri = ti) as -> by lia.
  assert (t = r) as -> by congruence.
  assert (last l = Some r) as Hlastl.
  { rewrite last_lookup, <- Hlast. done. }
  assert (forall j d, threads s !! j = Some d -> ~ at_store d) as Hfree.
  { intros j d Hj Hs. pose proof (at_store_lag _ _ _ _ _ (Hok _ _ Hj) Hs). lia. }
  assert (r ∈ l) as Hrl by (by eapply list_elem_of_lookup_2).
  unfold sys_inv_at. cbn [queue threads heap head tail].
  split_and!.
  - exists (vs ++ [val ndb]). by apply chain_link.
  - apply NoDup_app. split_and!; [done| |apply NoDup_singleton].
    intros x Hx ->%list_elem_of_singleton. done.
  - destruct Hhead as (h & ? & ?). exists h. split; [done|].
    by apply lookup_app_l_Some.
  - exists r. split; [done|]. by apply lookup_app_l_Some.
  - right. split; [rewrite length_app; cbn; lia|].
    exists i, (Some b). apply list_lookup_insert_eq. by eapply lookup_lt_Some.
  - intros j k d e [(-> & <- & _)|[? Hj]]%list_lookup_insert_Some
      [(-> & <- & _)|[? Hk]]%list_lookup_insert_Some Hd He; try done;
      solve [by destruct (Hfree _ _ Hk) | by destruct (Hfree _ _ Hj)].
  - intros j d [(-> & <- & _)|[Hne Hj]]%list_lookup_insert_Some.
    + cbn. rewrite length_app, last_snoc. cbn. split; [lia|done].
    + apply thread_ok_link; [by eauto|done| |by eauto].
      intros Hp. apply Hne. by eapply (Hpend i j).
  - intros j k d e a [(-> & <- & _)|[? Hj]]%list_lookup_insert_Some
      [(-> & <- & _)|[? Hk]]%list_lookup_insert_Some Hd He; try done. eauto.
Qed.

(** The store to [tail] that ends a push. *)
Lemma sys_inv_store s l hi ti i node :
  sys_inv_at s l hi ti ->
  threads s !! i = Some (PushStore node) ->
  sys_inv_at
    (mk_system (Store_tail (queue s) node) (<[i := PushDone]> (threads s)))
    l hi (S ti).
Proof.
  intros (Hchain & Hnd & Hhead & Htail & Hlag & Huniq & Hok & Hpend) Hc.
  pose proof (Hok _ _ Hc) as Hokc. cbn in Hokc. destruct Hokc as [Hlen ->].
  unfold sys_inv_at, Store_tail. cbn [queue threads heap head tail].
  assert (is_Some (l !! S ti)) as [b Hb].
  { apply lookup_lt_is_Some. lia. }
  split_and!; try done.
  - exists b. split; [|done]. rewrite last_lookup, <- Hlen. done.
  - by left.
  - intros j k d e [(-> & <- & _)|[? Hj]]%list_lookup_insert_Some
      [(-> & <- & _)|[? Hk]]%list_lookup_insert_Some; try done. eauto.
  - intros j d [(-> & <- & _)|[Hne Hj]]%list_lookup_insert_Some; [done|].
    eapply thread_ok_tail; [eauto| |lia].
    intros Hs. apply Hne. eapply (Huniq i j); eauto. done.
  - intros j k d e a [(-> & <- & _)|[? Hj]]%list_lookup_insert_Some
      [(-> & <- & _)|[? Hk]]%list_lookup_insert_Some Hd He; try done. eauto.
Qed.


(** Every step of every goroutine keeps the invariant. *)
Lemma sys_step_inv s i : sys_inv s -> sys_inv (sys_step zero s i).
Proof.
  intros (l & hi & ti & Hinv). unfold sys_step.
  destruct (threads s !! i) as [c|] eqn:Hc; [|by exists l, hi, ti].
  pose proof Hinv as (Hchain & Hnd & Hhead & Htail & Hlag & Huniq & Hok & Hpend).
  destruct Hchain as [vs Hchain].
  pose proof (Hok _ _ Hc) as Hokc.
  destruct c as [v|node|node rt|node| | |h|h n|n|v ok|]; cbn [thread_step].
  - (* PushAlloc *)
    exists l, hi, ti. by apply sys_inv_alloc.
  - (* PushLoadTail *)
    exists l, hi, ti. eapply sys_inv_update; try done; try (cbn; tauto).
    cbn in *. split; [done|]. destruct Htail as (t & -> & ?). eauto.
  - (* PushCAS *)
    cbn in Hokc. destruct Hokc as [Hf (ri & r & -> & Hri & Hle)].
    destruct (chain_lookup _ _ _ _ Hchain _ _ Hri) as (rtn & Hr & Hnx).
    unfold CompareAndSwap_next. rewrite Hr. unfold ptr_eqb.
    case_bool_decide as Hnil.
    + destruct Hf as (b & ndb & -> & Hf).
      exists (l ++ [b]), hi, ti. by eapply sys_inv_link.
    + exists l, hi, ti. eapply sys_inv_update; try done; try (cbn; tauto).
  - (* PushStore *)
    exists l, hi, (S ti). by apply sys_inv_store.
  - (* PushDone *) by exists l, hi, ti.
  - (* PopLoadHead *)
    exists l, hi, ti. eapply sys_inv_update; try done; try (cbn; tauto).
    cbn. destruct Hhead as (h & -> & ?). eauto.
  - (* PopLoadNext *)
    cbn in Hokc. destruct Hokc as (j & a & -> & Hj & Hjle).
    destruct (chain_lookup _ _ _ _ Hchain _ _ Hj) as (rh & Ha & Hnx).
    cbn [deref]. rewrite Ha.
    destruct (next rh) as [b|] eqn:Hb.
    + exists l, hi, ti. eapply sys_inv_update; try done; try (cbn; tauto).
      cbn. exists j, a, b. split_and!; [done..|congruence].
    + exists l, hi, ti. eapply sys_inv_update; try done; try (cbn; tauto).
  - (* PopCAS *)
    cbn in Hokc. destruct Hokc as (j & a & b & -> & -> & Hj & Hsj).
    destruct (chain_lookup _ _ _ _ Hchain _ _ Hj) as (rh & Ha & Hnx).
    cbn [deref]. rewrite Ha. unfold CompareAndSwap_head, ptr_eqb.
    case_bool_decide as Hh.
    + destruct Hhead as (h & Hh' & Hhi).
      assert (j = hi) as ->.
      { eapply NoDup_lookup; [done..|]. congruence. }
      exists l, (S hi), ti. eapply sys_inv_update; try done; try (cbn; tauto).
      * cbn. exists b. split; [congruence|done].
      * lia.
      * cbn. eauto.
    + exists l, hi, ti. eapply sys_inv_update; try done; try (cbn; tauto).
  - (* PopVal *)
    cbn in Hokc. destruct Hokc as (j & b & -> & Hj).
    destruct (chain_lookup _ _ _ _ Hchain _ _ Hj) as (rn & Hb & _).
    cbn [deref]. rewrite Hb.
    exists l, hi, ti. eapply sys_inv_update; try done; try (cbn; tauto).
  - (* PopDone *) by exists l, hi, ti.
  - (* Crashed *) by exists l, hi, ti.
Qed.

Lemma sys_inv_initial cs :
  Forall initial cs -> sys_inv (mk_system (NewQueue zero) cs).
Proof.
  intros Hcs. exists [0%nat], 0%nat, 0%nat.
  assert (forall i c, cs !! i = Some c ->
            c = PopLoadHead \/ exists v, c = PushAlloc v) as Hinit.
  { intros i c Hi. eapply Forall_lookup_1 in Hcs; [|done].
    destruct c; cbn in Hcs; try done; eauto. }
  unfold sys_inv_at. cbn. split_and!.
  - exists [zero]. by apply (chain_end _ 0%nat (mk_qNode zero None)).
  - apply NoDup_singleton.
  - by exists 0%nat.
  - by exists 0%nat.
  - by left.
  - intros i j c d Hi Hj Hc. by destruct (Hinit _ _ Hi) as [->|[? ->]].
  - intros i c Hi. by destruct (Hinit _ _ Hi) as [->|[? ->]].
  - intros i j c d a Hi Hj Hc. by destruct (Hinit _ _ Hi) as [->|[? ->]].
Qed.

Lemma run_inv sched : forall s, sys_inv s -> sys_inv (run zero sched s).
Proof.
  induction sched as [|i sched IH]; intros s Hs; [done|].
  cbn. apply IH. by apply sys_step_inv.
Qed.

Lemma reachable_system_inv s : reachable_system zero s -> sys_inv s.
Proof.
  intros (cs & sched & Hcs & ->). by apply run_inv, sys_inv_initial.
Qed.


Lemma chain_reach_between hp a l vs :
  chain hp a l vs ->
  forall k i x y, l !! i = Some x -> l !! (i + k)%nat = Some y ->
                  reachable hp k (Some x) y.
Proof.
  intros Hc. induction k as [|k IH]; intros i x y Hi Hk.
  - rewrite Nat.add_0_r in Hk. cbn. congruence.
  - destruct (chain_lookup _ _ _ _ Hc _ _ Hi) as (nd & Hx & Hn).
    cbn. exists nd. split; [done|].
    assert (is_Some (l !! S i)) as [z Hz].
    { apply lookup_lt_is_Some. apply lookup_lt_Some in Hk. lia. }
    rewrite Hn, Hz. apply (IH (S i)); [done|].
    by replace (S i + k)%nat with (i + S k)%nat by lia.
Qed.

(** No goroutine ever dereferences nil. *)
Lemma sys_inv_no_crash s i : sys_inv s -> threads s !! i <> Some Crashed.
Proof.
  intros (l & hi & ti & _ & _ & _ & _ & _ & _ & Hok & _) Hc.
  by apply Hok in Hc.
Qed.

(** [head] is live, and [tail] is reached from [head] unless [head] has
    just moved past it while a push is about to store [tail]. *)
Lemma sys_inv_pointers s :
  sys_inv s ->
  exists h t rh rt,
    head (queue s) = Some h /\ tail (queue s) = Some t /\
    heap (queue s) !! h = Some rh /\ heap (queue s) !! t = Some rt /\
    ((exists n, reachable (heap (queue s)) n (head (queue s)) t) \/
     (next rt = Some h /\ next rh = None /\
      exists i node, threads s !! i = Some (PushStore node))).
Proof.
  intros (l & hi & ti & [vs Hc] & Hnd & (h & Hh & Hhi) & (t & Ht & Hti)
          & Hlag & _).
  destruct (chain_lookup _ _ _ _ Hc _ _ Hhi) as (rh & Hrh & Hnh).
  destruct (chain_lookup _ _ _ _ Hc _ _ Hti) as (rt & Hrt & Hnt).
  exists h, t, rh, rt. split_and!; try done.
  destruct (decide (hi <= ti)%nat) as [Hle|Hgt].
  - left. exists (ti - hi)%nat. rewrite Hh.
    apply (chain_reach_between _ _ _ _ Hc _ hi); [done|].
    by replace (hi + (ti - hi))%nat with ti by lia.
  - right. pose proof (lookup_lt_Some _ _ _ Hhi) as Hlt.
    destruct Hlag as [?|[Hlen Hst]]; [lia|].
    assert (hi = S ti) as -> by lia.
    split_and!; [congruence| |done].
    rewrite Hnh. apply lookup_ge_None. lia.
Qed.

(** The linked nodes form one chain from the dummy that ends in nil and
    visits no node twice; [head] and [tail] point into it. *)
Lemma sys_inv_chain s :
  sys_inv s ->
  exists l vs h t,
    chain (heap (queue s)) 0 l vs /\ NoDup l /\
    head (queue s) = Some h /\ h ∈ l /\ tail (queue s) = Some t /\ t ∈ l.
Proof.
  intros (l & hi & ti & [vs Hc] & Hnd & (h & Hh & Hhi) & (t & Ht & Hti) & _).
  exists l, vs, h, t. split_and!; try done; by eapply list_elem_of_lookup_2.
Qed.

(** Also between the steps of concurrent calls, nothing waits in the queue
    exactly when the successor of the node at [head] is nil. *)
Lemma sys_inv_empty_iff s :
  sys_inv s -> (contents (queue s) = [] <-> head_next_absent (queue s)).
Proof.
  intros (l & hi & ti & [vs Hc] & Hnd & (h & Hh & Hhi) & _).
  destruct (chain_lookup _ _ _ _ Hc _ _ Hhi) as (rh & Hrh & Hn).
  unfold contents, head_next_absent. rewrite Hh. cbn [deref]. rewrite Hrh.
  destruct (l !! S hi) as [b|] eqn:Hb.
  - apply (chain_lookup _ _ _ _ Hc) in Hb as (nd & Hnd' & _).
    rewrite Hn. pose proof (lookup_lt_Some _ _ _ Hnd') as Hlt.
    destruct (length (heap (queue s))) as [|n]; [lia|].
    cbn. rewrite Hnd'. split; [done|].
    intros (rh' & [= <-] & Hnone). congruence.
  - rewrite Hn, walk_nil. split; [|done]. intros _. exists rh. by rewrite Hn.
Qed.

(** A pop gives up only if the queue is empty when it reads the successor
    of the node it took for [head]. *)
Lemma sys_inv_not_found s i h q' v ok :
  sys_inv s ->
  threads s !! i = Some (PopLoadNext h) ->
  thread_step zero (queue s) (PopLoadNext h) = Some (q', PopDone v ok) ->
  ok = false /\ v = zero /\ q' = queue s /\ head_next_absent (queue s).
Proof.
  intros (l & hi & ti & [vs Hc] & Hnd & (h' & Hh & Hhi) & _ & _ & _ & Hok & _)
    Hi Hstep.
  apply Hok in Hi. cbn in Hi. destruct Hi as (j & a & -> & Hj & Hle).
  destruct (chain_lookup _ _ _ _ Hc _ _ Hj) as (rh & Ha & Hn).
  cbn in Hstep. rewrite Ha in Hstep.
  destruct (next rh) as [b|] eqn:Hb; [done|].
  injection Hstep as <- <- <-. split_and!; try done.
  pose proof (chain_last_index _ _ _ _ _ _ _ Hc Hj Ha Hb) as Hlen.
  pose proof (lookup_lt_Some _ _ _ Hhi) as Hlt.
  assert (hi = j) as -> by lia.
  exists rh. rewrite Hh. cbn. split; [congruence|done].
Qed.

End lock_free_invariant.

(** ** A stalled store to tail *)

Section lock_free_progress.
Context {T : Type}.
Variable zero : T.
Import LockFree.

Implicit Types (q : LockFreeQueue (T:=T)) (c : pc (T:=T)) (s : system (T:=T)).

(** While [tail] lags, a goroutine that waits on it keeps waiting, leaves
    [tail] lagging, and a push among them stays in its loop. *)
Lemma thread_step_waits q t c q' c' :
  tail_lags q t -> waits_on t c ->
  thread_step zero q c = Some (q', c') ->
  tail_lags q' t /\ waits_on t c' /\ (in_push c -> in_push c').
Proof.
  intros (Ht & rt & b & Hrt & Hb) Hw Hstep.
  assert (heap q' = heap q -> tail q' = tail q -> tail_lags q' t) as Hsame.
  { intros Hhp Htl. split; [congruence|]. exists rt, b. by rewrite Hhp. }
  destruct c as [v|node|node r|node| | |h|h n|n|v ok|]; cbn in Hstep, Hw;
    try done.
  - injection Hstep as <- <-. split_and!; [|done..].
    split; [done|]. exists rt, b. cbn. split; [|done].
    by apply lookup_app_l_Some.
  - injection Hstep as <- <-. split_and!; [by apply Hsame|by cbn|done].
  - subst r. unfold CompareAndSwap_next in Hstep. rewrite Hrt in Hstep.
    unfold ptr_eqb in Hstep. rewrite bool_decide_eq_false_2 in Hstep
      by congruence.
    injection Hstep as <- <-. split_and!; [by apply Hsame|done..].
  - injection Hstep as <- <-. split_and!; [by apply Hsame|done..].
  - assert (q' = q /\ waits_on t c') as (-> & ?).
    { destruct (deref (heap q) h) as [rh|]; [destruct (next rh)|];
        injection Hstep as <- <-; by split_and!. }
    split_and!; [by apply Hsame|done..].
  - assert (heap q' = heap q /\ tail q' = tail q /\ waits_on t c')
      as (Hhp & Htl & ?).
    { destruct (deref (heap q) h) as [rh|]; [|by injection Hstep as <- <-].
      unfold CompareAndSwap_head in Hstep.
      destruct (ptr_eqb _ _); by injection Hstep as <- <-. }
    split_and!; [by apply Hsame|done..].
  - assert (q' = q /\ waits_on t c') as (-> & ?).
    { destruct (deref (heap q) n) as [rn|]; by injection Hstep as <- <-. }
    split_and!; [by apply Hsame|done..].
Qed.

(** Under a schedule of goroutines that all wait on the lagging [tail],
    no push among them ever returns. *)
Lemma stalled_store_blocks sched : forall s t,
  tail_lags (queue s) t ->
  (forall i c, i ∈ sched -> threads s !! i = Some c -> waits_on t c) ->
  tail_lags (queue (run zero sched s)) t /\
  forall i c, threads s !! i = Some c -> in_push c -> i ∈ sched ->
              exists c', threads (run zero sched s) !! i = Some c' /\
                         in_push c'.
Proof.
  induction sched as [|j sched IH]; intros s t Hlag Hw.
  - split; [done|]. intros i c _ _ Hi. by apply elem_of_nil in Hi.
  - cbn [run foldl].
    assert (tail_lags (queue (sys_step zero s j)) t /\
            (forall i c, i ∈ j :: sched ->
                         threads (sys_step zero s j) !! i = Some c ->
                         waits_on t c) /\
            (forall i c, threads s !! i = Some c -> in_push c ->
                         exists c', threads (sys_step zero s j) !! i = Some c'
                                    /\ in_push c')) as (Hlag' & Hw' & Hp').
    { unfold sys_step. destruct (threads s !! j) as [cj|] eqn:Hj; [|by eauto].
      destruct (thread_step zero (queue s) cj) as [[q' c']|] eqn:Hstep;
        [|by eauto].
      assert (waits_on t cj) as Hwj by (eapply Hw; [left|done]).
      destruct (thread_step_waits _ _ _ _ _ Hlag Hwj Hstep) as (? & ? & Hin).
      cbn [queue threads]. split_and!; [done| |].
      - intros i c Hi [(-> & <- & _)|[? Hc]]%list_lookup_insert_Some; eauto.
      - intros i c Hc Hc'. destruct (decide (i = j)) as [->|Hne].
        + exists c'. split.
          * apply list_lookup_insert_eq. by eapply lookup_lt_Some.
          * apply Hin. congruence.
        + exists c. by rewrite list_lookup_insert_ne. }
    destruct (IH (sys_step zero s j) t Hlag') as [Hfin Hpush].
    { intros i c Hi. apply Hw'. by right. }
    split; [done|]. intros i c Hc Hin Hi.
    destruct (Hp' _ _ Hc Hin) as (c1 & Hc1 & Hin1).
    destruct (decide (i ∈ sched)) as [Hs|Hs]; [by eauto|].
    exists c1. split; [|done]. clear -Hc1 Hs.
    revert Hc1 Hs. generalize (sys_step zero s j). clear s.
    induction sched as [|k sched IH']; intros s Hc1 Hs; [done|].
    apply not_elem_of_cons in Hs as [Hne Hs]. cbn. apply IH'; [|done].
    unfold sys_step. destruct (threads s !! k) as [ck|]; [|done].
    destruct (thread_step zero (queue s) ck) as [[q' c']|]; [|done].
    cbn. by rewrite list_lookup_insert_ne.
Qed.

End lock_free_progress.

(* ===================================================================== *)
(** * The lock-free queue: what the specification states *)
(* ===================================================================== *)

(** C1: a single caller that pushes 1, 2, 3 on a new queue and pops three
    times gets 1, 2, 3 in that order, each found; in general a push puts
    its value behind everything already in the chain, and what was pushed
    in some order is popped in that order. *)
Theorem C1_single_caller_fifo :
  (exists q3 q6,
      LockFree.push_all (LockFree.NewQueue 0) [1; 2; 3] = LockFree.Ret tt q3 /\
      LockFree.pop_n 0 3 q3 =
        LockFree.Ret [(1, true); (2, true); (3, true)] q6) /\
  (forall (T : Type) (q : @LockFree.LockFreeQueue T) (vs : list T) (v : T)
          (fuel : nat),
      LockFree.models q vs ->
      exists q', LockFree.Push (S fuel) q v = LockFree.Ret tt q' /\
                 LockFree.models q' (vs ++ [v]) /\
                 LockFree.contents q' = LockFree.contents q ++ [v]) /\
  (forall (T : Type) (zero : T) (vs : list T),
      exists q q',
        LockFree.push_all (LockFree.NewQueue zero) vs = LockFree.Ret tt q /\
        LockFree.pop_n zero (length vs) q =
          LockFree.Ret ((fun v => (v, true)) <$> vs) q').
Proof.
  split_and!.
  - by eexists _, _.
  - intros T q vs v fuel Hq.
    destruct (Push_models q vs v fuel Hq) as (q' & Hp & Hq').
    exists q'. split_and!; [done..|].
    by rewrite (models_contents _ _ Hq), (models_contents _ _ Hq').
  - intros T zero vs.
    destruct (push_all_models vs _ _ (models_NewQueue zero)) as (q & Hp & Hq).
    cbn in Hq.
    assert (LockFree.models q (vs ++ [])) as Hq0 by by rewrite app_nil_r.
    destruct (pop_n_models zero vs q [] Hq0) as (q' & Hpop & _).
    by exists q, q'.
Qed.

Lemma C1_single_caller_fifo_witness :
  exists q', LockFree.Push 1 (LockFree.NewQueue 0) 7 = LockFree.Ret tt q' /\
             LockFree.models q' ([] ++ [7]) /\
             LockFree.contents q' = LockFree.contents (LockFree.NewQueue 0) ++ [7].
Proof.
  apply (proj1 (proj2 C1_single_caller_fifo) Z (LockFree.NewQueue 0) [] 7 O).
  exists 0%nat, [0%nat], 0. split_and!; try reflexivity.
  - apply (LockFree.chain_end _ 0%nat (LockFree.mk_qNode 0 None)); reflexivity.
  - apply NoDup_singleton.
Defined.

(** C2: a pop on a queue made by [NewQueue] finds nothing; after one push
    and one pop, the next pop finds nothing again. *)
Theorem C2_empty_queue_pops (T : Type) (zero v : T) (fuel : nat) :
  LockFree.Pop zero (S fuel) (LockFree.NewQueue zero) =
    LockFree.Ret (zero, false) (LockFree.NewQueue zero) /\
  exists q1 q2,
    LockFree.Push (S fuel) (LockFree.NewQueue zero) v = LockFree.Ret tt q1 /\
    LockFree.Pop zero (S fuel) q1 = LockFree.Ret (v, true) q2 /\
    LockFree.Pop zero (S fuel) q2 = LockFree.Ret (zero, false) q2.
Proof.
  split; [done|].
  destruct (Push_models _ _ v fuel (models_NewQueue zero)) as (q1 & Hp & Hq1).
  destruct (Pop_models_cons zero q1 v [] fuel Hq1) as (q2 & Hpop & Hq2 & _).
  exists q1, q2. split_and!; [done..|].
  by apply Pop_models_nil.
Qed.

(** C3: when the successor of the node at [head] is nil, pop returns the
    zero value with found = false and leaves head, tail and chain as they
    were; on a well-formed queue pop never panics and never spins, and it
    reports not-found exactly when the queue is empty at that moment.
    Under every interleaving no goroutine dereferences nil, and a pop
    gives up only at a moment when the successor of [head] is nil. *)
Theorem C3_pop_on_empty (T : Type) (zero : T)
    (q : @LockFree.LockFreeQueue T) (fuel : nat) :
  (LockFree.head_next_absent q ->
     LockFree.Pop zero (S fuel) q = LockFree.Ret (zero, false) q) /\
  (LockFree.queue_inv q ->
     exists v ok q',
       LockFree.Pop zero (S fuel) q = LockFree.Ret (v, ok) q' /\
       (ok = false <-> LockFree.head_next_absent q) /\
       (ok = false <-> LockFree.contents q = [])) /\
  (forall s, LockFree.reachable_system zero s ->
     (forall i, LockFree.threads s !! i <> Some LockFree.Crashed) /\
     (forall i h q' v ok,
        LockFree.threads s !! i = Some (LockFree.PopLoadNext h) ->
        LockFree.thread_step zero (LockFree.queue s) (LockFree.PopLoadNext h)
          = Some (q', LockFree.PopDone v ok) ->
        ok = false /\ v = zero /\ q' = LockFree.queue s /\
        LockFree.head_next_absent (LockFree.queue s))).
Proof.
  split_and!.
  - intros (rh & Hrh & Hnx). unfold LockFree.Pop. cbn [LockFree.Pop_loop].
    by rewrite Hrh, Hnx.
  - intros [vs Hq]. pose proof (models_empty_iff q vs Hq) as Hiff.
    rewrite (models_contents q vs Hq).
    destruct vs as [|v vs].
    + exists zero, false, q. split; [by apply Pop_models_nil|].
      split; [|done]. split; [|done]. intros _. by apply Hiff.
    + destruct (Pop_models_cons zero q v vs fuel Hq) as (q' & Hp & _).
      exists v, true, q'. split; [done|].
      split; [|done]. split; [done|]. intros He. by apply Hiff in He.
  - intros s Hs%reachable_system_inv. split.
    + intros i. by apply sys_inv_no_crash.
    + intros i h q' v ok. by apply sys_inv_not_found.
Qed.

Lemma C3_pop_on_empty_witness :
  LockFree.Pop 0 1 (LockFree.NewQueue 0) =
    LockFree.Ret (0, false) (LockFree.NewQueue 0) /\
  (exists v ok q',
    LockFree.Pop 0 1 (LockFree.NewQueue 0) = LockFree.Ret (v, ok) q' /\
    (ok = false <-> LockFree.head_next_absent (LockFree.NewQueue 0)) /\
    (ok = false <-> LockFree.contents (LockFree.NewQueue 0) = [])) /\
  (let s := LockFree.run 0 [0%nat]
              (LockFree.mk_system (LockFree.NewQueue 0) [LockFree.PopLoadHead]) in
   false = false /\ 0 = 0 /\ LockFree.queue s = LockFree.queue s /\
   LockFree.head_next_absent (LockFree.queue s)).
Proof.
  split_and!.
  - apply (proj1 (C3_pop_on_empty Z 0 (LockFree.NewQueue 0) O)).
    exists (LockFree.mk_qNode 0 None). split; reflexivity.
  - apply (proj1 (proj2 (C3_pop_on_empty Z 0 (LockFree.NewQueue 0) O))).
    exists []. exists 0%nat, [0%nat], 0. split_and!; try reflexivity.
    + apply (LockFree.chain_end _ 0%nat (LockFree.mk_qNode 0 None)); reflexivity.
    + apply NoDup_singleton.
  - cbv zeta.
    destruct (proj2 (proj2 (C3_pop_on_empty Z 0 (LockFree.NewQueue 0) O))
                (LockFree.run 0 [0%nat]
                   (LockFree.mk_system (LockFree.NewQueue 0)
                      [LockFree.PopLoadHead]))) as [_ Hnf].
    + exists [LockFree.PopLoadHead], [0%nat].
      split; [repeat constructor|reflexivity].
    + apply (Hnf 0%nat (Some 0%nat)); reflexivity.
Defined.


(** C4, as the code has it: run by one caller at a time, [NewQueue], every
    push and every pop keep the structure (head points to a live sentinel,
    the queue is empty exactly when its successor is nil, tail is reached
    from head, no node is reached twice).  Under interleaving head stays
    live and all linked nodes form one chain from the dummy without
    repetition that holds the head and the tail node; tail is reached from
    head except when a pop has moved head onto the node whose push has not
    stored tail yet: then head is the successor of tail. *)
Theorem C4_structure_kept (T : Type) (zero : T) :
  LockFree.queue_inv (LockFree.NewQueue zero) /\
  (forall (q : @LockFree.LockFreeQueue T) v fuel,
     LockFree.queue_inv q ->
     exists q', LockFree.Push (S fuel) q v = LockFree.Ret tt q' /\
                LockFree.queue_inv q') /\
  (forall (q : @LockFree.LockFreeQueue T) fuel,
     LockFree.queue_inv q ->
     exists r q', LockFree.Pop zero (S fuel) q = LockFree.Ret r q' /\
                  LockFree.queue_inv q') /\
  (forall q : @LockFree.LockFreeQueue T,
     LockFree.queue_inv q ->
     (exists h rh, LockFree.head q = Some h /\
                   LockFree.heap q !! h = Some rh) /\
     (LockFree.contents q = [] <-> LockFree.head_next_absent q) /\
     (exists t n, LockFree.tail q = Some t /\
                  LockFree.reachable (LockFree.heap q) n (LockFree.head q) t) /\
     (forall a n m,
        LockFree.reachable (LockFree.heap q) n (LockFree.head q) a ->
        LockFree.reachable (LockFree.heap q) m (LockFree.head q) a ->
        n = m)) /\
  (forall s, LockFree.reachable_system zero s ->
     (exists l vs h t,
        LockFree.chain (LockFree.heap (LockFree.queue s)) 0 l vs /\
        NoDup l /\
        LockFree.head (LockFree.queue s) = Some h /\ h ∈ l /\
        LockFree.tail (LockFree.queue s) = Some t /\ t ∈ l) /\
     (LockFree.contents (LockFree.queue s) = [] <->
      LockFree.head_next_absent (LockFree.queue s)) /\
     (exists h t rh rt,
        LockFree.head (LockFree.queue s) = Some h /\
        LockFree.tail (LockFree.queue s) = Some t /\
        LockFree.heap (LockFree.queue s) !! h = Some rh /\
        LockFree.heap (LockFree.queue s) !! t = Some rt /\
        ((exists n, LockFree.reachable (LockFree.heap (LockFree.queue s)) n
                      (LockFree.head (LockFree.queue s)) t) \/
         (LockFree.next rt = Some h /\ LockFree.next rh = None /\
          exists i node,
            LockFree.threads s !! i = Some (LockFree.PushStore node))))).
Proof.
  split_and!.
  - exists []. apply models_NewQueue.
  - intros q v fuel [vs Hq].
    destruct (Push_models q vs v fuel Hq) as (q' & Hp & Hq').
    exists q'. split; [done|]. by exists (vs ++ [v]).
  - intros q fuel [vs Hq]. destruct vs as [|v vs].
    + exists (zero, false), q. split; [by apply Pop_models_nil|]. by exists [].
    + destruct (Pop_models_cons zero q v vs fuel Hq) as (q' & Hp & Hq' & _).
      exists (v, true), q'. split; [done|]. by exists vs.
  - intros q [vs Hq].
    destruct (models_structure q vs Hq) as (Hh & Ht & Hacyc).
    split_and!; try done.
    rewrite (models_contents q vs Hq). by apply models_empty_iff.
  - intros s Hs%reachable_system_inv. split_and!.
    + by apply sys_inv_chain.
    + by apply sys_inv_empty_iff.
    + by apply sys_inv_pointers.
Qed.

Lemma C4_structure_kept_witness :
  (exists q', LockFree.Push 1 (LockFree.NewQueue 0) 5 = LockFree.Ret tt q' /\
              LockFree.queue_inv q') /\
  (exists r q', LockFree.Pop 0 1 (LockFree.NewQueue 0) = LockFree.Ret r q' /\
                LockFree.queue_inv q') /\
  (exists t n, LockFree.tail (LockFree.NewQueue 0) = Some t /\
               LockFree.reachable (LockFree.heap (LockFree.NewQueue 0)) n
                 (LockFree.head (LockFree.NewQueue 0)) t) /\
  (exists l vs h t,
     let s := LockFree.run 0 [0%nat; 0%nat; 0%nat]
                (LockFree.mk_system (LockFree.NewQueue 0) [LockFree.PushAlloc 1]) in
     LockFree.chain (LockFree.heap (LockFree.queue s)) 0 l vs /\
     NoDup l /\
     LockFree.head (LockFree.queue s) = Some h /\ h ∈ l /\
     LockFree.tail (LockFree.queue s) = Some t /\ t ∈ l).
Proof.
  pose proof (C4_structure_kept Z 0) as (H0 & Hpush & Hpop & Hstr & Hsys).
  split_and!.
  - apply Hpush, H0.
  - apply Hpop, H0.
  - apply (Hstr _ H0).
  - apply (Hsys (LockFree.run 0 [0%nat; 0%nat; 0%nat]
             (LockFree.mk_system (LockFree.NewQueue 0) [LockFree.PushAlloc 1]))).
    exists [LockFree.PushAlloc 1], [0%nat; 0%nat; 0%nat].
    split; [|reflexivity]. repeat constructor.
Defined.

(** C4 as stated fails: after a push has linked its node and before it
    stores tail, a complete pop moves head onto that node; tail still
    points to the dummy, which is not reached from head. *)
Lemma C4_tail_not_reached_from_head :
  let s0 := LockFree.mk_system (LockFree.NewQueue 0)
              [LockFree.PushAlloc 1; LockFree.PopLoadHead] in
  let s1 := LockFree.run 0 [0%nat; 0%nat; 0%nat] s0 in
  let s2 := LockFree.run 0 [1%nat; 1%nat; 1%nat; 1%nat] s1 in
  LockFree.reachable_system 0 s2 /\
  LockFree.threads s1 !! 0%nat = Some (LockFree.PushStore (Some 1%nat)) /\
  LockFree.reachable (LockFree.heap (LockFree.queue s1)) 0
    (LockFree.head (LockFree.queue s1)) 0 /\
  LockFree.Pop 0 1 (LockFree.queue s1) =
    LockFree.Ret (1, true) (LockFree.queue s2) /\
  LockFree.threads s2 !! 1%nat = Some (LockFree.PopDone 1 true) /\
  LockFree.head (LockFree.queue s2) = Some 1%nat /\
  LockFree.tail (LockFree.queue s2) = Some 0%nat /\
  ~ (exists t n, LockFree.tail (LockFree.queue s2) = Some t /\
                 LockFree.reachable (LockFree.heap (LockFree.queue s2)) n
                   (LockFree.head (LockFree.queue s2)) t).
Proof.
  cbv zeta. split_and!; try reflexivity.
  - exists [LockFree.PushAlloc 1; LockFree.PopLoadHead],
      [0%nat; 0%nat; 0%nat; 1%nat; 1%nat; 1%nat; 1%nat].
    split; [|reflexivity]. repeat constructor.
  - intros (t & n & Ht & Hr). vm_compute in Ht. injection Ht as <-.
    destruct n as [|[|n]]; vm_compute in Hr.
    + discriminate.
    + destruct Hr as (nd & [= <-] & Hr). discriminate.
    + destruct Hr as (nd & [= <-] & nd' & Hr & _). discriminate.
Qed.

(** C5: push allocates one node that holds the value and has no
    successor, reads tail, and tries to swap the successor of the node it
    read from nil to the new node. When the swap succeeds it stores the
    new node into tail and returns: on a queue whose tail node has no
    successor [Push], run alone, returns after these four steps, with
    exactly that node added and linked behind the tail node. When the swap
    fails nothing is written and tail is read again: run alone [Push]
    then never returns, and once another goroutine has moved tail the
    next round links the node behind the node tail points to by then, not
    behind the one read before. *)
Theorem C5_push_steps (T : Type) (zero : T)
    (q : @LockFree.LockFreeQueue T) (v : T) (t : nat)
    (rt : @LockFree.qNode T) :
  LockFree.tail q = Some t -> LockFree.heap q !! t = Some rt ->
  let node := Some (length (LockFree.heap q)) in
  let q1 := LockFree.mk_queue (LockFree.head q) (LockFree.tail q)
              (LockFree.heap q ++ [LockFree.mk_qNode v None]) in
  let q2 := LockFree.mk_queue (LockFree.head q) (LockFree.tail q)
              (<[t := LockFree.mk_qNode (LockFree.val rt) node]>
                 (LockFree.heap q1)) in
  let q3 := LockFree.mk_queue (LockFree.head q) node (LockFree.heap q2) in
  LockFree.solo zero 1 q (LockFree.PushAlloc v) =
    (q1, LockFree.PushLoadTail node) /\
  LockFree.solo zero 2 q (LockFree.PushAlloc v) =
    (q1, LockFree.PushCAS node (Some t)) /\
  (LockFree.next rt = None ->
   LockFree.solo zero 3 q (LockFree.PushAlloc v) =
     (q2, LockFree.PushStore node) /\
   LockFree.solo zero 4 q (LockFree.PushAlloc v) = (q3, LockFree.PushDone) /\
   forall fuel, LockFree.Push (S fuel) q v = LockFree.Ret tt q3) /\
  (LockFree.next rt <> None ->
   LockFree.solo zero 3 q (LockFree.PushAlloc v) =
     (q1, LockFree.PushLoadTail node) /\
   (forall fuel, LockFree.Push fuel q v = LockFree.Spin) /\
   forall t' rt',
     LockFree.heap q1 !! t' = Some rt' -> LockFree.next rt' = None ->
     LockFree.solo zero 3 (LockFree.Store_tail q1 (Some t'))
       (LockFree.PushLoadTail node) =
       (LockFree.mk_queue (LockFree.head q) node
          (<[t' := LockFree.mk_qNode (LockFree.val rt') node]>
             (LockFree.heap q1)),
        LockFree.PushDone)).
Proof.
  intros Ht Hrt. cbv zeta.
  assert ((LockFree.heap q ++ [LockFree.mk_qNode v None]) !! t = Some rt)
    as Hrt1 by by apply lookup_app_l_Some.
  split_and!.
  - reflexivity.
  - cbn. by rewrite Ht.
  - intros Hnx. split_and!.
    + cbn. rewrite Ht. unfold LockFree.CompareAndSwap_next. cbn [LockFree.heap].
      rewrite Hrt1. unfold LockFree.ptr_eqb.
      by rewrite bool_decide_eq_true_2.
    + cbn. rewrite Ht. unfold LockFree.CompareAndSwap_next. cbn [LockFree.heap].
      rewrite Hrt1. unfold LockFree.ptr_eqb.
      by rewrite bool_decide_eq_true_2.
    + intros fuel. unfold LockFree.Push, LockFree.alloc.
      cbn [LockFree.Push_loop LockFree.tail]. rewrite Ht.
      unfold LockFree.CompareAndSwap_next. cbn [LockFree.heap].
      rewrite Hrt1. unfold LockFree.ptr_eqb.
      by rewrite bool_decide_eq_true_2.
  - intros Hnx. split_and!.
    + cbn. rewrite Ht. unfold LockFree.CompareAndSwap_next. cbn [LockFree.heap].
      rewrite Hrt1. unfold LockFree.ptr_eqb.
      by rewrite bool_decide_eq_false_2.
    + intros fuel. unfold LockFree.Push, LockFree.alloc.
      by apply (Push_loop_spins fuel _ _ t rt).
    + intros t' rt' Ht' Hnx'. cbn [LockFree.heap] in Ht'.
      unfold LockFree.Store_tail. cbn.
      unfold LockFree.CompareAndSwap_next. cbn [LockFree.heap].
      rewrite Ht'. unfold LockFree.ptr_eqb.
      by rewrite bool_decide_eq_true_2.
Qed.

Lemma C5_push_steps_witness :
  let qa := LockFree.mk_queue (Some 0%nat) (Some 1%nat)
              [LockFree.mk_qNode 0 (Some 1%nat); LockFree.mk_qNode 7 None] in
  let qb := LockFree.mk_queue (Some 0%nat) (Some 0%nat)
              [LockFree.mk_qNode 0 (Some 1%nat); LockFree.mk_qNode 7 None] in
  (forall fuel,
     LockFree.Push (S fuel) qa 8 =
       LockFree.Ret tt
         (LockFree.mk_queue (Some 0%nat) (Some 2%nat)
            [LockFree.mk_qNode 0 (Some 1%nat);
             LockFree.mk_qNode 7 (Some 2%nat); LockFree.mk_qNode 8 None])) /\
  (forall fuel, LockFree.Push fuel qb 8 = LockFree.Spin) /\
  LockFree.solo 0 3
    (LockFree.mk_queue (Some 0%nat) (Some 1%nat)
       [LockFree.mk_qNode 0 (Some 1%nat); LockFree.mk_qNode 7 None;
        LockFree.mk_qNode 8 None])
    (LockFree.PushLoadTail (Some 2%nat)) =
    (LockFree.mk_queue (Some 0%nat) (Some 2%nat)
       [LockFree.mk_qNode 0 (Some 1%nat); LockFree.mk_qNode 7 (Some 2%nat);
        LockFree.mk_qNode 8 None],
     LockFree.PushDone).
Proof.
  cbv zeta.
  pose proof (C5_push_steps Z 0
                (LockFree.mk_queue (Some 0%nat) (Some 1%nat)
                   [LockFree.mk_qNode 0 (Some 1%nat); LockFree.mk_qNode 7 None])
                8 1%nat (LockFree.mk_qNode 7 None) eq_refl eq_refl) as Ha.
  pose proof (C5_push_steps Z 0
                (LockFree.mk_queue (Some 0%nat) (Some 0%nat)
                   [LockFree.mk_qNode 0 (Some 1%nat); LockFree.mk_qNode 7 None])
                8 0%nat (LockFree.mk_qNode 0 (Some 1%nat)) eq_refl eq_refl)
    as Hb.
  cbv zeta in Ha, Hb.
  destruct Ha as (_ & _ & Hok & _). destruct Hb as (_ & _ & _ & Hfail).
  destruct (Hok eq_refl) as (_ & _ & Hpush).
  destruct Hfail as (_ & Hspin & Hre); [discriminate|].
  split_and!; [exact Hpush|exact Hspin|].
  apply (Hre 1%nat (LockFree.mk_qNode 7 None)); reflexivity.
Defined.

(** C6 fails on the code: once a producer has linked its node and has not
    yet stored tail, every other producer only goes round its loop, for as
    long as the first one is stalled, and a call of [Push] in that state
    never returns. *)
Theorem C6_stalled_producer_blocks_the_others :
  let s0 := LockFree.mk_system (LockFree.NewQueue 0)
              [LockFree.PushAlloc 1; LockFree.PushAlloc 2] in
  let s1 := LockFree.run 0 [0%nat; 0%nat; 0%nat] s0 in
  LockFree.threads s1 !! 0%nat = Some (LockFree.PushStore (Some 1%nat)) /\
  (forall n, exists c,
     LockFree.threads (LockFree.run 0 (replicate n 1%nat) s1) !! 1%nat = Some c /\
     LockFree.in_push c) /\
  (forall fuel, LockFree.Push fuel (LockFree.queue s1) 2 = LockFree.Spin).
Proof.
  cbv zeta. split_and!; [reflexivity| |].
  - intros n.
    set (s1 := LockFree.run 0 [0%nat; 0%nat; 0%nat] _).
    assert (LockFree.tail_lags (LockFree.queue s1) 0) as Hlag.
    { split; [reflexivity|]. by exists (LockFree.mk_qNode 0 (Some 1%nat)), 1%nat. }
    destruct (stalled_store_blocks 0 (replicate n 1%nat) s1 0%nat Hlag) as [_ Hp].
    + intros i c [-> _]%elem_of_replicate Hc. vm_compute in Hc.
      by injection Hc as <-.
    + destruct n as [|n]; [by eexists|].
      apply (Hp 1%nat (LockFree.PushAlloc 2)); [reflexivity|done|].
      apply elem_of_replicate. split; [done|lia].
  - intros fuel. unfold LockFree.Push, LockFree.alloc.
    by apply (Push_loop_spins fuel _ _ 0%nat (LockFree.mk_qNode 0 (Some 1%nat))).
Qed.

(* ===================================================================== *)
(** * The two-stage queue: facts and what the specification states *)
(* ===================================================================== *)

Section two_stage_facts.
Context {V : Type}.
Import TwoStage.

Implicit Types (q : Queue (V:=V)) (w : value (V:=V)) (s : list (value (V:=V))).

Lemma index_in_range s i :
  0 <= i < Z.of_nat (length s) -> index s i = s !! Z.to_nat i.
Proof.
  intros Hi. unfold index.
  destruct (Z.leb_spec 0 i), (Z.ltb_spec i (Z.of_nat (length s))); cbn; done || lia.
Qed.

Lemma len_items q : stage_inv q -> len q = Z.of_nat (length (items q)).
Proof.
  unfold stage_inv, len, items. intros Hq.
  rewrite length_app, length_drop. lia.
Qed.

Lemma Empty_items q : stage_inv q -> (Empty q = true <-> items q = []).
Proof.
  intros Hq. unfold Empty. rewrite (len_items q Hq), Z.eqb_eq.
  destruct (items q); cbn; split; intros; done || lia.
Qed.

Lemma stage_inv_zero : stage_inv (V:=V) zero_Queue.
Proof. unfold stage_inv. cbn. lia. Qed.

Lemma PushBack_items w q :
  stage_inv q ->
  stage_inv (PushBack w q) /\ items (PushBack w q) = items q ++ [w].
Proof. intros Hq. split; [done|]. unfold items. cbn. by rewrite app_assoc. Qed.

(** [PeekFront] returns the oldest element, and nil when there is none. *)
Lemma PeekFront_items q :
  stage_inv q ->
  PeekFront q = Some (match items q with [] => None | w :: _ => w end).
Proof.
  unfold stage_inv, PeekFront, items. intros Hq.
  destruct (Z.ltb_spec (headPos q) (Z.of_nat (length (head q)))) as [Hlt|Hge].
  - rewrite index_in_range by lia.
    destruct (head q !! Z.to_nat (headPos q)) as [w|] eqn:Hw.
    + by rewrite (drop_S _ _ _ Hw).
    + apply lookup_ge_None in Hw. lia.
  - rewrite drop_ge by lia. cbn.
    destruct (tail q) as [|w tl]; [done|]. cbn.
    by rewrite index_in_range by (cbn; lia).
Qed.

(** [PopFront] removes the oldest element and returns it, and returns nil
    on an empty queue, which it leaves as it is. *)
Lemma PopFront_items q :
  stage_inv q ->
  match items q with
  | [] => PopFront q = Ret None q
  | w :: rest =>
      exists q', PopFront q = Ret w q' /\ items q' = rest /\ stage_inv q'
  end.
Proof.
  unfold stage_inv, PopFront, items. intros Hq.
  destruct (Z.geb_spec (headPos q) (Z.of_nat (length (head q)))) as [Hge|Hlt].
  - rewrite drop_ge by lia. cbn.
    destruct (tail q) as [|w tl] eqn:Htl; [done|]. cbn.
    unfold take_front. cbn [head headPos tail].
    rewrite index_in_range by (cbn; lia). cbn.
    eexists. split; [reflexivity|]. cbn. rewrite app_nil_r.
    split; [done|]. unfold stage_inv. cbn [head headPos].
    rewrite length_insert. cbn [length]. lia.
  - unfold take_front. rewrite index_in_range by lia.
    destruct (head q !! Z.to_nat (headPos q)) as [w|] eqn:Hw.
    + rewrite (drop_S _ _ _ Hw). cbn.
      eexists. split; [reflexivity|]. cbn. split.
      * replace (Z.to_nat (headPos q + 1)) with (S (Z.to_nat (headPos q)))
          by lia.
        by rewrite drop_insert_lt by lia.
      * unfold stage_inv. cbn. rewrite length_insert. lia.
    + apply lookup_ge_None in Hw. lia.
Qed.

Lemma drop_present_length s :
  (length (drop_present s) <= length s)%nat.
Proof. induction s as [|[v|] s IH]; cbn; lia. Qed.

(** With fuel for one round more than there are elements, the loop of
    [CleanFront] ends, having removed the non-nil elements at the front. *)
Lemma CleanFront_loop_items fuel : forall q b,
  stage_inv q -> (length (items q) < fuel)%nat ->
  exists q', CleanFront_loop fuel q b = Ret (b || front_present (items q)) q' /\
             items q' = drop_present (items q) /\ stage_inv q'.
Proof.
  induction fuel as [|fuel IH]; intros q b Hq Hlen; [lia|].
  cbn [CleanFront_loop]. rewrite (PeekFront_items q Hq).
  pose proof (PopFront_items q Hq) as Hpop.
  destruct (items q) as [|[v|] rest] eqn:Hit.
  - exists q. rewrite Hit. cbn. by rewrite orb_false_r.
  - destruct Hpop as (q1 & -> & Hrest & Hq1).
    destruct (IH q1 true Hq1) as (q' & Hloop & Hit' & Hq').
    { rewrite Hrest. cbn in Hlen. lia. }
    exists q'. rewrite Hloop. cbn. rewrite orb_true_r.
    split_and!; [done| |done]. by rewrite Hit', Hrest.
  - exists q. rewrite Hit. cbn. by rewrite orb_false_r.
Qed.

Lemma drop_present_all s : Forall is_Some s -> drop_present s = [].
Proof.
  induction 1 as [|w s [v ->] _ IH]; [done|]. done.
Qed.

Lemma drop_present_stops (pre rest : list (value (V:=V))) :
  Forall is_Some pre -> drop_present (pre ++ None :: rest) = None :: rest.
Proof.
  induction 1 as [|w s [v ->] _ IH]; [done|]. done.
Qed.

Lemma front_present_shorter s :
  front_present s = true <-> (length (drop_present s) < length s)%nat.
Proof.
  destruct s as [|[v|] s]; cbn; split; try done; try lia.
  intros _. pose proof (drop_present_length s). lia.
Qed.

End two_stage_facts.

(** C10: on an empty queue [PopFront] and [PeekFront] return nil;
    [CleanFront] pops while [PeekFront] yields a non-nil element and ends,
    returning true exactly when it removed an element; what remains is the
    queue from its first nil element on, so the queue is empty afterwards
    when it held no nil, and a nil element stops the cleaning there and is
    seen by [PeekFront] as an empty queue. *)
Theorem C10_two_stage_front (V : Type) (q : @TwoStage.Queue V) (fuel : nat) :
  TwoStage.stage_inv q ->
  (length (TwoStage.items q) < fuel)%nat ->
  (TwoStage.Empty q = true ->
     TwoStage.PopFront q = TwoStage.Ret None q /\
     TwoStage.PeekFront q = Some None) /\
  exists b q',
    TwoStage.CleanFront fuel q = TwoStage.Ret b q' /\
    TwoStage.stage_inv q' /\
    TwoStage.items q' = TwoStage.drop_present (TwoStage.items q) /\
    TwoStage.PeekFront q' = Some None /\
    (b = true <->
       (length (TwoStage.items q') < length (TwoStage.items q))%nat) /\
    (Forall is_Some (TwoStage.items q) -> TwoStage.Empty q' = true) /\
    (forall pre rest,
       TwoStage.items q = pre ++ None :: rest -> Forall is_Some pre ->
       TwoStage.items q' = None :: rest /\ TwoStage.Empty q' = false).
Proof.
  intros Hq Hfuel. split.
  - intros He%Empty_items; [|done].
    pose proof (PopFront_items q Hq) as Hpop.
    pose proof (PeekFront_items q Hq) as Hpeek.
    rewrite He in Hpop, Hpeek. done.
  - destruct (CleanFront_loop_items fuel q false Hq Hfuel)
      as (q' & Hloop & Hit & Hq').
    exists (TwoStage.front_present (TwoStage.items q)), q'.
    split_and!; try done.
    + rewrite (PeekFront_items q' Hq'), Hit.
      generalize (TwoStage.items q). intros s.
      induction s as [|[v|] s IH]; done.
    + rewrite Hit. apply front_present_shorter.
    + intros Hall. apply Empty_items; [done|].
      rewrite Hit. by apply drop_present_all.
    + intros pre rest Heq Hpre. rewrite Hit, Heq.
      rewrite drop_present_stops by done. split; [done|].
      destruct (TwoStage.Empty q') eqn:He; [|done].
      apply Empty_items in He; [|done].
      rewrite Hit, Heq, drop_present_stops in He by done. done.
Qed.

Lemma C10_two_stage_front_witness :
  let q := TwoStage.mk_queue [None; Some 1%nat; Some 2%nat] 1
             [None; Some 3%nat] in
  exists b q',
    TwoStage.CleanFront 5 q = TwoStage.Ret b q' /\
    TwoStage.items q' = [None; Some 3%nat] /\ b = true.
Proof.
  cbv zeta.
  destruct (C10_two_stage_front nat
              (TwoStage.mk_queue [None; Some 1%nat; Some 2%nat] 1
                 [None; Some 3%nat]) 5)
    as [_ (b & q' & Hrun & _ & Hit & _ & Hb & _)].
  - unfold TwoStage.stage_inv. simpl. lia.
  - simpl. lia.
  - exists b, q'. split_and!; [done|done|].
    apply Hb. rewrite Hit. vm_compute. lia.
Defined.

(* ===================================================================== *)
(** * The ring-buffer queue: facts and what the specification states *)
(* ===================================================================== *)

Section ring_facts.
Context {T : Type} `{Ring.Comparable T}.
Variable zero : T.
Import Ring.

Implicit Types (q : Queue (T:=T)) (s b : list T).

Lemma wrap_small z : - 2 ^ 63 <= z < 2 ^ 63 -> wrap z = z.
Proof. intros Hz. unfold wrap. rewrite Z.mod_small; lia. Qed.

Lemma wrap_high z : 2 ^ 63 <= z < 2 ^ 64 -> wrap z = z - 2 ^ 64.
Proof.
  intros Hz. unfold wrap.
  replace (z + 2 ^ 63) with (z - 2 ^ 63 + 1 * 2 ^ 64) by lia.
  rewrite Z.mod_add by lia. rewrite Z.mod_small; lia.
Qed.

Lemma shl_1 c : - 2 ^ 62 <= c < 2 ^ 62 -> shl c 1 = 2 * c.
Proof.
  intros Hc. unfold shl. rewrite Z.shiftl_mul_pow2 by lia.
  rewrite wrap_small; lia.
Qed.

Lemma shl_2 c : - 2 ^ 61 <= c < 2 ^ 61 -> shl c 2 = 4 * c.
Proof.
  intros Hc. unfold shl. rewrite Z.shiftl_mul_pow2 by lia.
  rewrite wrap_small; lia.
Qed.

(** The bitwise modulus of the source. *)
Lemma land_mask k x : 0 <= k -> Z.land x (2 ^ k - 1) = x mod 2 ^ k.
Proof.
  intros Hk. rewrite <- Z.land_ones by done. f_equal.
  rewrite Z.ones_equiv. lia.
Qed.

Lemma make_ok n : 0 <= n -> make zero n = Some (replicate (Z.to_nat n) zero).
Proof. intros Hn. unfold make. destruct (Z.ltb_spec n 0); [lia|done]. Qed.

Lemma slice_ok s lo hi :
  0 <= lo <= hi -> hi <= len s ->
  slice s lo hi = Some (take (Z.to_nat (hi - lo)) (drop (Z.to_nat lo) s)).
Proof.
  intros Hlo Hhi. unfold slice.
  destruct (Z.leb_spec 0 lo), (Z.leb_spec lo hi), (Z.leb_spec hi (len s));
    cbn; done || lia.
Qed.

Lemma index_ok s i : 0 <= i < len s -> index s i = s !! Z.to_nat i.
Proof.
  intros Hi. unfold index.
  destruct (Z.leb_spec 0 i), (Z.ltb_spec i (len s)); cbn; done || lia.
Qed.

Lemma store_ok s i x :
  0 <= i < len s -> store s i x = Some (<[Z.to_nat i := x]> s).
Proof.
  intros Hi. unfold store.
  destruct (Z.leb_spec 0 i), (Z.ltb_spec i (len s)); cbn; done || lia.
Qed.

Lemma len_replicate n : 0 <= n -> len (replicate (Z.to_nat n) zero) = n.
Proof. intros Hn. unfold len. rewrite length_replicate. lia. Qed.

(** [resize] moves the elements, in order, to the front of a buffer of
    twice their number. *)
Lemma resize_spec q :
  0 < count q <= len (buf q) -> count q < 2 ^ 62 ->
  0 <= head q < len (buf q) ->
  tail q = (head q + count q) mod len (buf q) ->
  exists b,
    resize zero q = Ret tt (mk_queue b 0 (count q) (count q) (lock q)) /\
    len b = 2 * count q /\
    take (Z.to_nat (count q)) b = elems q.
Proof.
  intros Hc Hc62 Hh Ht. unfold resize, bind, get, modify, elems.
  rewrite shl_1 by lia. rewrite make_ok by lia. cbn [try ret].
  set (n := len (buf q)) in *.
  assert (length (buf q) = Z.to_nat n) as Hlen by (unfold n, len; lia).
  destruct (Z.gtb_spec (tail q) (head q)) as [Hgt|Hle].
  - assert (head q + count q < n) as Hlt.
    { destruct (Z.lt_ge_cases (head q + count q) n) as [|Hge]; [done|].
      rewrite <- (Z.mod_unique_pos (head q + count q) n 1 (head q + count q - n))
        in Ht by lia. lia. }
    rewrite Z.mod_small in Ht by lia.
    rewrite slice_ok by (unfold len; lia). cbn [try ret fst copy].
    rewrite length_replicate, length_take, length_drop.
    replace (tail q - head q) with (count q) by lia.
    rewrite (Nat.min_l (Z.to_nat (count q))) by lia.
    rewrite (Nat.min_r (Z.to_nat (2 * count q))) by lia.
    rewrite take_take, Nat.min_id.
    eexists. split; [reflexivity|]. split.
    + unfold len. rewrite length_app, length_take, length_drop, length_drop,
        length_replicate. lia.
    + rewrite take_app_le by (rewrite length_take, length_drop; lia).
      rewrite take_take, Nat.min_id.
      by rewrite take_app_le by (rewrite length_drop; lia).
  - assert (n <= head q + count q) as Hge.
    { destruct (Z.lt_ge_cases (head q + count q) n) as [Hlt|]; [|done].
      rewrite Z.mod_small in Ht by lia. lia. }
    rewrite <- (Z.mod_unique_pos (head q + count q) n 1 (head q + count q - n))
      in Ht by lia.
    rewrite slice_ok by (unfold len; lia). cbn [try ret fst copy bind].
    rewrite length_replicate, length_take, length_drop.
    fold n.
    assert (Z.to_nat (n - head q) <= length (buf q) - Z.to_nat (head q))%nat as Hx.
    { clear -Hlen Hh. lia. }
    rewrite (Nat.min_l _ _ Hx).
    rewrite (Nat.min_r (Z.to_nat (2 * count q))) by lia.
    rewrite take_take, Nat.min_id.
    rewrite (take_ge (drop _ (buf q))) by (rewrite length_drop; lia).
    rewrite drop_replicate.
    set (src := drop (Z.to_nat (head q)) (buf q)).
    assert (length src = Z.to_nat (n - head q)) as Hsrc.
    { unfold src. rewrite length_drop. lia. }
    set (rest := replicate _ zero).
    assert (length rest = Z.to_nat (2 * count q - (n - head q))) as Hrest.
    { unfold rest. rewrite length_replicate. lia. }
    rewrite slice_ok by (unfold len; rewrite length_app; lia).
    cbn [try ret bind].
    rewrite slice_ok by (unfold len; lia). cbn [try ret bind fst copy].
    rewrite Nat2Z.id.
    replace (len (src ++ rest) - Z.of_nat (Z.to_nat (n - head q)))
      with (Z.of_nat (length rest))
      by (unfold len; rewrite length_app; lia).
    rewrite Nat2Z.id.
    rewrite take_app_length' by lia.
    rewrite drop_app_length' by lia.
    rewrite (take_ge rest) by lia.
    rewrite Z.sub_0_r, drop_0.
    rewrite length_take.
    rewrite (Nat.min_l (Z.to_nat (tail q))) by lia.
    rewrite (Nat.min_r (length rest)) by lia.
    rewrite take_take, Nat.min_id.
    eexists. split; [reflexivity|]. split.
    + unfold len. rewrite !length_app, length_take, length_drop.
      rewrite Nat.min_l by lia. lia.
    + rewrite app_assoc.
      rewrite take_app_le by (rewrite length_app, length_take; lia).
      rewrite take_ge by (rewrite length_app, length_take; lia).
      fold src. rewrite take_app_ge by lia.
      f_equal. rewrite take_take. f_equal. lia.
Qed.


(** Writing behind the last element of the ring appends to what it holds. *)
Lemma ring_store b (h c : nat) e :
  (h < length b)%nat -> (c < length b)%nat ->
  take (S c) (drop h (<[((h + c) mod length b)%nat := e]> b) ++
              take h (<[((h + c) mod length b)%nat := e]> b)) =
  take c (drop h b ++ take h b) ++ [e].
Proof.
  intros Hh Hc.
  assert (drop h (<[((h + c) mod length b)%nat := e]> b) ++
          take h (<[((h + c) mod length b)%nat := e]> b) =
          <[c := e]> (drop h b ++ take h b)) as ->.
  { destruct (decide (h + c < length b)%nat) as [Hlt|Hge].
    - rewrite Nat.mod_small by done.
      rewrite drop_insert_ge, take_insert_ge by lia.
      replace (h + c - h)%nat with c by lia.
      by rewrite insert_app_l by (rewrite length_drop; lia).
    - assert ((h + c) mod length b = h + c - length b)%nat as ->.
      { symmetry. apply (Nat.mod_unique _ _ 1); lia. }
      rewrite drop_insert_lt, take_insert_lt by lia.
      replace c with (length (drop h b) + (h + c - length b))%nat at 2
        by (rewrite length_drop; lia).
      by rewrite insert_app_r. }
  assert (c < length (drop h b ++ take h b))%nat as Hlen.
  { rewrite length_app, length_drop, length_take. lia. }
  rewrite (take_S_r _ _ e) by by apply list_lookup_insert_eq.
  by rewrite take_insert_ge by lia.
Qed.

(** Moving [head] one slot on drops the oldest element. *)
Lemma ring_advance b (h c : nat) r :
  b !! h = Some r -> (c < length b)%nat ->
  take (S c) (drop h b ++ take h b) =
  r :: take c (drop (S h mod length b)%nat b ++ take (S h mod length b)%nat b).
Proof.
  intros Hr Hc. pose proof (lookup_lt_Some _ _ _ Hr) as Hh.
  rewrite (drop_S _ _ _ Hr). cbn. f_equal.
  destruct (decide (S h < length b)%nat) as [Hlt|Hge].
  - rewrite Nat.mod_small by done.
    rewrite (take_S_r _ _ _ Hr), app_assoc.
    by rewrite (take_app_le (_ ++ _))
      by (rewrite length_app, length_drop, length_take; lia).
  - assert (S h = length b) as Heq by lia.
    rewrite Heq, Nat.Div0.mod_same, drop_all. cbn.
    rewrite app_nil_r, take_take. f_equal. lia.
Qed.


Lemma to_nat_mod a n :
  0 <= a -> 0 < n -> Z.to_nat (a mod n) = (Z.to_nat a mod Z.to_nat n)%nat.
Proof.
  intros Ha Hn. apply Nat2Z.inj.
  rewrite Nat2Z.inj_mod, !Z2Nat.id; try lia.
  apply Z.mod_pos_bound. lia.
Qed.

Lemma ring_inv_len q : ring_inv q -> 16 <= len (buf q) <= 2 ^ 62.
Proof.
  intros [(k & Hk & ->) _]. split.
  - change 16 with (2 ^ 4). apply Z.pow_le_mono_r; lia.
  - apply Z.pow_le_mono_r; lia.
Qed.

Lemma pushed_spec q e :
  ring_inv q -> count q < len (buf q) ->
  ring_inv (pushed q e) /\ elems (pushed q e) = elems q ++ [e].
Proof.
  intros Hq Hroom. pose proof (ring_inv_len q Hq) as Hlen.
  destruct Hq as (Hpow & Hc & Hh & Ht & Htl).
  unfold pushed, ring_inv, elems. cbn [buf head tail count].
  assert (len (<[Z.to_nat (tail q) := e]> (buf q)) = len (buf q)) as Hl.
  { unfold len. by rewrite length_insert. }
  rewrite Hl. split_and!; try done; try lia;
    try (apply Z.mod_pos_bound; lia).
  - rewrite Htl. rewrite Zplus_mod_idemp_l. f_equal. lia.
  - rewrite Htl, to_nat_mod by lia.
    replace (Z.to_nat (count q + 1)) with (S (Z.to_nat (count q))) by lia.
    rewrite (Z2Nat.inj_add (head q) (count q)) by lia.
    replace (Z.to_nat (len (buf q))) with (length (buf q))
      by (unfold len; lia).
    apply ring_store; unfold len in *; lia.
Qed.

Lemma Push_room q e :
  ring_inv q -> unlocked q -> count q < len (buf q) ->
  Push zero e q = Ret tt (pushed q e).
Proof.
  intros Hq Hun Hroom. pose proof (ring_inv_len q Hq) as Hlen.
  destruct Hq as ((k & Hk & Hpow) & Hc & Hh & Ht & Htl).
  unfold Push, bind, Lock, get, modify. rewrite Hun.
  cbn [count buf set_lock head tail].
  destruct (Z.eqb_spec (count q) (len (buf q))) as [|_]; [lia|].
  cbn [ret count buf set_lock head tail].
  rewrite store_ok by lia. cbn [try ret set_buf set_tail set_count Unlock
    lock buf head tail count set_lock].
  rewrite !wrap_small by (unfold len in *; rewrite ?length_insert; lia).
  unfold len at 1. rewrite length_insert. fold (len (buf q)).
  rewrite Hpow, land_mask by lia.
  unfold pushed, set_lock, set_count, set_tail, set_buf.
  cbn [buf head tail count lock]. by rewrite Hpow, Hun.
Qed.

Lemma Push_full q e :
  ring_inv q -> unlocked q -> count q = len (buf q) ->
  len (buf q) < 2 ^ 62 ->
  exists b,
    len b = 2 * count q /\ take (Z.to_nat (count q)) b = elems q /\
    Push zero e q =
      Ret tt (pushed (mk_queue b 0 (count q) (count q) (lock q)) e).
Proof.
  intros Hq Hun Hfull H62. pose proof (ring_inv_len q Hq) as Hlen.
  destruct Hq as ((k & Hk & Hpow) & Hc & Hh & Ht & Htl).
  destruct (resize_spec (set_lock (mk_lock O true) q)) as (b & Hres & Hb & Hel);
    cbn [set_lock count buf head tail]; try lia; try done.
  unfold elems in Hel. cbn [set_lock count buf head tail lock] in Hres, Hb, Hel.
  exists b. split_and!; [done|done|].
  unfold Push, bind, Lock, get. rewrite Hun.
  cbn [count buf set_lock head tail].
  destruct (Z.eqb_spec (count q) (len (buf q))) as [_|]; [|lia].
  rewrite Hres. cbn [count buf set_lock head tail lock].
  rewrite store_ok by lia. unfold modify.
  cbn [try ret set_buf set_tail set_count Unlock
    lock buf head tail count set_lock].
  rewrite !wrap_small by (unfold len in *; rewrite ?length_insert; lia).
  unfold len at 1. rewrite length_insert. fold (len b).
  assert (len b = 2 ^ (k + 1)) as Hb'.
  { rewrite Hb, Hfull, Hpow, Z.pow_add_r by lia. lia. }
  rewrite Hb', land_mask by lia.
  unfold pushed, set_lock, set_count, set_tail, set_buf.
  cbn [buf head tail count lock]. by rewrite Hb'.
Qed.

(** A full buffer of 2^62 slots cannot be doubled: [make] panics, with the
    write lock held. *)
Lemma Push_overflow q e :
  unlocked q -> count q = len (buf q) -> len (buf q) = 2 ^ 62 ->
  Push zero e q = Panic (set_lock (mk_lock O true) q).
Proof.
  intros Hun Hfull H62.
  unfold Push, bind, Lock, get. rewrite Hun.
  cbn [count buf set_lock head tail].
  destruct (Z.eqb_spec (count q) (len (buf q))) as [_|]; [|lia].
  unfold resize, bind, get. cbn [count buf set_lock head tail].
  unfold shl. rewrite Z.shiftl_mul_pow2 by lia.
  rewrite Hfull, H62. by vm_compute.
Qed.


Lemma head_lookup q :
  ring_inv q -> exists r, buf q !! Z.to_nat (head q) = Some r.
Proof.
  intros (_ & _ & Hh & _). apply lookup_lt_is_Some. unfold len in Hh. lia.
Qed.

Lemma popped_spec q r :
  ring_inv q -> 0 < count q -> buf q !! Z.to_nat (head q) = Some r ->
  ring_inv (popped q) /\ elems q = r :: elems (popped q).
Proof.
  intros Hq Hpos Hr. pose proof (ring_inv_len q Hq) as Hlen.
  destruct Hq as (Hpow & Hc & Hh & Ht & Htl).
  unfold popped, ring_inv, elems. cbn [buf head tail count].
  split_and!; try done; try lia; try (apply Z.mod_pos_bound; lia).
  - rewrite Zplus_mod_idemp_l, Htl. f_equal. lia.
  - rewrite to_nat_mod by lia.
    replace (Z.to_nat (len (buf q))) with (length (buf q))
      by (unfold len; lia).
    replace (Z.to_nat (head q + 1)) with (S (Z.to_nat (head q))) by lia.
    replace (Z.to_nat (count q)) with (S (Z.to_nat (count q - 1))) by lia.
    apply ring_advance; [done|]. unfold len in *. lia.
Qed.

Lemma Pop_empty q :
  unlocked q -> count q <= 0 -> Pop zero q = Ret (zero, false) q.
Proof.
  intros Hun Hc. unfold Pop, bind, Lock, get. rewrite Hun.
  cbn [count buf set_lock head tail].
  destruct (Z.leb_spec (count q) 0) as [_|]; [|lia].
  cbn. destruct q as [b h t c l]. cbn in *. by rewrite Hun.
Qed.

Lemma shl_2_eq c n :
  0 <= c < 2 ^ 62 -> 0 < n < 2 ^ 63 -> (shl c 2 =? n) = (4 * c =? n).
Proof.
  intros Hc Hn. destruct (Z.lt_ge_cases c (2 ^ 61)) as [Hlt|Hge].
  - by rewrite shl_2 by lia.
  - unfold shl. rewrite Z.shiftl_mul_pow2 by lia.
    rewrite wrap_high by lia.
    destruct (Z.eqb_spec (c * 2 ^ 2 - 2 ^ 64) n), (Z.eqb_spec (4 * c) n);
      try done; lia.
Qed.

Lemma Pop_keep q :
  ring_inv q -> unlocked q -> 0 < count q ->
  ~ (len (buf q) > minQueueLen /\ 4 * (count q - 1) = len (buf q)) ->
  exists r, buf q !! Z.to_nat (head q) = Some r /\
            Pop zero q = Ret (r, true) (popped q).
Proof.
  intros Hq Hun Hpos Hno. pose proof (ring_inv_len q Hq) as Hlen.
  destruct (head_lookup q Hq) as [r Hr]. exists r. split; [done|].
  destruct Hq as ((k & Hk & Hpow) & Hc & Hh & Ht & Htl).
  unfold Pop, bind, Lock, get, modify. rewrite Hun.
  cbn [count buf set_lock head tail].
  destruct (Z.leb_spec (count q) 0) as [|_]; [lia|].
  rewrite index_ok, Hr by lia.
  cbn [try ret set_head set_count count buf set_lock head tail lock].
  rewrite !wrap_small by lia.
  rewrite shl_2_eq by lia.
  assert ((len (buf q) >? minQueueLen) && (4 * (count q - 1) =? len (buf q))
          = false) as ->.
  { destruct (Z.gtb_spec (len (buf q)) minQueueLen),
      (Z.eqb_spec (4 * (count q - 1)) (len (buf q))); try done.
    destruct Hno. split; [lia|done]. }
  cbn [ret Unlock lock set_lock buf head tail count].
  rewrite Hpow, land_mask by lia. unfold popped. by rewrite Hpow, Hun.
Qed.

Lemma Pop_shrink q :
  ring_inv q -> unlocked q -> 0 < count q ->
  len (buf q) > minQueueLen -> 4 * (count q - 1) = len (buf q) ->
  exists r b,
    buf q !! Z.to_nat (head q) = Some r /\
    len b = 2 * (count q - 1) /\
    take (Z.to_nat (count q - 1)) b = elems (popped q) /\
    Pop zero q =
      Ret (r, true) (mk_queue b 0 (count q - 1) (count q - 1) (lock q)).
Proof.
  intros Hq Hun Hpos Hbig Hquarter. pose proof (ring_inv_len q Hq) as Hlen.
  destruct (head_lookup q Hq) as [r Hr].
  destruct (popped_spec q r Hq Hpos Hr) as [Hq1 _].
  unfold minQueueLen in Hbig.
  destruct (resize_spec (set_lock (mk_lock O true) (popped q)))
    as (b & Hres & Hb & Hel).
  { cbn. lia. }
  { cbn. lia. }
  { by destruct Hq1 as (_ & _ & ? & _). }
  { by destruct Hq1 as (_ & _ & _ & _ & ?). }
  unfold elems in Hel. cbn [set_lock popped count buf head tail lock] in Hres, Hb, Hel.
  exists r, b. split_and!; try done.
  destruct Hq as ((k & Hk & Hpow) & Hc & Hh & Ht & Htl).
  unfold Pop, bind, Lock, get, modify. rewrite Hun.
  cbn [count buf set_lock head tail].
  destruct (Z.leb_spec (count q) 0) as [|_]; [lia|].
  rewrite index_ok, Hr by lia.
  cbn [try ret set_head set_count count buf set_lock head tail lock].
  rewrite !wrap_small by lia.
  rewrite shl_2_eq by lia.
  assert ((len (buf q) >? minQueueLen) && (4 * (count q - 1) =? len (buf q))
          = true) as ->.
  { unfold minQueueLen.
    destruct (Z.gtb_spec (len (buf q)) 16),
      (Z.eqb_spec (4 * (count q - 1)) (len (buf q))); try done; lia. }
  rewrite Hpow, land_mask by lia. rewrite <- Hpow.
  unfold popped, set_lock in Hres. cbn [buf head tail count lock] in Hres.
  unfold set_count, set_head, set_lock. cbn [buf head tail count lock].
  rewrite Hres. by cbn.
Qed.


(** ** Every call keeps the shape *)

Lemma keeps_ret {A} (a : A) : keeps (@ret T A a).
Proof. by intros q0 q Hq. Qed.

Lemma keeps_panic {A} : keeps (@panic T A).
Proof. by intros q0 q Hq. Qed.

Lemma keeps_get : keeps (@get T).
Proof. by intros q0 q Hq. Qed.

Lemma keeps_try {A} (o : option A) : keeps (@try T A o).
Proof. destruct o; [apply keeps_ret|apply keeps_panic]. Qed.

Lemma keeps_bind {A B} (m : M (T:=T) A) (k : A -> M (T:=T) B) :
  keeps m -> (forall a, keeps (k a)) -> keeps (bind m k).
Proof.
  intros Hm Hk q0 q Hq. unfold bind. specialize (Hm q0 q Hq).
  destruct (m q) as [a q'|q'|q']; cbn in *; [by apply Hk|done..].
Qed.

Lemma keeps_RLock : keeps (@RLock T).
Proof. intros q0 q Hq. unfold RLock. by destruct (lock q) as [r []]. Qed.

Lemma keeps_RUnlock : keeps (@RUnlock T).
Proof. intros q0 q Hq. unfold RUnlock. by destruct (lock q) as [[|r] w]. Qed.

Lemma keeps_scan (v : T) n : forall i idx, keeps (scan v n i idx).
Proof.
  induction n as [|n IH]; intros i idx; cbn [scan]; [apply keeps_ret|].
  apply keeps_bind; [apply keeps_get|]. intros q.
  apply keeps_bind; [apply keeps_try|]. intros x.
  apply keeps_bind; [apply keeps_try|]. intros [|]; [apply keeps_ret|apply IH].
Qed.

Ltac keeps_tac :=
  repeat first
    [ apply keeps_ret | apply keeps_panic | apply keeps_get
    | apply keeps_try | apply keeps_RLock | apply keeps_RUnlock
    | apply keeps_scan
    | apply keeps_bind; [|intros ?]
    | match goal with
      | |- keeps (if ?b then _ else _) => destruct b
      | |- keeps (match ?r with inl _ => _ | inr _ => _ end) => destruct r
      | |- keeps (let 'pair _ _ := ?p in _) => destruct p
      end ].

Lemma keeps_Size : keeps (@Size T).
Proof. unfold Size. keeps_tac. Qed.

Lemma keeps_Empty : keeps (@Empty T).
Proof. unfold Empty. apply keeps_bind; [apply keeps_Size|]. intros. keeps_tac. Qed.

Lemma keeps_Peek : keeps (@Peek T).
Proof. unfold Peek. keeps_tac. Qed.

Lemma keeps_Get i : keeps (@Get T i).
Proof. unfold Get. keeps_tac. Qed.

Lemma keeps_Index (v : T) : keeps (Index v).
Proof. unfold Index. keeps_tac. Qed.

Lemma ring_inv_same_data q0 q : same_data q0 q -> ring_inv q0 -> ring_inv q.
Proof.
  intros (Hb & Hh & Ht & Hc). unfold ring_inv. by rewrite Hb, Hh, Ht, Hc.
Qed.

Lemma same_data_refl q : same_data q q.
Proof. done. Qed.

Lemma unlocked_or_not q : unlocked q \/ ~ unlocked q.
Proof.
  unfold unlocked. destruct (lock q) as [[|r] []]; (by left) || by right.
Qed.

Lemma Lock_blocked q :
  ~ unlocked q -> exists q', Lock q = Block q' /\ same_data q q'.
Proof.
  unfold unlocked, Lock. intros Hq.
  destruct (lock q) as [[|r] []]; try done; by eexists.
Qed.

Lemma doubled_inv q b :
  ring_inv q -> count q = len (buf q) -> len (buf q) < 2 ^ 62 ->
  len b = 2 * count q ->
  ring_inv (mk_queue b 0 (count q) (count q) (lock q)).
Proof.
  intros Hq Hfull H62 Hb. pose proof (ring_inv_len q Hq) as Hlen.
  destruct Hq as ((k & Hk & Hpow) & Hc & Hh & Ht & Htl).
  unfold ring_inv. cbn [buf head tail count].
  split_and!; try lia.
  - exists (k + 1). split; [|rewrite Hb, Hfull, Hpow, Z.pow_add_r; lia].
    assert (k <> 62); [|lia]. intros ->. lia.
  - rewrite Z.mod_small; lia.
Qed.

Lemma Push_inv q e : ring_inv q -> ring_inv (state_of (Push zero e q)).
Proof.
  intros Hq. pose proof (ring_inv_len q Hq) as Hlen.
  destruct (unlocked_or_not q) as [Hun|Hlocked].
  - destruct (Z.lt_ge_cases (count q) (len (buf q))) as [Hroom|Hfull].
    + rewrite Push_room by done. by apply pushed_spec.
    + assert (count q = len (buf q)) as Hfull'.
      { destruct Hq as (_ & ? & _). lia. }
      destruct (Z.lt_ge_cases (len (buf q)) (2 ^ 62)) as [H62|H62].
      * destruct (Push_full q e Hq Hun Hfull' H62) as (b & Hb & _ & ->).
        apply pushed_spec; [by apply doubled_inv|]. cbn. lia.
      * rewrite Push_overflow by (done || lia).
        by eapply ring_inv_same_data.
  - unfold Push, bind.
    destruct (Lock_blocked q Hlocked) as (q' & -> & Hsame).
    by eapply ring_inv_same_data.
Qed.

Lemma halved_inv q b :
  ring_inv q -> 0 < count q -> len (buf q) > minQueueLen ->
  4 * (count q - 1) = len (buf q) -> len b = 2 * (count q - 1) ->
  ring_inv (mk_queue b 0 (count q - 1) (count q - 1) (lock q)).
Proof.
  intros Hq Hpos Hbig Hquarter Hb. unfold minQueueLen in Hbig.
  destruct Hq as ((k & Hk & Hpow) & Hc & Hh & Ht & Htl).
  unfold ring_inv. cbn [buf head tail count].
  assert (k <> 4) as Hk4.
  { intros ->. change (2 ^ 4) with 16 in Hpow. lia. }
  assert (2 ^ k = 2 * 2 ^ (k - 1)) as Hpow2.
  { rewrite <- Z.pow_succ_r by lia. f_equal. lia. }
  split_and!; try lia.
  - exists (k - 1). split; lia.
  - rewrite Z.mod_small; lia.
Qed.

Lemma Pop_inv q : ring_inv q -> ring_inv (state_of (Pop zero q)).
Proof.
  intros Hq.
  destruct (unlocked_or_not q) as [Hun|Hlocked].
  - destruct (Z.le_gt_cases (count q) 0) as [Hz|Hpos].
    + by rewrite Pop_empty.
    + destruct (decide (len (buf q) > minQueueLen /\
                        4 * (count q - 1) = len (buf q))) as [[Hbig Hqu]|Hno].
      * destruct (Pop_shrink q Hq Hun Hpos Hbig Hqu)
          as (r & b & _ & Hb & _ & ->).
        by apply halved_inv.
      * destruct (Pop_keep q Hq Hun Hpos Hno) as (r & Hr & ->).
        by eapply popped_spec.
  - unfold Pop, bind.
    destruct (Lock_blocked q Hlocked) as (q' & -> & Hsame).
    by eapply ring_inv_same_data.
Qed.

Lemma exec_inv c q : ring_inv q -> ring_inv (exec zero c q).
Proof.
  intros Hq. destruct c; cbn [exec].
  - eapply ring_inv_same_data; [|done]. apply keeps_Size, same_data_refl.
  - eapply ring_inv_same_data; [|done]. apply keeps_Empty, same_data_refl.
  - by apply Push_inv.
  - eapply ring_inv_same_data; [|done]. apply keeps_Peek, same_data_refl.
  - eapply ring_inv_same_data; [|done]. apply keeps_Get, same_data_refl.
  - by apply Pop_inv.
  - eapply ring_inv_same_data; [|done]. apply keeps_Index, same_data_refl.
Qed.

Lemma NewQueue_inv : ring_inv (NewQueue zero).
Proof.
  unfold ring_inv, NewQueue, len. cbn [buf head tail count].
  rewrite length_replicate. unfold minQueueLen.
  split_and!; try done. exists 4. done.
Qed.

Lemma after_inv cs : ring_inv (after zero cs).
Proof.
  unfold after. induction cs as [|c cs IH] using rev_ind.
  - apply NewQueue_inv.
  - rewrite foldl_app. cbn. by apply exec_inv.
Qed.


(** ** The lock *)

Lemma relock q l : unlocked q -> set_lock (mk_lock O false) (set_lock l q) = q.
Proof. unfold unlocked, set_lock. destruct q as [b h t c k]. cbn. by intros ->. Qed.

Lemma Size_unlocked q : unlocked q -> Size q = Ret (count q) q.
Proof.
  intros Hun. unfold Size, bind, RLock, get, RUnlock. rewrite Hun. cbn.
  by rewrite relock.
Qed.

Lemma Peek_unlocked q :
  ring_inv q -> unlocked q ->
  if count q <=? 0 then Peek q = Panic q
  else exists r, Peek q = Ret r q.
Proof.
  intros Hq Hun. unfold Peek, bind, RLock, get. rewrite Hun.
  cbn [count buf head tail set_lock].
  destruct (Z.leb_spec (count q) 0) as [Hz|Hpos].
  - cbn. by rewrite relock.
  - destruct (head_lookup q Hq) as [r Hr]. exists r.
    destruct Hq as (_ & _ & Hh & _).
    rewrite index_ok, Hr by done. cbn. by rewrite relock.
Qed.

Lemma Get_unlocked q i :
  ring_inv q -> unlocked q ->
  let j := if i <? 0 then wrap (i + count q) else i in
  if (j <? 0) || (j >=? count q) then Get i q = Panic q
  else exists r, Get i q = Ret r q.
Proof.
  intros Hq Hun. pose proof (ring_inv_len q Hq) as Hlen.
  destruct Hq as ((k & Hk & Hpow) & Hc & Hh & Ht & Htl).
  cbv zeta. set (j := if i <? 0 then wrap (i + count q) else i).
  assert (Get i q =
            if (j <? 0) || (j >=? count q) then Panic q
            else match index (buf q)
                         (Z.land (wrap (head q + j)) (wrap (len (buf q) - 1)))
                 with
                 | Some r => Ret r q
                 | None => Panic (set_lock (mk_lock 1 false) q)
                 end) as ->.
  { unfold Get, bind, RLock, get. rewrite Hun.
    cbn [count buf head tail set_lock]. cbv zeta. fold j.
    destruct (_ || _); [cbn; by rewrite relock|].
    destruct (index _ _); cbn; by rewrite ?relock. }
  destruct ((j <? 0) || (j >=? count q)) eqn:Hj; [done|].
  apply orb_false_iff in Hj as [Hj0 Hjc].
  apply Z.ltb_ge in Hj0. rewrite Z.geb_leb in Hjc. apply Z.leb_gt in Hjc.
  rewrite !wrap_small by lia. rewrite Hpow, land_mask by lia.
  assert (0 <= (head q + j) mod 2 ^ k < 2 ^ k) as Hm
    by (apply Z.mod_pos_bound; lia).
  rewrite index_ok by lia.
  destruct (lookup_lt_is_Some_2 (buf q) (Z.to_nat ((head q + j) mod 2 ^ k)))
    as [r Hr]; [unfold len in *; lia|].
  exists r. by rewrite Hr.
Qed.

Lemma find_pos_app (v : T) l1 l2 idx :
  find_pos v (l1 ++ l2) idx =
    match find_pos v l1 idx with
    | Some (inl r) => Some (inl r)
    | Some (inr idx') => find_pos v l2 idx'
    | None => None
    end.
Proof.
  revert idx. induction l1 as [|x l1 IH]; intros idx; cbn [app find_pos].
  - done.
  - destruct (equal x v) as [[|]|]; [done| |done]. apply IH.
Qed.

(** What [find_pos] finds: the first element that [==] finds equal, when
    no comparison before it panics. *)
Lemma find_pos_spec (v : T) l : forall idx,
  match find_pos v l idx with
  | Some (inl r) =>
      idx <= r < idx + Z.of_nat (length l) /\
      (exists x, l !! Z.to_nat (r - idx) = Some x /\ equal x v = Some true) /\
      forall j x, (j < Z.to_nat (r - idx))%nat -> l !! j = Some x ->
                  equal x v = Some false
  | Some (inr r) =>
      r = idx + Z.of_nat (length l) /\
      forall j x, l !! j = Some x -> equal x v = Some false
  | None =>
      exists k y, l !! k = Some y /\ equal y v = None /\
        forall j x, (j < k)%nat -> l !! j = Some x -> equal x v = Some false
  end.
Proof.
  induction l as [|x l IH]; intros idx; cbn [find_pos].
  - split; [cbn; lia|]. by intros j x.
  - destruct (equal x v) as [[|]|] eqn:Hx.
    + split; [cbn [length]; lia|]. rewrite Z.sub_diag. split.
      * by exists x.
      * intros j y Hj. cbn in Hj. lia.
    + specialize (IH (idx + 1)).
      destruct (find_pos v l (idx + 1)) as [[r|r]|].
      * destruct IH as (Hr & (y & Hy & Hyv) & Hbefore).
        split; [cbn [length]; lia|].
        replace (Z.to_nat (r - idx)) with (S (Z.to_nat (r - (idx + 1)))) by lia.
        split; [by exists y|].
        intros [|j] z Hj Hz; cbn in Hz; [congruence|].
        eapply Hbefore; [|done]. lia.
      * destruct IH as (-> & Hall). split; [cbn [length]; lia|].
        intros [|j] z Hz; cbn in Hz; [congruence|]. by eapply Hall.
      * destruct IH as (k & y & Hk & Hy & Hbefore).
        exists (S k), y. split_and!; [done|done|].
        intros [|j] z Hj Hz; cbn in Hz; [congruence|].
        eapply Hbefore; [|done]. lia.
    + exists 0%nat, x. split_and!; [done|done|]. intros j z Hj. lia.
Qed.

(** What [Index] computes: the position of the first element that [==]
    finds equal, or -1; nothing when a comparison panics first. *)
Lemma index_of_spec (v : T) l :
  match index_of v l with
  | Some r =>
      (r = -1 /\ forall j x, l !! j = Some x -> equal x v = Some false) \/
      (0 <= r < Z.of_nat (length l) /\
       (exists x, l !! Z.to_nat r = Some x /\ equal x v = Some true) /\
       forall j x, (j < Z.to_nat r)%nat -> l !! j = Some x ->
                   equal x v = Some false)
  | None =>
      exists k y, l !! k = Some y /\ equal y v = None /\
        forall j x, (j < k)%nat -> l !! j = Some x -> equal x v = Some false
  end.
Proof.
  unfold index_of. pose proof (find_pos_spec v l 0) as Hs.
  destruct (find_pos v l 0) as [[r|r]|]; [| |done].
  - right. by rewrite Z.sub_0_r, Z.add_0_l in Hs.
  - left. by destruct Hs as [_ Hs].
Qed.

Lemma scan_find (v : T) n : forall i idx q,
  0 <= i -> i + Z.of_nat n <= len (buf q) -> len (buf q) <= 2 ^ 62 ->
  0 <= idx -> idx + Z.of_nat n < 2 ^ 63 ->
  scan v n i idx q =
    match find_pos v (take n (drop (Z.to_nat i) (buf q))) idx with
    | Some r => Ret r q
    | None => Panic q
    end.
Proof.
  induction n as [|n IH]; intros i idx q Hi Hn Hlen Hidx Hb; cbn [scan].
  - done.
  - unfold bind, get. rewrite index_ok by lia.
    destruct (lookup_lt_is_Some_2 (buf q) (Z.to_nat i)) as [x Hx];
      [unfold len in *; lia|].
    rewrite Hx. cbn [try ret]. rewrite (drop_S _ _ _ Hx). cbn [take find_pos].
    destruct (equal x v) as [[|]|]; cbn [try ret panic]; [done| |done].
    rewrite !wrap_small by lia. rewrite IH by lia.
    by replace (Z.to_nat (i + 1)) with (S (Z.to_nat i)) by lia.
Qed.

(** On an empty queue [Index] returns without giving the read lock back. *)
Lemma Index_empty q v :
  unlocked q -> count q <= 0 ->
  Index v q = Ret (-1) (set_lock (mk_lock 1 false) q).
Proof.
  intros Hun Hz. unfold Index, bind, RLock, get. rewrite Hun.
  cbn [count buf head tail set_lock].
  by destruct (Z.leb_spec (count q) 0); [|lia].
Qed.

(** On a queue that holds an element [Index] returns what [index_of]
    finds among the elements; when a comparison panics, it panics with
    the read lock still held. *)
Lemma Index_elems q (v : T) :
  ring_inv q -> unlocked q -> 0 < count q ->
  Index v q = match index_of v (elems q) with
              | Some r => Ret r q
              | None => Panic (set_lock (mk_lock 1 false) q)
              end.
Proof.
  intros Hq Hun Hpos. pose proof (ring_inv_len q Hq) as Hlen.
  destruct Hq as (_ & Hc & Hh & Ht & Htl).
  unfold Index, bind, RLock, get. rewrite Hun.
  cbn [count buf head tail set_lock].
  destruct (Z.leb_spec (count q) 0); [lia|].
  set (q1 := set_lock _ q).
  assert (forall x : Z, bind RUnlock (fun _ => ret x) q1 = Ret x q) as Hout.
  { intros x. unfold bind, RUnlock, q1. cbn. by rewrite relock. }
  set (n := len (buf q)) in *.
  assert (length (buf q) = Z.to_nat n) as Hn by (unfold n, len; lia).
  unfold index_of, elems.
  destruct (Z.gtb_spec (tail q) (head q)) as [Hgt|Hle].
  - assert (head q + count q < n) as Hlt.
    { destruct (Z.lt_ge_cases (head q + count q) n) as [|Hge]; [done|].
      rewrite <- (Z.mod_unique_pos (head q + count q) n 1 (head q + count q - n))
        in Htl by lia. lia. }
    rewrite Z.mod_small in Htl by lia.
    rewrite scan_find; [| |cbn [buf q1 set_lock]; fold n|cbn [buf q1 set_lock]; fold n| |]; try lia.
    cbn [buf q1 set_lock].
    rewrite take_app_le by (rewrite length_drop; lia).
    replace (Z.to_nat (tail q - head q)) with (Z.to_nat (count q)) by lia.
    destruct (find_pos _ _ _) as [[x|x]|]; [apply Hout..|done].
  - assert (n <= head q + count q) as Hge.
    { destruct (Z.lt_ge_cases (head q + count q) n) as [Hlt|]; [|done].
      rewrite Z.mod_small in Htl by lia. lia. }
    rewrite <- (Z.mod_unique_pos (head q + count q) n 1 (head q + count q - n))
      in Htl by lia.
    assert (take (Z.to_nat (count q))
              (drop (Z.to_nat (head q)) (buf q) ++
               take (Z.to_nat (head q)) (buf q)) =
            take (Z.to_nat (n - head q)) (drop (Z.to_nat (head q)) (buf q)) ++
            take (Z.to_nat (tail q)) (drop (Z.to_nat 0) (buf q))) as ->.
    { rewrite take_app_ge by (rewrite length_drop; lia).
      rewrite (take_ge (drop _ _)) by (rewrite length_drop; lia).
      f_equal. rewrite length_drop, take_take. cbn. f_equal. lia. }
    rewrite find_pos_app.
    rewrite scan_find; [| |cbn [buf q1 set_lock]; fold n|cbn [buf q1 set_lock]; fold n| |]; try lia.
    cbn [buf q1 set_lock]. fold n.
    pose proof (find_pos_spec v
      (take (Z.to_nat (n - head q)) (drop (Z.to_nat (head q)) (buf q))) 0) as Hs.
    destruct (find_pos _ _ 0) as [[x|x]|]; [apply Hout| |done].
    destruct Hs as [-> _]. rewrite length_take, length_drop.
    rewrite scan_find; [| |cbn [buf q1 set_lock]; fold n|cbn [buf q1 set_lock]; fold n| |]; try lia.
    cbn [buf q1 set_lock].
    destruct (find_pos _ _ _) as [[x|x]|]; [apply Hout..|done].
Qed.

(** Apart from [Index] on an empty queue or with a comparison that panics
    (and a [Push] that cannot double 2^62 slots) every call gives the
    lock back, also when it panics. *)
Lemma lock_released c q :
  ring_inv q -> unlocked q ->
  match c with
  | CallIndex v => 0 < count q /\ is_Some (index_of v (elems q))
  | CallPush _ => count q < 2 ^ 62
  | _ => True
  end ->
  unlocked (exec zero c q).
Proof.
  intros Hq Hun Hc. pose proof (ring_inv_len q Hq) as Hlen.
  destruct c as [| |e| |i| |v]; cbn [exec].
  - by rewrite Size_unlocked.
  - unfold Empty, bind. by rewrite Size_unlocked.
  - destruct (Z.lt_ge_cases (count q) (len (buf q))) as [Hroom|Hfull].
    + by rewrite Push_room.
    + assert (count q = len (buf q)) as Hfull'.
      { destruct Hq as (_ & ? & _). lia. }
      by destruct (Push_full q e Hq Hun Hfull' ltac:(lia)) as (b & _ & _ & ->).
  - pose proof (Peek_unlocked q Hq Hun) as Hp.
    destruct (count q <=? 0); [by rewrite Hp|by destruct Hp as [r ->]].
  - pose proof (Get_unlocked q i Hq Hun) as Hg. cbv zeta in Hg.
    destruct (_ || _); [by rewrite Hg|by destruct Hg as [r ->]].
  - destruct (Z.le_gt_cases (count q) 0) as [Hz|Hpos].
    + by rewrite Pop_empty.
    + destruct (decide (len (buf q) > minQueueLen /\
                        4 * (count q - 1) = len (buf q))) as [[Hbig Hqu]|Hno].
      * by destruct (Pop_shrink q Hq Hun Hpos Hbig Hqu)
          as (r & b & _ & _ & _ & ->).
      * by destruct (Pop_keep q Hq Hun Hpos Hno) as (r & _ & ->).
  - destruct Hc as [Hpos [r Hr]]. by rewrite Index_elems, Hr.
Qed.

End ring_facts.

(** C7: when the buffer is full, [Push] first moves the elements to a
    buffer of exactly twice their number and then stores; when a removal
    leaves a buffer larger than the minimum exactly one quarter full, [Pop]
    moves the elements to a buffer of twice their number, half the old
    capacity; otherwise the buffer stays; [resize] keeps the elements and
    their order. *)
Theorem C7_resize_doubles_and_halves (T : Type) `{EqDecision T} (zero : T)
    (q : @Ring.Queue T) (e : T) :
  Ring.ring_inv q -> Ring.unlocked q ->
  (Ring.count q = Ring.len (Ring.buf q) -> Ring.len (Ring.buf q) < 2 ^ 62 ->
   exists q', Ring.Push zero e q = Ring.Ret tt q' /\
              Ring.len (Ring.buf q') = 2 * Ring.count q /\
              Ring.elems q' = Ring.elems q ++ [e]) /\
  (Ring.count q < Ring.len (Ring.buf q) ->
   exists q', Ring.Push zero e q = Ring.Ret tt q' /\
              Ring.len (Ring.buf q') = Ring.len (Ring.buf q) /\
              Ring.elems q' = Ring.elems q ++ [e]) /\
  (0 < Ring.count q -> Ring.len (Ring.buf q) > Ring.minQueueLen ->
   4 * (Ring.count q - 1) = Ring.len (Ring.buf q) ->
   exists v q', Ring.Pop zero q = Ring.Ret (v, true) q' /\
                Ring.len (Ring.buf q') = 2 * (Ring.count q - 1) /\
                2 * Ring.len (Ring.buf q') = Ring.len (Ring.buf q) /\
                Ring.elems q = v :: Ring.elems q') /\
  (0 < Ring.count q ->
   ~ (Ring.len (Ring.buf q) > Ring.minQueueLen /\
      4 * (Ring.count q - 1) = Ring.len (Ring.buf q)) ->
   exists v q', Ring.Pop zero q = Ring.Ret (v, true) q' /\
                Ring.len (Ring.buf q') = Ring.len (Ring.buf q) /\
                Ring.elems q = v :: Ring.elems q') /\
  (0 < Ring.count q -> Ring.count q < 2 ^ 62 ->
   exists q', Ring.resize zero q = Ring.Ret tt q' /\
              Ring.len (Ring.buf q') = 2 * Ring.count q /\
              Ring.count q' = Ring.count q /\
              Ring.elems q' = Ring.elems q).
Proof.
  intros Hq Hun. split_and!.
  - intros Hfull H62.
    destruct (Push_full zero q e Hq Hun Hfull H62) as (b & Hb & Hel & ->).
    eexists. split; [reflexivity|].
    pose proof (doubled_inv q b Hq Hfull H62 Hb) as Hq2.
    pose proof (ring_inv_len q Hq) as Hlen.
    destruct (pushed_spec _ e Hq2) as [_ Hpe];
      [cbn [Ring.count Ring.buf]; lia|].
    split.
    + unfold Ring.pushed, Ring.len. cbn. rewrite length_insert.
      fold (Ring.len b). lia.
    + rewrite Hpe. f_equal. unfold Ring.elems at 1. cbn.
      by rewrite app_nil_r.
  - intros Hroom. rewrite (Push_room zero) by done.
    eexists. split; [reflexivity|].
    destruct (pushed_spec q e Hq Hroom) as [_ Hpe]. split; [|done].
    unfold Ring.pushed, Ring.len. cbn. by rewrite length_insert.
  - intros Hpos Hbig Hqu.
    destruct (Pop_shrink zero q Hq Hun Hpos Hbig Hqu)
      as (r & b & Hr & Hb & Hel & ->).
    destruct (popped_spec q r Hq Hpos Hr) as [_ Hpe].
    eexists _, _. split; [reflexivity|]. cbn [Ring.buf].
    split_and!; [done|lia|].
    rewrite Hpe. f_equal. unfold Ring.elems at 2. cbn.
    by rewrite app_nil_r.
  - intros Hpos Hno.
    destruct (Pop_keep zero q Hq Hun Hpos Hno) as (r & Hr & ->).
    destruct (popped_spec q r Hq Hpos Hr) as [_ Hpe].
    by eexists _, _.
  - intros Hpos H62.
    destruct Hq as (_ & Hc & Hh & _ & Htl).
    destruct (resize_spec zero q) as (b & -> & Hb & Hel); try done; try lia.
    eexists. split; [reflexivity|]. cbn [Ring.buf Ring.count].
    split_and!; [done..|]. unfold Ring.elems at 1. cbn.
    by rewrite app_nil_r.
Qed.

Lemma C7_resize_doubles_and_halves_witness :
  exists q',
    Ring.Push 0 17 (Ring.after 0 (Ring.CallPush <$> seqZ 1 16)) =
      Ring.Ret tt q' /\
    Ring.len (Ring.buf q') = 32 /\
    Ring.elems q' = seqZ 1 17.
Proof.
  destruct (C7_resize_doubles_and_halves Z 0
              (Ring.after 0 (Ring.CallPush <$> seqZ 1 16)) 17)
    as [Hfull _].
  - apply after_inv.
  - reflexivity.
  - destruct Hfull as (q' & Hp & Hlen & Hel).
    + reflexivity.
    + vm_compute. reflexivity.
    + exists q'. split_and!; [done| |].
      * rewrite Hlen. reflexivity.
      * rewrite Hel. reflexivity.
Defined.

(** C8 fails on the code: [Index] on an empty queue returns -1 with the
    read lock still held, so the next call that needs the write lock waits
    for ever, and behind that waiting writer every later call, reads
    included; on a queue that holds an element [Index] gives the lock
    back. *)
Theorem C8_Index_on_empty_keeps_the_read_lock :
  let q1 := Ring.state_of (Ring.Index 5 (Ring.NewQueue 0)) in
  let q1w := Ring.set_lock (Ring.mk_lock 1 true) q1 in
  let q2 := Ring.after 0 [Ring.CallPush 5] in
  Ring.unlocked (Ring.NewQueue 0) /\
  Ring.Index 5 (Ring.NewQueue 0) = Ring.Ret (-1) q1 /\
  Ring.lock q1 = Ring.mk_lock 1 false /\
  Ring.Push 0 7 q1 = Ring.Block q1w /\
  Ring.Pop 0 q1 = Ring.Block q1w /\
  Ring.Size q1w = Ring.Block q1w /\
  Ring.Push 0 7 q1w = Ring.Block q1w /\
  Ring.Index 5 q2 = Ring.Ret 0 q2 /\ Ring.unlocked q2.
Proof. cbv zeta. by split_and!. Qed.

(** C9: after any sequence of calls on a new queue the length of the
    buffer is a power of two, at least 16, and the count lies between 0
    and that length; so the masks computed by [Push], [Pop] and [Get] are
    the remainders modulo the length. *)
Theorem C9_ring_shape (T : Type) `{Ring.Comparable T} (zero : T)
    (cs : list (@Ring.call T)) :
  let q := Ring.after zero cs in
  let n := Ring.len (Ring.buf q) in
  (exists k, 4 <= k /\ n = 2 ^ k) /\
  Ring.minQueueLen <= n /\
  0 <= Ring.count q <= n /\
  (forall x, Z.land x (n - 1) = x mod n) /\
  Z.land (Ring.wrap (Ring.tail q + 1)) (Ring.wrap (n - 1)) =
    (Ring.tail q + 1) mod n /\
  Z.land (Ring.wrap (Ring.head q + 1)) (Ring.wrap (n - 1)) =
    (Ring.head q + 1) mod n /\
  (forall i, 0 <= i < Ring.count q ->
     Z.land (Ring.wrap (Ring.head q + i)) (Ring.wrap (n - 1)) =
       (Ring.head q + i) mod n).
Proof.
  cbv zeta. pose proof (after_inv zero cs) as Hq.
  pose proof (ring_inv_len _ Hq) as Hlen.
  destruct Hq as ((k & Hk & Hpow) & Hc & Hh & Ht & Htl).
  assert (forall x, Z.land x (Ring.len (Ring.buf (Ring.after zero cs)) - 1) =
                    x mod Ring.len (Ring.buf (Ring.after zero cs))) as Hmask.
  { intros x. rewrite Hpow. apply land_mask. lia. }
  split; [exists k; split; [lia|done]|].
  split; [unfold Ring.minQueueLen; lia|].
  split; [done|]. split; [exact Hmask|].
  split_and!.
  - rewrite !wrap_small by lia. apply Hmask.
  - rewrite !wrap_small by lia. apply Hmask.
  - intros i Hi. rewrite !wrap_small by lia. apply Hmask.
Qed.

(* ===================================================================== *)
(** * More about the lock-free queue under interleaving *)
(* ===================================================================== *)

Section lock_free_more.
Context {T : Type}.
Variable zero : T.
Import LockFree.

Implicit Types (q : LockFreeQueue (T:=T)) (hp : list (qNode (T:=T))).
Implicit Types (c d : pc (T:=T)) (s : system (T:=T)).
Implicit Types (l : list nat) (vs : list T).

Lemma chain_lengths hp a l vs : chain hp a l vs -> length vs = length l.
Proof. induction 1; cbn; congruence. Qed.

Lemma chain_suffix hp a l vs :
  chain hp a l vs ->
  forall i x, l !! i = Some x -> chain hp x (drop i l) (drop i vs).
Proof.
  induction 1 as [a nd Ha Hn|a b nd l vs Ha Hn Hc IH]; intros i x Hi.
  - destruct i as [|i]; [|done]. cbn in Hi. simplify_eq. cbn.
    by apply chain_end.
  - destruct i as [|i]; cbn in Hi.
    + simplify_eq. cbn. by eapply chain_step.
    + cbn. by apply IH.
Qed.

Lemma chain_unique hp a l vs :
  chain hp a l vs -> forall l' vs', chain hp a l' vs' -> l' = l /\ vs' = vs.
Proof.
  induction 1 as [a nd Ha Hn|a b nd l vs Ha Hn Hc IH]; intros l' vs' Hc';
    inversion Hc' as [a' nd' Ha' Hn'|a' b' nd' l'' vs'' Ha' Hn' Hc''];
    subst; rewrite Ha in Ha'; injection Ha' as <-.
  - done.
  - congruence.
  - congruence.
  - rewrite Hn in Hn'. injection Hn' as <-.
    by destruct (IH _ _ Hc'') as [-> ->].
Qed.

(** What waits in the queue is what the chain holds behind [head]. *)
Lemma contents_chain q l vs hi h :
  chain (heap q) 0 l vs -> NoDup l ->
  head q = Some h -> l !! hi = Some h ->
  contents q = drop (S hi) vs.
Proof.
  intros Hc Hnd Hh Hhi.
  pose proof (chain_suffix _ _ _ _ Hc _ _ Hhi) as Hs.
  pose proof (chain_length_bound _ _ _ _ Hc Hnd) as Hlen.
  destruct (chain_first _ _ _ _ Hs) as (nd & l' & vs' & Ha & Hl & Hv).
  assert (drop (S hi) vs = vs') as ->.
  { replace (S hi) with (hi + 1)%nat by lia. by rewrite <- drop_drop, Hv. }
  assert (length l' < length (heap q))%nat as Hl'.
  { assert (length (drop hi l) <= length l)%nat by (rewrite length_drop; lia).
    rewrite Hl in *. cbn [length] in *. lia. }
  rewrite Hl, Hv in Hs. unfold contents. rewrite Hh. cbn [deref]. rewrite Ha.
  inversion Hs as [? nd' Ha' Hn'|? b nd' ? ? Ha' Hn' Hc']; subst;
    rewrite Ha in Ha'; injection Ha' as <-; rewrite Hn'.
  - apply walk_nil.
  - apply (walk_chain _ _ _ _ Hc'). lia.
Qed.

(** When no push stands between its compare-and-swap and its store, the
    shared queue is in a state that one caller alone could have produced. *)
Lemma sys_inv_quiescent s :
  sys_inv s ->
  (forall i c, threads s !! i = Some c -> ~ at_store c) ->
  queue_inv (queue s).
Proof.
  intros (l & hi & ti & [vs Hc] & Hnd & (h & Hh & Hhi) & (t & Ht & Hti)
          & Hlag & _ & Hok & _) Hq.
  assert (S ti = length l) as Hlast.
  { destruct Hlag as [|[_ (i & node & Hi)]]; [done|]. by destruct (Hq _ _ Hi). }
  pose proof (chain_suffix _ _ _ _ Hc _ _ Hhi) as Hs.
  pose proof (lookup_lt_Some _ _ _ Hhi) as Hlt.
  destruct (chain_first _ _ _ _ Hs) as (nd & l' & vs' & _ & Hl' & Hvs').
  exists vs', h, (drop hi l), (val nd). split_and!; try done.
  - by rewrite <- Hvs'.
  - eapply sublist_NoDup; [done|apply sublist_drop].
  - rewrite Ht, last_lookup, lookup_drop, length_drop, <- Hti. f_equal. lia.
Qed.


Lemma chain_vals hp a l vs :
  chain hp a l vs ->
  forall i x nd, l !! i = Some x -> hp !! x = Some nd ->
                 vs !! i = Some (val nd).
Proof.
  induction 1 as [a nd0 Ha Hn|a b nd0 l vs Ha Hn Hc IH]; intros i x nd Hi Hx.
  - destruct i as [|i]; [|done]. cbn in Hi. simplify_eq. cbn. congruence.
  - destruct i as [|i]; cbn in Hi.
    + simplify_eq. cbn. congruence.
    + cbn. by eapply IH.
Qed.

Lemma contents_same q q' :
  heap q' = heap q -> head q' = head q -> contents q' = contents q.
Proof. intros Hh Hd. unfold contents. by rewrite Hh, Hd. Qed.

(** In every state the program reaches, a pop that runs without being
    interleaved returns after one round of its loop. *)
Lemma sys_inv_Pop s :
  sys_inv s ->
  exists v ok q',
    Pop zero 1 (queue s) = Ret (v, ok) q' /\
    heap q' = heap (queue s) /\ tail q' = tail (queue s) /\
    (ok = false -> v = zero /\ q' = queue s /\ contents (queue s) = []) /\
    (ok = true -> contents (queue s) = v :: contents q').
Proof.
  intros (l & hi & ti & [vs Hc] & Hnd & (h & Hh & Hhi) & _).
  destruct (chain_lookup _ _ _ _ Hc _ _ Hhi) as (rh & Hrh & Hn).
  pose proof (contents_chain _ _ _ _ _ Hc Hnd Hh Hhi) as Hcont.
  unfold Pop. cbn [Pop_loop]. rewrite Hh. cbn [deref]. rewrite Hrh.
  destruct (l !! S hi) as [b|] eqn:Hb; rewrite Hn.
  - destruct (chain_lookup _ _ _ _ Hc _ _ Hb) as (nd & Hndb & _).
    unfold CompareAndSwap_head, ptr_eqb.
    rewrite Hh, bool_decide_eq_true_2 by done. cbn [deref heap]. rewrite Hndb.
    eexists _, _, _. split; [reflexivity|]. cbn [heap tail].
    split_and!; try done. intros _.
    rewrite Hcont.
    rewrite (contents_chain (mk_queue (Some b) (tail (queue s))
               (heap (queue s))) l vs (S hi) b) by done.
    apply drop_S. by eapply chain_vals.
  - eexists _, _, _. split; [reflexivity|]. split_and!; try done.
    intros _. split_and!; try done. rewrite Hcont.
    apply drop_ge. rewrite (chain_lengths _ _ _ _ Hc).
    by apply lookup_ge_None.
Qed.

(** A step never overwrites a payload, never removes a node and never
    changes a successor that is set. *)
Lemma thread_step_heap q c q' c' :
  thread_step zero q c = Some (q', c') ->
  forall a nd, heap q !! a = Some nd ->
  exists nd', heap q' !! a = Some nd' /\ val nd' = val nd /\
              (next nd = None \/ next nd' = next nd).
Proof.
  intros Hstep a nd Ha.
  assert (heap q' = heap q -> exists nd', heap q' !! a = Some nd' /\
            val nd' = val nd /\ (next nd = None \/ next nd' = next nd)) as Hsame.
  { intros ->. exists nd. auto. }
  destruct c as [v|node|node rt|node| | |h|h n|n|v ok|]; cbn in Hstep;
    try done.
  - injection Hstep as <- <-. exists nd. cbn.
    split_and!; [by apply lookup_app_l_Some|done|by right].
  - injection Hstep as <- <-. by apply Hsame.
  - destruct rt as [r|]; [|injection Hstep as <- <-; by apply Hsame].
    unfold CompareAndSwap_next in Hstep.
    destruct (heap q !! r) as [rtn|] eqn:Hr;
      [|injection Hstep as <- <-; by apply Hsame].
    unfold ptr_eqb in Hstep. case_bool_decide as Hnil;
      injection Hstep as <- <-; [|by apply Hsame].
    cbn [heap]. destruct (decide (a = r)) as [->|Hne].
    + rewrite Hr in Ha. injection Ha as <-.
      eexists. split; [apply list_lookup_insert_eq; by eapply lookup_lt_Some|].
      cbn. auto.
    + exists nd. rewrite list_lookup_insert_ne by done. auto.
  - injection Hstep as <- <-. by apply Hsame.
  - injection Hstep as <- <-. by apply Hsame.
  - destruct (deref (heap q) h) as [rh|]; [destruct (next rh)|];
      injection Hstep as <- <-; by apply Hsame.
  - destruct (deref (heap q) h) as [rh|];
      [|injection Hstep as <- <-; by apply Hsame].
    unfold CompareAndSwap_head in Hstep.
    destruct (ptr_eqb _ _); injection Hstep as <- <-; by apply Hsame.
  - destruct (deref (heap q) n) as [rn|];
      injection Hstep as <- <-; by apply Hsame.
Qed.

Lemma run_heap sched : forall s a nd,
  heap (queue s) !! a = Some nd ->
  exists nd', heap (queue (run zero sched s)) !! a = Some nd' /\
              val nd' = val nd /\ (next nd = None \/ next nd' = next nd).
Proof.
  induction sched as [|i sched IH]; intros s a nd Ha.
  - exists nd. auto.
  - cbn [run foldl].
    assert (exists nd1, heap (queue (sys_step zero s i)) !! a = Some nd1 /\
              val nd1 = val nd /\ (next nd = None \/ next nd1 = next nd))
      as (nd1 & Ha1 & Hv1 & Hn1).
    { unfold sys_step. destruct (threads s !! i) as [c|]; [|exists nd; auto].
      destruct (thread_step zero (queue s) c) as [[q' c']|] eqn:Hstep;
        [|exists nd; auto].
      by eapply thread_step_heap. }
    destruct (IH _ _ _ Ha1) as (nd' & Ha' & Hv' & Hn').
    exists nd'. split_and!; [done|congruence|].
    destruct Hn1 as [|Hn1]; [by left|].
    destruct Hn' as [Hn'|Hn']; [left|right]; congruence.
Qed.


(** What one step does to the elements waiting: nothing, or it is the
    compare-and-swap of a push and puts the payload of its node behind
    them, or it is the compare-and-swap of a pop and takes the first. *)
Lemma sys_step_sim s i :
  sys_inv s ->
  contents (queue (sys_step zero s i)) = contents (queue s) \/
  (exists b rt nd,
     threads s !! i = Some (PushCAS (Some b) rt) /\
     threads (sys_step zero s i) !! i = Some (PushStore (Some b)) /\
     heap (queue s) !! b = Some nd /\
     contents (queue (sys_step zero s i)) = contents (queue s) ++ [val nd]) \/
  (exists h b nd,
     threads s !! i = Some (PopCAS h (Some b)) /\
     threads (sys_step zero s i) !! i = Some (PopVal (Some b)) /\
     heap (queue s) !! b = Some nd /\
     contents (queue s) = val nd :: contents (queue (sys_step zero s i))).
Proof.
  intros (l & hi & ti & [vs Hc] & Hnd & (h & Hh & Hhi) & (t & Ht & Hti)
          & Hlag & Huniq & Hok & Hpend).
  pose proof (contents_chain _ _ _ _ _ Hc Hnd Hh Hhi) as Hcont.
  unfold sys_step.
  destruct (threads s !! i) as [c|] eqn:Hi; [|by left].
  pose proof (lookup_lt_Some _ _ _ Hi) as Hilt.
  pose proof (Hok _ _ Hi) as Hokc.
  destruct c as [v|node|node rt|node| | |h0|h0 n|n|v ok|]; cbn [thread_step];
    try (by left).
  - left. cbn [queue alloc fst]. unfold alloc. cbn [queue].
    rewrite Hcont.
    apply (contents_chain _ l vs hi h); try done.
    by apply chain_heap_app.
  - cbn in Hokc. destruct Hokc as [(b & ndb & -> & Hb & Hnb & Hbl)
                                     (ri & r & -> & Hri & Hle)].
    destruct (chain_lookup _ _ _ _ Hc _ _ Hri) as (rtn & Hr & Hnx).
    unfold CompareAndSwap_next. rewrite Hr. unfold ptr_eqb.
    case_bool_decide as Hnil; [|by left].
    right. left. exists b, (Some r), ndb. cbn [queue threads].
    split_and!; [done|by apply list_lookup_insert_eq|done|].
    pose proof (chain_last_index _ _ _ _ _ _ _ Hc Hri Hr Hnil) as Hlast.
    assert (last l = Some r) as Hlastl.
    { rewrite last_lookup, <- Hlast. done. }
    rewrite (contents_chain _ (l ++ [b]) (vs ++ [val ndb]) hi h); cbn [heap head].
    + rewrite Hcont. apply drop_app_le.
      rewrite (chain_lengths _ _ _ _ Hc). apply lookup_lt_Some in Hhi. lia.
    + by apply chain_link.
    + apply NoDup_app. split_and!; [done| |apply NoDup_singleton].
      intros x Hx ->%list_elem_of_singleton. done.
    + done.
    + by apply lookup_app_l_Some.
  - cbn in Hokc. destruct Hokc as (j & a & -> & Hj & Hjle).
    cbn [deref]. destruct (chain_lookup _ _ _ _ Hc _ _ Hj) as (rh & -> & _).
    destruct (next rh); by left.
  - cbn in Hokc. destruct Hokc as (j & a & b & -> & -> & Hj & Hsj).
    destruct (chain_lookup _ _ _ _ Hc _ _ Hj) as (rh & Ha & Hnx).
    cbn [deref]. rewrite Ha. unfold CompareAndSwap_head, ptr_eqb.
    case_bool_decide as Hhd; [|by left].
    right. right.
    destruct (chain_lookup _ _ _ _ Hc _ _ Hsj) as (ndb & Hndb & _).
    exists (Some a), b, ndb. cbn [queue threads].
    split_and!; [done|by apply list_lookup_insert_eq|done|].
    assert (j = hi) as ->.
    { eapply NoDup_lookup; [done..|]. congruence. }
    rewrite Hcont.
    rewrite (contents_chain _ l vs (S hi) b); cbn [heap head];
      [|done|done|congruence|done].
    apply drop_S. by eapply chain_vals.
  - cbn in Hokc. destruct Hokc as (j & b & -> & Hj).
    cbn [deref]. destruct (chain_lookup _ _ _ _ Hc _ _ Hj) as (rn & -> & _).
    by left.
Qed.

(** While a goroutine stands at its store to [tail], a step of another
    push cannot be the one that links its node. *)
Lemma stall_step s i j c cj :
  sys_inv s ->
  threads s !! j = Some cj -> at_store cj ->
  threads s !! i = Some c -> in_push c ->
  exists c', threads (sys_step zero s i) !! i = Some c' /\ in_push c'.
Proof.
  intros Hs Hj Hat Hi Hin.
  assert (i <> j) as Hne.
  { intros ->. rewrite Hj in Hi. injection Hi as ->. by destruct c. }
  pose proof (sys_step_inv zero s i Hs) as Hs'.
  pose proof (sys_inv_no_crash _ i Hs') as Hnc.
  destruct Hs' as (l & hi & ti & _ & _ & _ & _ & _ & Huniq & _).
  revert Hnc Huniq. unfold sys_step. rewrite Hi.
  pose proof (lookup_lt_Some _ _ _ Hi) as Hlt.
  destruct (thread_step zero (queue s) c) as [[q' c']|] eqn:Hstep.
  2: { destruct c; try done; cbn in Hstep; repeat case_match; done. }
  cbn [threads]. rewrite list_lookup_insert_eq by done.
  intros Hnc Huniq. exists c'. split; [done|].
  specialize (Huniq i j c' cj).
  rewrite list_lookup_insert_eq, list_lookup_insert_ne in Huniq by done.
  destruct c as [v|node|node rt|node| | |h|h n|n|v ok|]; try done;
    cbn in Hstep.
  - by injection Hstep as <- <-.
  - by injection Hstep as <- <-.
  - destruct rt as [r|]; [|by injection Hstep as <- <-].
    destruct (CompareAndSwap_next (queue s) r None node) as [[q1 []]|];
      injection Hstep as <- <-; try done.
    destruct Hne. by apply Huniq.
Qed.

Lemma stall_run sched : forall s j cj,
  sys_inv s -> threads s !! j = Some cj -> at_store cj -> j ∉ sched ->
  threads (run zero sched s) !! j = Some cj /\
  forall i c, threads s !! i = Some c -> in_push c ->
              exists c', threads (run zero sched s) !! i = Some c' /\
                         in_push c'.
Proof.
  induction sched as [|k sched IH]; intros s j cj Hs Hj Hat Hnot.
  - split; [done|]. eauto.
  - apply not_elem_of_cons in Hnot as [Hjk Hnot]. cbn [run foldl].
    assert (threads (sys_step zero s k) !! j = Some cj) as Hj'.
    { unfold sys_step. destruct (threads s !! k) as [ck|]; [|done].
      destruct (thread_step zero (queue s) ck) as [[q' c']|]; [|done].
      cbn. by rewrite list_lookup_insert_ne. }
    destruct (IH (sys_step zero s k) j cj (sys_step_inv zero s k Hs) Hj' Hat Hnot)
      as [Hfin Hrest].
    split; [done|]. intros i c Hi Hin.
    destruct (decide (i = k)) as [->|Hik].
    + destruct (stall_step s k j c cj Hs Hj Hat Hi Hin) as (c1 & Hc1 & Hin1).
      by eapply Hrest.
    + eapply Hrest; [|done]. unfold sys_step.
      destruct (threads s !! k) as [ck|]; [|done].
      destruct (thread_step zero (queue s) ck) as [[q' c']|]; [|done].
      cbn. by rewrite list_lookup_insert_ne.
Qed.

Lemma current_history_of sched : forall h,
  current (foldl (record zero) h sched) = run zero sched (current h).
Proof.
  induction sched as [|i sched IH]; intros h; [done|].
  cbn [foldl run]. rewrite IH. unfold run at 1. f_equal.
  unfold record. by repeat case_match.
Qed.

(** What one step of a goroutine is for the callers. *)
Lemma thread_step_event s i c q' c' :
  sys_inv s -> threads s !! i = Some c ->
  thread_step zero (queue s) c = Some (q', c') ->
  (links c c' = true /\ linked c = false /\ linked c' = true /\
   taken (heap (queue s)) c = None /\ taken (heap q') c' = None /\
   exists b rt nd, c = PushCAS (Some b) rt /\
     heap (queue s) !! b = Some nd /\
     contents q' = contents (queue s) ++ [val nd]) \/
  (takes c c' = true /\ links c c' = false /\
   linked c = false /\ linked c' = false /\
   taken (heap (queue s)) c = None /\
   exists v, taken (heap q') c' = Some v /\
             contents (queue s) = v :: contents q') \/
  (links c c' = false /\ takes c c' = false /\
   linked c' = linked c /\
   taken (heap q') c' = taken (heap (queue s)) c /\
   contents q' = contents (queue s)).
Proof.
  intros (l & hi & ti & [vs Hc] & Hnd & (h & Hh & Hhi) & (t & Ht & Hti)
          & Hlag & Huniq & Hok & Hpend) Hi Hstep.
  pose proof (contents_chain _ _ _ _ _ Hc Hnd Hh Hhi) as Hcont.
  pose proof (Hok _ _ Hi) as Hokc.
  destruct c as [v|node|node rt|node| | |h0|h0 n|n|v ok|]; cbn [thread_step] in Hstep;
    try done.
  - injection Hstep as <- <-. right. right. split_and!; try done.
    cbn [heap]. rewrite Hcont.
    apply (contents_chain _ l vs hi h); try done.
    by apply chain_heap_app.
  - injection Hstep as <- <-. right. right. by split_and!.
  - cbn in Hokc. destruct Hokc as [(b & ndb & -> & Hb & Hnb & Hbl)
                                     (ri & r & -> & Hri & Hle)].
    destruct (chain_lookup _ _ _ _ Hc _ _ Hri) as (rtn & Hr & Hnx).
    unfold CompareAndSwap_next in Hstep. rewrite Hr in Hstep.
    unfold ptr_eqb in Hstep.
    case_bool_decide as Hnil; injection Hstep as <- <-;
      [|right; right; by split_and!].
    left. split_and!; try done. exists b, (Some r), ndb.
    split_and!; [done|done|].
    pose proof (chain_last_index _ _ _ _ _ _ _ Hc Hri Hr Hnil) as Hlast.
    assert (last l = Some r) as Hlastl.
    { rewrite last_lookup, <- Hlast. done. }
    rewrite (contents_chain _ (l ++ [b]) (vs ++ [val ndb]) hi h); cbn [heap head].
    + rewrite Hcont. apply drop_app_le.
      rewrite (chain_lengths _ _ _ _ Hc). apply lookup_lt_Some in Hhi. lia.
    + by apply chain_link.
    + apply NoDup_app. split_and!; [done| |apply NoDup_singleton].
      intros x Hx ->%list_elem_of_singleton. done.
    + done.
    + by apply lookup_app_l_Some.
  - injection Hstep as <- <-. right. right. by split_and!.
  - injection Hstep as <- <-. right. right. by split_and!.
  - cbn in Hokc. destruct Hokc as (j & a & -> & Hj & Hjle).
    cbn [deref] in Hstep.
    destruct (chain_lookup _ _ _ _ Hc _ _ Hj) as (rh & Hrh & _).
    rewrite Hrh in Hstep.
    destruct (next rh); injection Hstep as <- <-; right; right; by split_and!.
  - cbn in Hokc. destruct Hokc as (j & a & b & -> & -> & Hj & Hsj).
    destruct (chain_lookup _ _ _ _ Hc _ _ Hj) as (rh & Ha & Hnx).
    cbn [deref] in Hstep. rewrite Ha in Hstep.
    unfold CompareAndSwap_head, ptr_eqb in Hstep.
    case_bool_decide as Hhd; injection Hstep as <- <-;
      [|right; right; by split_and!].
    right. left.
    destruct (chain_lookup _ _ _ _ Hc _ _ Hsj) as (ndb & Hndb & _).
    split_and!; try done. exists (val ndb). cbn [taken deref heap].
    rewrite Hndb. split; [done|].
    assert (j = hi) as ->.
    { eapply NoDup_lookup; [done..|]. congruence. }
    rewrite Hcont.
    rewrite (contents_chain _ l vs (S hi) b); cbn [heap head];
      [|done|done|congruence|done].
    apply drop_S. by eapply chain_vals.
  - cbn in Hokc. destruct Hokc as (j & b & -> & Hj).
    cbn [deref] in Hstep.
    destruct (chain_lookup _ _ _ _ Hc _ _ Hj) as (rn & Hrn & _).
    rewrite Hrn in Hstep. injection Hstep as <- <-.
    right. right. split_and!; try done. cbn. by rewrite Hrn.
Qed.

(** Steps of the others leave what a pop has taken as it is. *)
Lemma taken_heap s j d q c q' c' :
  sys_inv s -> threads s !! j = Some d ->
  thread_step zero (queue s) c = Some (q', c') ->
  taken (heap q') d = taken (heap (queue s)) d.
Proof.
  intros (l & hi & ti & [vs Hc] & _ & _ & _ & _ & _ & Hok & _) Hj Hstep.
  destruct d as [v|node|node rt|node| | |h0|h0 n|n|v ok|]; try done.
  pose proof (Hok _ _ Hj) as (k & b & -> & Hk). cbn [taken deref].
  destruct (chain_lookup _ _ _ _ Hc _ _ Hk) as (nd & Hb & _).
  destruct (thread_step_heap _ _ _ _ Hstep _ _ Hb) as (nd' & Hb' & Hv & _).
  rewrite Hb, Hb'. cbn. by rewrite Hv.
Qed.

Lemma role_heap cs q c q' c' j d :
  thread_step zero q c = Some (q', c') ->
  role cs (heap q) j d -> role cs (heap q') j d.
Proof.
  intros Hstep.
  assert (forall node v nd,
            deref (heap q) node = Some nd -> val nd = v ->
            exists nd', deref (heap q') node = Some nd' /\ val nd' = v) as Hd.
  { intros [b|] v nd Hb Hv; [|done]. cbn in *.
    destruct (thread_step_heap _ _ _ _ Hstep _ _ Hb) as (nd' & ? & ? & _).
    exists nd'. split; [done|congruence]. }
  destruct d as [v|node|node rt|node| | |h0|h0 n|n|v ok|]; cbn; try done.
  - intros (v & nd & Hcs & Hn & Hv).
    destruct (Hd _ _ _ Hn Hv) as (nd' & ? & ?). by exists v, nd'.
  - intros (v & nd & Hcs & Hn & Hv).
    destruct (Hd _ _ _ Hn Hv) as (nd' & ? & ?). by exists v, nd'.
Qed.

Lemma role_step cs q c q' c' i :
  thread_step zero q c = Some (q', c') ->
  role cs (heap q) i c -> role cs (heap q') i c'.
Proof.
  intros Hstep Hr.
  destruct c as [v|node|node rt|node| | |h0|h0 n|n|v ok|]; cbn in Hstep;
    try done.
  - injection Hstep as <- <-. cbn in *. exists v, (mk_qNode v None).
    split_and!; [done| |done]. by rewrite list_lookup_middle.
  - by injection Hstep as <- <-.
  - destruct Hr as (v & nd & Hcs & Hn & Hv).
    destruct rt as [r|]; [|by injection Hstep as <- <-].
    pose proof (role_heap cs q (PushCAS node (Some r)) q' c' i
                  (PushLoadTail node) Hstep) as Hkeep.
    unfold CompareAndSwap_next in Hstep.
    destruct (heap q !! r) as [rtn|]; [|by injection Hstep as <- <-].
    destruct (ptr_eqb _ _); injection Hstep as <- <-.
    + by exists v.
    + by exists v, nd.
  - injection Hstep as <- <-. done.
  - by injection Hstep as <- <-.
  - destruct (deref (heap q) h0) as [rh|]; [destruct (next rh)|];
      by injection Hstep as <- <-.
  - destruct (deref (heap q) h0) as [rh|]; [|by injection Hstep as <- <-].
    destruct (CompareAndSwap_head q h0 (next rh)) as [q1 []];
      by injection Hstep as <- <-.
  - destruct (deref (heap q) n) as [rn|]; by injection Hstep as <- <-.
Qed.

Lemma links_same c : links c c = false.
Proof. by destruct c. Qed.

Lemma takes_same c : takes c c = false.
Proof. by destruct c. Qed.

(** A step keeps the record right. *)
Lemma recorded_step cs h i :
  recorded cs h -> recorded cs (record zero h i).
Proof.
  destruct h as [s li lo]. unfold recorded, record. cbn [current ins outs].
  intros (Hs & Hrole & Hni & Hno & Hin & Hout & vins & vouts & Hvi & Hvo & Heq).
  pose proof (sys_step_inv zero s i Hs) as Hs'. revert Hs'.
  unfold sys_step.
  destruct (threads s !! i) as [c|] eqn:Hi; [|intros _; by eauto 12].
  destruct (thread_step zero (queue s) c) as [[q' c']|] eqn:Hstep.
  2: { intros _. rewrite Hi, links_same, takes_same. by eauto 12. }
  pose proof (lookup_lt_Some _ _ _ Hi) as Hlt.
  cbn [threads]. rewrite list_lookup_insert_eq by done.
  intros Hs'. set (s' := mk_system q' (<[i:=c']> (threads s))) in *.
  assert (forall j, linked_at s' j <->
            if decide (j = i) then linked c' = true else linked_at s j) as Hlk.
  { intros j. unfold linked_at, s'. cbn [threads]. destruct (decide (j = i)) as [->|Hne].
    - rewrite list_lookup_insert_eq by done. split; [by intros (? & [= <-] & ?)|eauto].
    - by rewrite list_lookup_insert_ne. }
  assert (forall j v, taken_at s' j v <->
            if decide (j = i) then taken (heap q') c' = Some v
            else taken_at s j v) as Htk.
  { intros j v. unfold taken_at, s'. cbn [threads queue].
    destruct (decide (j = i)) as [->|Hne].
    - rewrite list_lookup_insert_eq by done. split; [by intros (? & [= <-] & ?)|eauto].
    - rewrite list_lookup_insert_ne by done.
      split; intros (d & Hd & Ht); exists d; split; try done.
      + by rewrite <- (taken_heap s j d (queue s) c q' c').
      + by rewrite (taken_heap s j d (queue s) c q' c'). }
  assert (forall j d, threads s' !! j = Some d -> role cs (heap (queue s')) j d)
    as Hrole'.
  { intros j d. unfold s'. cbn [threads queue]. destruct (decide (j = i)) as [->|Hne].
    - rewrite list_lookup_insert_eq by done. intros [= <-].
      eapply role_step; [done|]. by apply Hrole.
    - rewrite list_lookup_insert_ne by done. intros Hd.
      eapply role_heap; [done|]. by apply Hrole. }
  assert (linked_at s i <-> linked c = true) as Hli.
  { unfold linked_at. rewrite Hi. split; [by intros (? & [= <-] & ?)|eauto]. }
  assert (forall v, taken_at s i v <-> taken (heap (queue s)) c = Some v) as Hti.
  { intros v. unfold taken_at. rewrite Hi.
    split; [by intros (? & [= <-] & ?)|eauto]. }
  destruct (thread_step_event s i c q' c' Hs Hi Hstep)
    as [(-> & Hl & Hl' & Ht & Ht' & b & rt & nd & -> & Hb & Hcont)
       |[(-> & -> & Hl & Hl' & Ht & v & Ht' & Hcont)
        |(-> & -> & Hl' & Ht' & Hcont)]].
  - (* the node is linked *)
    assert (i ∉ li) as Hfresh.
    { intros Hx%Hin%Hli. congruence. }
    assert (takes (PushCAS (Some b) rt) c' = false) as -> by done.
    cbv iota. cbn [current ins outs]. split_and!; try done.
    + apply NoDup_app. split_and!; [done| |apply NoDup_singleton].
      by intros x Hx ->%list_elem_of_singleton.
    + intros j. rewrite elem_of_app, list_elem_of_singleton, Hlk, Hin.
      destruct (decide (j = i)) as [->|Hne]; [tauto|].
      split; [by intros [|]|by left].
    + intros j. rewrite Hout. split; intros [v Hv]; exists v; revert Hv;
        rewrite Htk; destruct (decide (j = i)) as [->|Hne]; try done.
      * rewrite Hti. congruence.
      * congruence.
    + exists (vins ++ [val nd]), vouts. split_and!.
      * apply Forall2_app; [done|]. constructor; [|by constructor].
        destruct (Hrole _ _ Hi) as (v & nd' & Hcs & Hd & Hv).
        cbn in Hd. congruence.
      * eapply Forall2_impl; [done|]. intros j v. cbn. rewrite Htk.
        destruct (decide (j = i)) as [->|Hne]; [|done].
        rewrite Hti. congruence.
      * unfold s'. cbn [queue]. by rewrite Hcont, Heq, app_assoc.
  - (* a pop moves head *)
    assert (i ∉ lo) as Hfresh.
    { intros [v0 Hx%Hti]%Hout. congruence. }
    cbv iota. cbn [current ins outs]. split_and!; try done.
    + apply NoDup_app. split_and!; [done| |apply NoDup_singleton].
      by intros x Hx ->%list_elem_of_singleton.
    + intros j. rewrite Hlk, Hin.
      destruct (decide (j = i)) as [->|Hne]; [|done].
      rewrite Hli. split; congruence.
    + intros j. rewrite elem_of_app, list_elem_of_singleton, Hout.
      split.
      * intros [[v0 Hv]| ->].
        -- exists v0. rewrite Htk. destruct (decide (j = i)) as [->|Hne]; [|done].
           apply Hti in Hv. congruence.
        -- exists v. rewrite Htk. by rewrite decide_True.
      * intros [v0 Hv]. rewrite Htk in Hv.
        destruct (decide (j = i)) as [->|Hne]; [by right|]. left. by exists v0.
    + exists vins, (vouts ++ [v]). split_and!; [done| |].
      * apply Forall2_app.
        -- eapply Forall2_impl; [done|]. intros j v0. cbn. rewrite Htk.
           destruct (decide (j = i)) as [->|Hne]; [|done].
           rewrite Hti. congruence.
        -- constructor; [|by constructor].
           apply Htk. by rewrite decide_True.
      * unfold s'. cbn [queue]. by rewrite Heq, Hcont, <- app_assoc.
  - (* nothing the callers see *)
    cbv iota. cbn [current ins outs]. split_and!; try done.
    + intros j. rewrite Hlk, Hin.
      destruct (decide (j = i)) as [->|Hne]; [|done]. by rewrite Hli, Hl'.
    + intros j. rewrite Hout. split; intros [v Hv]; exists v; revert Hv;
        rewrite Htk; destruct (decide (j = i)) as [->|Hne]; try done.
      * rewrite Hti. congruence.
      * rewrite Hti. congruence.
    + exists vins, vouts. split_and!; [done| |].
      * eapply Forall2_impl; [done|]. intros j v. cbn. rewrite Htk.
        destruct (decide (j = i)) as [->|Hne]; [|done].
        rewrite Hti. congruence.
      * unfold s'. cbn [queue]. by rewrite Hcont.
Qed.

Lemma recorded_initial cs :
  Forall initial cs ->
  recorded cs (mk_history (mk_system (NewQueue zero) cs) [] []).
Proof.
  intros Hcs. unfold recorded. cbn [current ins outs].
  assert (forall i c, cs !! i = Some c ->
            c = PopLoadHead \/ exists v, c = PushAlloc v) as Hinit.
  { intros i c Hi. eapply Forall_lookup_1 in Hcs; [|done].
    destruct c; cbn in Hcs; try done; eauto. }
  split_and!.
  - by apply sys_inv_initial.
  - cbn. intros i c Hi. by destruct (Hinit _ _ Hi) as [->|[v ->]].
  - apply NoDup_nil_2.
  - apply NoDup_nil_2.
  - intros i. split; [by intros ?%elem_of_nil|].
    intros (c & Hi & Hl). cbn in Hi.
    by destruct (Hinit _ _ Hi) as [->|[v ->]].
  - intros j. split; [by intros ?%elem_of_nil|].
    intros (v & c & Hj & Ht). cbn in Hj.
    by destruct (Hinit _ _ Hj) as [->|[v' ->]].
  - exists [], []. split_and!; [apply Forall2_nil_2|apply Forall2_nil_2|done].
Qed.

Lemma recorded_run cs sched : forall h,
  recorded cs h -> recorded cs (foldl (record zero) h sched).
Proof.
  induction sched as [|i sched IH]; intros h Hh; [done|].
  cbn [foldl]. by apply IH, recorded_step.
Qed.

End lock_free_more.

(* ===================================================================== *)
(** * More about the two-stage queue *)
(* ===================================================================== *)

Section two_stage_more.
Context {V : Type}.
Import TwoStage.

Implicit Types (q : Queue (V:=V)) (w : value (V:=V)) (ws : list (value (V:=V))).

Lemma PushBack_all_items ws : forall q,
  stage_inv q ->
  stage_inv (PushBack_all ws q) /\
  items (PushBack_all ws q) = items q ++ ws /\
  len (PushBack_all ws q) = len q + Z.of_nat (length ws).
Proof.
  induction ws as [|w ws IH]; intros q Hq; cbn.
  - rewrite app_nil_r. split_and!; [done..|lia].
  - destruct (PushBack_items w q Hq) as [Hq1 Hit].
    destruct (IH _ Hq1) as (Hq2 & Hit2 & Hlen2).
    unfold PushBack_all in *. split_and!; [done| |].
    + by rewrite Hit2, Hit, <- app_assoc.
    + rewrite Hlen2, !len_items, Hit, length_app by done. cbn. lia.
Qed.

Lemma PopFront_n_items n : forall q,
  stage_inv q -> (n <= length (items q))%nat ->
  exists q', PopFront_n n q = Ret (take n (items q)) q' /\
             items q' = drop n (items q) /\ stage_inv q'.
Proof.
  induction n as [|n IH]; intros q Hq Hn; cbn [PopFront_n].
  - by exists q.
  - pose proof (PopFront_items q Hq) as Hpop.
    destruct (items q) as [|w rest] eqn:Hit; [cbn in Hn; lia|].
    destruct Hpop as (q1 & -> & Hrest & Hq1).
    destruct (IH q1 Hq1) as (q' & -> & Hit' & Hq').
    { rewrite Hrest. cbn in Hn. lia. }
    exists q'. rewrite Hrest in *. done.
Qed.

(** Past the end [PopFront] keeps answering nil. *)
Lemma PopFront_n_beyond n : forall q,
  stage_inv q ->
  exists q', PopFront_n n q =
               Ret (take n (items q) ++ replicate (n - length (items q)) None) q'
             /\ items q' = drop n (items q) /\ stage_inv q'.
Proof.
  induction n as [|n IH]; intros q Hq; cbn [PopFront_n].
  - by exists q.
  - pose proof (PopFront_items q Hq) as Hpop.
    destruct (items q) as [|w rest] eqn:Hit.
    + rewrite Hpop. destruct (IH q Hq) as (q' & -> & Hit' & Hq').
      exists q'. rewrite Hit in *. cbn in *. rewrite take_nil in *.
      rewrite drop_nil in *. rewrite Nat.sub_0_r in *. done.
    + destruct Hpop as (q1 & -> & Hrest & Hq1).
      destruct (IH q1 Hq1) as (q' & -> & Hit' & Hq').
      exists q'. rewrite Hrest in *. done.
Qed.

Lemma cleared_zero : cleared (V:=V) zero_Queue.
Proof. intros i Hi. cbn in Hi. lia. Qed.

Lemma cleared_PushBack w q : cleared q -> cleared (PushBack w q).
Proof. done. Qed.

Lemma cleared_PopFront q w q' :
  stage_inv q -> cleared q -> PopFront q = Ret w q' -> cleared q'.
Proof.
  unfold stage_inv, cleared, PopFront, take_front. intros Hq Hcl Hpop i Hi.
  destruct (Z.geb_spec (headPos q) (Z.of_nat (length (head q)))) as [Hge|Hlt].
  - destruct (Z.eqb_spec (Z.of_nat (length (tail q))) 0) as [Hz|Hnz].
    + injection Hpop as <- <-. by apply Hcl.
    + cbn [head headPos tail] in Hpop.
      destruct (index (tail q) 0) as [x|]; [|done].
      injection Hpop as <- <-. cbn [head headPos] in *.
      assert (i = 0)%nat as -> by lia.
      apply list_lookup_insert_eq. unfold value in *. lia.
  - destruct (index (head q) (headPos q)) as [x|]; [|done].
    injection Hpop as <- <-. cbn [head headPos] in *.
    destruct (decide (i = Z.to_nat (headPos q))) as [->|Hne].
    + apply list_lookup_insert_eq. unfold value in *. lia.
    + rewrite list_lookup_insert_ne by done. apply Hcl. lia.
Qed.

Lemma cleared_CleanFront fuel : forall q b b' q',
  stage_inv q -> cleared q ->
  CleanFront_loop fuel q b = Ret b' q' -> cleared q' /\ stage_inv q'.
Proof.
  induction fuel as [|fuel IH]; intros q b b' q' Hq Hcl Hrun; [done|].
  cbn [CleanFront_loop] in Hrun.
  destruct (PeekFront q) as [[v|]|]; [| |done].
  - destruct (PopFront q) as [w q1| |] eqn:Hpop; [|done..].
    pose proof (cleared_PopFront _ _ _ Hq Hcl Hpop) as Hcl1.
    pose proof (PopFront_items q Hq) as Hit. rewrite Hpop in Hit.
    assert (stage_inv q1) as Hq1.
    { destruct (items q); [by injection Hit as _ <-|].
      destruct Hit as (q2 & [= _ <-] & _ & ?). done. }
    by eapply IH.
  - by injection Hrun as <- <-.
Qed.

End two_stage_more.

(* ===================================================================== *)
(** * More about the ring-buffer queue *)
(* ===================================================================== *)

Section ring_more.
Context {T : Type} `{Ring.Comparable T}.
Variable zero : T.
Import Ring.

Implicit Types (q : Queue (T:=T)) (s b : list T).

Lemma elems_length q : ring_inv q -> length (elems q) = Z.to_nat (count q).
Proof.
  intros (_ & Hc & Hh & _). unfold elems, len in *.
  rewrite length_take, length_app, length_drop, length_take. lia.
Qed.

Lemma elems_lookup q i :
  ring_inv q -> 0 <= i < count q ->
  elems q !! Z.to_nat i =
    buf q !! Z.to_nat ((head q + i) mod len (buf q)).
Proof.
  intros (_ & Hc & Hh & _) Hi. unfold elems.
  rewrite lookup_take_lt by lia.
  set (n := len (buf q)) in *.
  assert (length (buf q) = Z.to_nat n) as Hlen by (unfold n, len; lia).
  destruct (Z.lt_ge_cases (head q + i) n) as [Hlt|Hge].
  - rewrite Z.mod_small by lia.
    rewrite lookup_app_l by (rewrite length_drop; lia).
    rewrite lookup_drop. f_equal. lia.
  - rewrite <- (Z.mod_unique_pos (head q + i) n 1 (head q + i - n)) by lia.
    rewrite lookup_app_r by (rewrite length_drop; lia).
    rewrite length_drop, lookup_take_lt by lia. f_equal. lia.
Qed.

Lemma Size_elems q :
  ring_inv q -> unlocked q ->
  Size q = Ret (Z.of_nat (length (elems q))) q /\
  exists e, Empty q = Ret e q /\ (e = true <-> elems q = []).
Proof.
  intros Hq Hun. pose proof (elems_length q Hq) as Hl.
  destruct Hq as (_ & Hc & _).
  unfold Empty, bind. rewrite Size_unlocked by done.
  split; [f_equal; lia|]. eexists. split; [reflexivity|].
  rewrite Z.eqb_eq.
  destruct (elems q) as [|x l]; cbn in *; split; intros; done || lia.
Qed.

Lemma Peek_elems q :
  ring_inv q -> unlocked q ->
  match elems q with
  | [] => Peek q = Panic q
  | v :: _ => Peek q = Ret v q
  end.
Proof.
  intros Hq Hun. pose proof (elems_length q Hq) as Hl.
  pose proof Hq as (_ & Hc & Hh & _).
  unfold Peek, bind, RLock, get. rewrite Hun.
  cbn [count buf head tail set_lock].
  destruct (Z.leb_spec (count q) 0) as [Hz|Hpos].
  - destruct (elems q); [|cbn in Hl; lia].
    cbn. f_equal. apply (relock q (mk_lock 1 false) Hun).
  - pose proof (elems_lookup q 0 Hq ltac:(lia)) as Hlk.
    rewrite Z.add_0_r, Z.mod_small in Hlk by lia.
    rewrite index_ok by done.
    destruct (elems q) as [|v l]; [cbn in Hl; lia|].
    cbn in Hlk. rewrite <- Hlk.
    cbn. f_equal. apply (relock q (mk_lock 1 false) Hun).
Qed.


Lemma Get_elems q i :
  ring_inv q -> unlocked q -> - 2 ^ 63 <= i < 2 ^ 63 ->
  let j := if i <? 0 then i + count q else i in
  (0 <= j < count q ->
   exists v, elems q !! Z.to_nat j = Some v /\ Get i q = Ret v q) /\
  (~ 0 <= j < count q -> Get i q = Panic q).
Proof.
  intros Hq Hun Hi. pose proof (ring_inv_len q Hq) as Hlen.
  pose proof Hq as ((k & Hk & Hpow) & Hc & Hh & Ht & Htl).
  assert ((if i <? 0 then wrap (i + count q) else i) =
          (if i <? 0 then i + count q else i)) as Hw.
  { destruct (Z.ltb_spec i 0); [|done]. apply wrap_small. lia. }
  cbv zeta. set (j := if i <? 0 then i + count q else i) in *.
  assert (Get i q =
            if (j <? 0) || (j >=? count q) then Panic q
            else match index (buf q)
                         (Z.land (wrap (head q + j)) (wrap (len (buf q) - 1)))
                 with
                 | Some r => Ret r q
                 | None => Panic (set_lock (mk_lock 1 false) q)
                 end) as ->.
  { unfold Get, bind, RLock, get. rewrite Hun.
    cbn [count buf head tail set_lock]. cbv zeta. rewrite Hw.
    destruct (_ || _); [cbn; by rewrite relock|].
    destruct (index _ _); cbn; by rewrite ?relock. }
  split.
  - intros Hj.
    assert ((j <? 0) || (j >=? count q) = false) as ->.
    { apply orb_false_iff. rewrite Z.geb_leb. split;
        [apply Z.ltb_ge|apply Z.leb_gt]; lia. }
    rewrite !wrap_small by lia. rewrite Hpow, land_mask by lia.
    rewrite <- Hpow.
    assert (0 <= (head q + j) mod len (buf q) < len (buf q)) as Hm
      by (apply Z.mod_pos_bound; lia).
    rewrite index_ok by lia. rewrite <- (elems_lookup q j) by done.
    destruct (lookup_lt_is_Some_2 (elems q) (Z.to_nat j)) as [v Hv].
    { rewrite elems_length by done. lia. }
    exists v. by rewrite Hv.
  - intros Hj.
    assert ((j <? 0) || (j >=? count q) = true) as ->; [|done].
    apply orb_true_iff. rewrite Z.geb_leb, Z.ltb_lt, Z.leb_le. lia.
Qed.

Lemma same_data_elems q0 q : same_data q0 q -> elems q = elems q0.
Proof. intros (Hb & Hh & _ & Hc). unfold elems. by rewrite Hb, Hh, Hc. Qed.

(** One call does to the elements what [model] says, gives the lock back
    and adds at most one element. *)
Lemma exec_model c q :
  ring_inv q -> unlocked q -> count q < 2 ^ 62 -> guarded (elems q) c ->
  unlocked (exec zero c q) /\
  elems (exec zero c q) = model (elems q) c /\
  count (exec zero c q) <= count q + 1.
Proof.
  intros Hq Hun H62 Hg. pose proof (ring_inv_len q Hq) as Hlen.
  pose proof (elems_length q Hq) as Hel.
  assert (match c with
          | CallIndex v => 0 < count q /\ is_Some (index_of v (elems q))
          | CallPush _ => count q < 2 ^ 62
          | _ => True
          end) as Hc.
  { destruct c; try done. cbn in Hg. destruct Hg as [Hne Hsome].
    split; [|done]. destruct (elems q); [done|]. cbn in Hel. lia. }
  split; [by apply lock_released|].
  assert (forall (m : M (T:=T) Z), keeps m -> elems (state_of (m q)) = elems q /\
            count (state_of (m q)) <= count q + 1) as Hread.
  { intros m Hm. pose proof (Hm q q (same_data_refl q)) as Hs.
    split; [by apply same_data_elems|]. destruct Hs as (_ & _ & _ & ->). lia. }
  destruct c as [| |e| |i| |v]; cbn [exec model].
  - apply Hread, keeps_Size.
  - pose proof (keeps_Empty q q (same_data_refl q)) as Hs.
    split; [by apply same_data_elems|]. destruct Hs as (_ & _ & _ & ->). lia.
  - destruct (Z.lt_ge_cases (count q) (len (buf q))) as [Hroom|Hfull].
    + rewrite Push_room by done. cbn [state_of].
      split; [by apply pushed_spec|]. cbn. lia.
    + assert (count q = len (buf q)) as Hfull'.
      { destruct Hq as (_ & ? & _). lia. }
      destruct (Push_full zero q e Hq Hun Hfull' ltac:(lia))
        as (b & Hb & Hbe & ->).
      cbn [state_of].
      destruct (pushed_spec (mk_queue b 0 (count q) (count q) (lock q)) e)
        as [_ ->]; [by apply doubled_inv; try lia|cbn; lia|].
      split; [|cbn; lia]. f_equal. unfold elems at 1. cbn.
      by rewrite app_nil_r.
  - pose proof (keeps_Peek q q (same_data_refl q)) as Hs.
    split; [by apply same_data_elems|]. destruct Hs as (_ & _ & _ & ->). lia.
  - pose proof (keeps_Get i q q (same_data_refl q)) as Hs.
    split; [by apply same_data_elems|]. destruct Hs as (_ & _ & _ & ->). lia.
  - destruct (Z.le_gt_cases (count q) 0) as [Hz|Hpos].
    + rewrite Pop_empty by done. cbn [state_of]. split; [|lia].
      destruct (elems q); [done|]. cbn in Hel. lia.
    + destruct (decide (len (buf q) > minQueueLen /\
                        4 * (count q - 1) = len (buf q))) as [[Hbig Hqu]|Hno].
      * destruct (Pop_shrink zero q Hq Hun Hpos Hbig Hqu)
          as (r & b & Hr & Hb & Hbe & ->).
        destruct (popped_spec q r Hq Hpos Hr) as [_ ->].
        cbn [state_of count]. split; [|lia]. cbn [drop].
        unfold elems at 1. cbn. by rewrite app_nil_r.
      * destruct (Pop_keep zero q Hq Hun Hpos Hno) as (r & Hr & ->).
        destruct (popped_spec q r Hq Hpos Hr) as [_ ->].
        cbn [state_of]. split; [done|]. cbn. lia.
  - apply Hread, keeps_Index.
Qed.

Lemma execs_model cs : forall q,
  ring_inv q -> unlocked q ->
  count q + Z.of_nat (length cs) < 2 ^ 62 -> admissible (elems q) cs ->
  unlocked (foldl (fun q c => exec zero c q) q cs) /\
  elems (foldl (fun q c => exec zero c q) q cs) = foldl model (elems q) cs.
Proof.
  induction cs as [|c cs IH]; intros q Hq Hun Hlen Had; [done|].
  destruct Had as [Hg Had]. cbn [foldl].
  destruct (exec_model c q Hq Hun ltac:(cbn [length] in Hlen; lia) Hg)
    as (Hun' & Hel & Hcnt).
  rewrite <- Hel in *.
  apply IH; [by apply exec_inv|done| |done].
  cbn [length] in Hlen. lia.
Qed.

Lemma compact_same_data q0 q : same_data q0 q -> compact q0 -> compact q.
Proof. intros (Hb & _ & _ & Hc). unfold compact. by rewrite Hb, Hc. Qed.

Lemma exec_compact c q : ring_inv q -> compact q -> compact (exec zero c q).
Proof.
  intros Hq Hcq. pose proof (ring_inv_len q Hq) as Hlen.
  assert (forall (A : Type) (m : M (T:=T) A), keeps m -> compact (state_of (m q)))
    as Hread.
  { intros A m Hm. eapply compact_same_data; [|done].
    apply Hm, same_data_refl. }
  assert (forall (A : Type) (m : M (T:=T) A),
            ~ unlocked q -> compact (state_of (bind Lock (fun _ => m) q)))
    as Hblocked.
  { intros A m Hl. unfold bind.
    destruct (Lock_blocked q Hl) as (q' & -> & Hsame).
    by eapply compact_same_data. }
  destruct c as [| |e| |i| |v]; cbn [exec].
  - apply Hread, keeps_Size.
  - apply Hread, keeps_Empty.
  - destruct (unlocked_or_not q) as [Hun|Hl]; [|by apply Hblocked].
    destruct (Z.lt_ge_cases (count q) (len (buf q))) as [Hroom|Hfull].
    + rewrite Push_room by done. unfold compact, pushed, len in *.
      cbn [state_of buf count]. rewrite length_insert. lia.
    + assert (count q = len (buf q)) as Hfull'.
      { destruct Hq as (_ & ? & _). lia. }
      destruct (Z.lt_ge_cases (len (buf q)) (2 ^ 62)) as [H62|H62].
      * destruct (Push_full zero q e Hq Hun Hfull' H62) as (b & Hb & _ & ->).
        unfold compact, pushed, len in *.
        cbn [state_of buf count]. rewrite length_insert. lia.
      * rewrite Push_overflow by (done || lia).
        by eapply compact_same_data.
  - apply Hread, keeps_Peek.
  - apply Hread, keeps_Get.
  - destruct (unlocked_or_not q) as [Hun|Hl]; [|by apply Hblocked].
    destruct (Z.le_gt_cases (count q) 0) as [Hz|Hpos].
    + by rewrite Pop_empty.
    + destruct (decide (len (buf q) > minQueueLen /\
                        4 * (count q - 1) = len (buf q))) as [[Hbig Hqu]|Hno].
      * destruct (Pop_shrink zero q Hq Hun Hpos Hbig Hqu)
          as (r & b & _ & Hb & _ & ->).
        unfold compact, minQueueLen in *. cbn [state_of buf count]. lia.
      * destruct (Pop_keep zero q Hq Hun Hpos Hno) as (r & _ & ->).
        unfold compact, popped, minQueueLen in *. cbn [state_of buf count].
        destruct Hq as ((k & Hk & Hpow) & _).
        assert (len (buf q) = 4 * 2 ^ (k - 2)) as H4.
        { rewrite Hpow. change 4 with (2 ^ 2).
          rewrite <- Z.pow_add_r by lia. f_equal. lia. }
        lia.
  - apply Hread, keeps_Index.
Qed.

Lemma after_compact cs : compact (after zero cs).
Proof.
  unfold after. induction cs as [|c cs IH] using rev_ind.
  - by left.
  - rewrite foldl_app. cbn. apply exec_compact; [apply after_inv|done].
Qed.

End ring_more.

(* ===================================================================== *)
(** * Further properties of the lock-free queue *)
(* ===================================================================== *)

(** X1: in a state reached under any interleaving in which no push stands
    between its compare-and-swap and its store to tail (in particular when
    every call has returned), the queue is as one caller alone could have
    left it: a push then returns after one round of its loop and puts its
    value behind the elements waiting. *)
Theorem X1_quiescent_state_is_sequential (T : Type) (zero : T)
    (s : @LockFree.system T) :
  LockFree.reachable_system zero s ->
  (forall i c, LockFree.threads s !! i = Some c -> ~ LockFree.at_store c) ->
  LockFree.queue_inv (LockFree.queue s) /\
  forall v fuel,
    exists q', LockFree.Push (S fuel) (LockFree.queue s) v = LockFree.Ret tt q' /\
               LockFree.contents q' = LockFree.contents (LockFree.queue s) ++ [v] /\
               LockFree.queue_inv q'.
Proof.
  intros Hs%reachable_system_inv Hq.
  pose proof (sys_inv_quiescent s Hs Hq) as [vs Hm].
  split; [by exists vs|]. intros v fuel.
  destruct (Push_models _ vs v fuel Hm) as (q' & Hp & Hm').
  exists q'. split_and!; [done| |by exists (vs ++ [v])].
  by rewrite (models_contents _ _ Hm), (models_contents _ _ Hm').
Qed.

Lemma X1_quiescent_state_is_sequential_witness :
  let s := LockFree.run 0
             [0%nat; 1%nat; 0%nat; 1%nat; 0%nat; 1%nat; 0%nat; 1%nat]
             (LockFree.mk_system (LockFree.NewQueue 0)
                [LockFree.PushAlloc 1; LockFree.PopLoadHead]) in
  exists q', LockFree.Push 1 (LockFree.queue s) 2 = LockFree.Ret tt q' /\
             LockFree.contents q' = LockFree.contents (LockFree.queue s) ++ [2] /\
             LockFree.queue_inv q'.
Proof.
  cbv zeta.
  apply (X1_quiescent_state_is_sequential Z 0).
  - exists [LockFree.PushAlloc 1; LockFree.PopLoadHead],
      [0%nat; 1%nat; 0%nat; 1%nat; 0%nat; 1%nat; 0%nat; 1%nat].
    split; [repeat constructor|reflexivity].
  - intros i c Hc. vm_compute in Hc.
    destruct i as [|[|i]]; [| |discriminate Hc]; injection Hc as <-; exact id.
Defined.

(** X2: in every state reached under any interleaving, a pop that runs
    without interference returns after one round of its loop: not-found
    with the zero value and the queue untouched when nothing waits, else
    the oldest element waiting, which it removes; it never touches tail or
    the nodes. *)
Theorem X2_pop_returns_the_front (T : Type) (zero : T)
    (s : @LockFree.system T) :
  LockFree.reachable_system zero s ->
  exists v ok q',
    LockFree.Pop zero 1 (LockFree.queue s) = LockFree.Ret (v, ok) q' /\
    LockFree.heap q' = LockFree.heap (LockFree.queue s) /\
    LockFree.tail q' = LockFree.tail (LockFree.queue s) /\
    (ok = false ->
       v = zero /\ q' = LockFree.queue s /\
       LockFree.contents (LockFree.queue s) = []) /\
    (ok = true ->
       LockFree.contents (LockFree.queue s) = v :: LockFree.contents q') /\
    exists n, LockFree.solo zero n (LockFree.queue s) LockFree.PopLoadHead =
                (q', LockFree.PopDone v ok).
Proof.
  intros Hs%reachable_system_inv.
  destruct (sys_inv_Pop zero s Hs) as (v & ok & q' & Hp & Hh & Ht & Hf & Ht').
  exists v, ok, q'. split_and!; try done. by eapply Pop_solo.
Qed.

Lemma X2_pop_returns_the_front_witness :
  let s := LockFree.run 0 [0%nat; 0%nat; 0%nat]
             (LockFree.mk_system (LockFree.NewQueue 0) [LockFree.PushAlloc 1]) in
  exists v ok q',
    LockFree.Pop 0 1 (LockFree.queue s) = LockFree.Ret (v, ok) q' /\
    LockFree.heap q' = LockFree.heap (LockFree.queue s) /\
    LockFree.tail q' = LockFree.tail (LockFree.queue s) /\
    (ok = false ->
       v = 0 /\ q' = LockFree.queue s /\
       LockFree.contents (LockFree.queue s) = []) /\
    (ok = true ->
       LockFree.contents (LockFree.queue s) = v :: LockFree.contents q') /\
    exists n, LockFree.solo 0 n (LockFree.queue s) LockFree.PopLoadHead =
                (q', LockFree.PopDone v ok).
Proof.
  cbv zeta. apply (X2_pop_returns_the_front Z 0).
  exists [LockFree.PushAlloc 1], [0%nat; 0%nat; 0%nat].
  split; [repeat constructor|reflexivity].
Defined.

(** X3: whatever runs, a node stays where it is, its payload is never
    overwritten, and its successor, once set, is never changed. *)
Theorem X3_nodes_are_never_overwritten (T : Type) (zero : T)
    (sched : list nat) (s : @LockFree.system T) (a : nat)
    (nd : @LockFree.qNode T) :
  LockFree.heap (LockFree.queue s) !! a = Some nd ->
  exists nd',
    LockFree.heap (LockFree.queue (LockFree.run zero sched s)) !! a = Some nd' /\
    LockFree.val nd' = LockFree.val nd /\
    (LockFree.next nd = None \/ LockFree.next nd' = LockFree.next nd).
Proof. apply run_heap. Qed.

Lemma X3_nodes_are_never_overwritten_witness :
  exists nd',
    LockFree.heap (LockFree.queue
      (LockFree.run 0 [0%nat; 0%nat; 0%nat; 0%nat; 1%nat; 1%nat; 1%nat; 1%nat]
         (LockFree.mk_system (LockFree.NewQueue 0)
            [LockFree.PushAlloc 1; LockFree.PopLoadHead]))) !! 0%nat = Some nd' /\
    LockFree.val nd' = 0 /\
    (@None nat = None \/ LockFree.next nd' = None).
Proof.
  apply (X3_nodes_are_never_overwritten Z 0
           [0%nat; 0%nat; 0%nat; 0%nat; 1%nat; 1%nat; 1%nat; 1%nat]
           (LockFree.mk_system (LockFree.NewQueue 0)
              [LockFree.PushAlloc 1; LockFree.PopLoadHead])
           0%nat (LockFree.mk_qNode 0 None)).
  reflexivity.
Defined.

(** X4: in a state reached under any interleaving, one step of a
    goroutine leaves the elements waiting as they are, unless it is the
    successful compare-and-swap of a push, which puts the payload of that
    push's node behind them, or the successful compare-and-swap of a pop,
    which takes the first of them, the payload of the node the pop goes on
    to read. *)
Theorem X4_steps_take_effect_at_the_swaps (T : Type) (zero : T)
    (s : @LockFree.system T) (i : nat) :
  LockFree.reachable_system zero s ->
  let s' := LockFree.sys_step zero s i in
  LockFree.contents (LockFree.queue s') = LockFree.contents (LockFree.queue s) \/
  (exists b rt nd,
     LockFree.threads s !! i = Some (LockFree.PushCAS (Some b) rt) /\
     LockFree.threads s' !! i = Some (LockFree.PushStore (Some b)) /\
     LockFree.heap (LockFree.queue s) !! b = Some nd /\
     LockFree.contents (LockFree.queue s') =
       LockFree.contents (LockFree.queue s) ++ [LockFree.val nd]) \/
  (exists h b nd,
     LockFree.threads s !! i = Some (LockFree.PopCAS h (Some b)) /\
     LockFree.threads s' !! i = Some (LockFree.PopVal (Some b)) /\
     LockFree.heap (LockFree.queue s) !! b = Some nd /\
     LockFree.contents (LockFree.queue s) =
       LockFree.val nd :: LockFree.contents (LockFree.queue s')).
Proof. intros Hs%reachable_system_inv. by apply sys_step_sim. Qed.

Lemma X4_steps_take_effect_at_the_swaps_witness :
  let s := LockFree.run 0 [0%nat; 0%nat]
             (LockFree.mk_system (LockFree.NewQueue 0) [LockFree.PushAlloc 1]) in
  let s' := LockFree.sys_step 0 s 0 in
  LockFree.contents (LockFree.queue s') = LockFree.contents (LockFree.queue s) \/
  (exists b rt nd,
     LockFree.threads s !! 0%nat = Some (LockFree.PushCAS (Some b) rt) /\
     LockFree.threads s' !! 0%nat = Some (LockFree.PushStore (Some b)) /\
     LockFree.heap (LockFree.queue s) !! b = Some nd /\
     LockFree.contents (LockFree.queue s') =
       LockFree.contents (LockFree.queue s) ++ [LockFree.val nd]) \/
  (exists h b nd,
     LockFree.threads s !! 0%nat = Some (LockFree.PopCAS h (Some b)) /\
     LockFree.threads s' !! 0%nat = Some (LockFree.PopVal (Some b)) /\
     LockFree.heap (LockFree.queue s) !! b = Some nd /\
     LockFree.contents (LockFree.queue s) =
       LockFree.val nd :: LockFree.contents (LockFree.queue s')).
Proof.
  cbv zeta. apply (X4_steps_take_effect_at_the_swaps Z 0).
  exists [LockFree.PushAlloc 1], [0%nat; 0%nat].
  split; [repeat constructor|reflexivity].
Defined.

(** X5: whatever the interleaving, the values come out in the order in
    which they went in, each once: take the pushes whose compare-and-swap
    has succeeded, in the order of these steps, and the pops whose
    compare-and-swap has succeeded, in the order of theirs; then the
    values of those pushes are the values those pops have taken (and
    return), followed by the elements still waiting. No goroutine occurs
    twice, every push that has linked its node and every pop that has
    taken a value is counted. *)
Theorem X5_values_leave_in_the_order_linked (T : Type) (zero : T)
    (cs : list (@LockFree.pc T)) (sched : list nat) :
  Forall LockFree.initial cs ->
  let s0 := LockFree.mk_system (LockFree.NewQueue zero) cs in
  let h := LockFree.history_of zero sched s0 in
  let s := LockFree.run zero sched s0 in
  LockFree.current h = s /\
  NoDup (LockFree.ins h) /\ NoDup (LockFree.outs h) /\
  (forall i, i ∈ LockFree.ins h <-> LockFree.linked_at s i) /\
  (forall j, j ∈ LockFree.outs h <-> exists v, LockFree.taken_at s j v) /\
  exists vins vouts,
    Forall2 (fun i v => cs !! i = Some (LockFree.PushAlloc v))
      (LockFree.ins h) vins /\
    Forall2 (LockFree.taken_at s) (LockFree.outs h) vouts /\
    vins = vouts ++ LockFree.contents (LockFree.queue s).
Proof.
  intros Hcs. cbv zeta.
  pose proof (current_history_of zero sched
                (LockFree.mk_history
                   (LockFree.mk_system (LockFree.NewQueue zero) cs) [] []))
    as Hnow.
  pose proof (recorded_run zero cs sched _ (recorded_initial zero cs Hcs))
    as Hrec.
  unfold LockFree.history_of. cbn [LockFree.current] in Hnow.
  destruct Hrec as (_ & _ & Hni & Hno & Hin & Hout & vins & vouts & Hrest).
  rewrite Hnow in *. split_and!; try done. by exists vins, vouts.
Qed.

Lemma X5_values_leave_in_the_order_linked_witness :
  let cs := [LockFree.PushAlloc 1; LockFree.PushAlloc 2;
             LockFree.PopLoadHead] in
  let sched := [1%nat; 0%nat; 1%nat; 0%nat; 1%nat; 0%nat; 2%nat; 2%nat;
                2%nat; 1%nat; 0%nat; 0%nat; 0%nat] in
  let s0 := LockFree.mk_system (LockFree.NewQueue 0) cs in
  let h := LockFree.history_of 0 sched s0 in
  let s := LockFree.run 0 sched s0 in
  LockFree.current h = s /\
  NoDup (LockFree.ins h) /\ NoDup (LockFree.outs h) /\
  (forall i, i ∈ LockFree.ins h <-> LockFree.linked_at s i) /\
  (forall j, j ∈ LockFree.outs h <-> exists v, LockFree.taken_at s j v) /\
  exists vins vouts,
    Forall2 (fun i v => cs !! i = Some (LockFree.PushAlloc v))
      (LockFree.ins h) vins /\
    Forall2 (LockFree.taken_at s) (LockFree.outs h) vouts /\
    vins = vouts ++ LockFree.contents (LockFree.queue s).
Proof.
  cbv zeta.
  apply (X5_values_leave_in_the_order_linked Z 0
           [LockFree.PushAlloc 1; LockFree.PushAlloc 2; LockFree.PopLoadHead]).
  repeat constructor.
Defined.

(** X6: in a state reached under any interleaving, while a goroutine
    stands at its store to tail and takes no step, no other push returns:
    under every schedule of the other goroutines each push that had not
    linked its node is still in its loop. *)
Theorem X6_no_push_passes_a_stalled_store (T : Type) (zero : T)
    (s : @LockFree.system T) (sched : list nat) (j : nat)
    (cj : @LockFree.pc T) :
  LockFree.reachable_system zero s ->
  LockFree.threads s !! j = Some cj -> LockFree.at_store cj -> j ∉ sched ->
  LockFree.threads (LockFree.run zero sched s) !! j = Some cj /\
  forall i c, LockFree.threads s !! i = Some c -> LockFree.in_push c ->
    exists c', LockFree.threads (LockFree.run zero sched s) !! i = Some c' /\
               LockFree.in_push c'.
Proof. intros Hs%reachable_system_inv. by apply stall_run. Qed.

Lemma X6_no_push_passes_a_stalled_store_witness :
  let s := LockFree.run 0 [0%nat; 0%nat; 0%nat]
             (LockFree.mk_system (LockFree.NewQueue 0)
                [LockFree.PushAlloc 1; LockFree.PushAlloc 2;
                 LockFree.PopLoadHead]) in
  let sched := [1%nat; 2%nat; 1%nat; 1%nat; 2%nat; 1%nat; 1%nat; 2%nat; 2%nat] in
  LockFree.threads (LockFree.run 0 sched s) !! 0%nat =
    Some (LockFree.PushStore (Some 1%nat)) /\
  forall i c, LockFree.threads s !! i = Some c -> LockFree.in_push c ->
    exists c', LockFree.threads (LockFree.run 0 sched s) !! i = Some c' /\
               LockFree.in_push c'.
Proof.
  cbv zeta.
  apply (X6_no_push_passes_a_stalled_store Z 0).
  - exists [LockFree.PushAlloc 1; LockFree.PushAlloc 2; LockFree.PopLoadHead],
      [0%nat; 0%nat; 0%nat].
    split; [repeat constructor|reflexivity].
  - reflexivity.
  - exact I.
  - intros Hin. repeat (apply elem_of_cons in Hin as [Hin|Hin]; [discriminate Hin|]).
    by apply elem_of_nil in Hin.
Defined.

(* ===================================================================== *)
(** * Further properties of the ring-buffer and two-stage queues *)
(* ===================================================================== *)

(** X7: [Size] returns the number of elements the queue holds and [Empty]
    tells whether there is none; both leave the queue, lock included, as
    it was. *)
Theorem X7_Size_counts_the_elements (T : Type)
    (q : @Ring.Queue T) :
  Ring.ring_inv q -> Ring.unlocked q ->
  Ring.Size q = Ring.Ret (Z.of_nat (length (Ring.elems q))) q /\
  exists e, Ring.Empty q = Ring.Ret e q /\ (e = true <-> Ring.elems q = []).
Proof. apply Size_elems. Qed.

Lemma X7_Size_counts_the_elements_witness :
  let q := Ring.after 0 [Ring.CallPush 4; Ring.CallPush 5; Ring.CallPop] in
  Ring.Size q = Ring.Ret 1 q /\
  exists e, Ring.Empty q = Ring.Ret e q /\ (e = true <-> Ring.elems q = []).
Proof.
  cbv zeta.
  apply (X7_Size_counts_the_elements Z
           (Ring.after 0 [Ring.CallPush 4; Ring.CallPush 5; Ring.CallPop])).
  - apply after_inv.
  - reflexivity.
Defined.

(** X8: [Peek] returns the oldest element without removing it; on an empty
    queue it panics, after giving the read lock back, and the queue is as
    it was. *)
Theorem X8_Peek_shows_the_oldest (T : Type)
    (q : @Ring.Queue T) :
  Ring.ring_inv q -> Ring.unlocked q ->
  match Ring.elems q with
  | [] => Ring.Peek q = Ring.Panic q
  | v :: _ => Ring.Peek q = Ring.Ret v q
  end.
Proof. apply Peek_elems. Qed.

Lemma X8_Peek_shows_the_oldest_witness :
  let q := Ring.after 0 [Ring.CallPush 4; Ring.CallPush 5; Ring.CallPop] in
  Ring.Peek q = Ring.Ret 5 q /\
  Ring.Peek (Ring.NewQueue 0) = Ring.Panic (Ring.NewQueue 0).
Proof.
  cbv zeta. split.
  - apply (X8_Peek_shows_the_oldest Z
             (Ring.after 0 [Ring.CallPush 4; Ring.CallPush 5; Ring.CallPop])).
    + apply after_inv.
    + reflexivity.
  - apply (X8_Peek_shows_the_oldest Z (Ring.NewQueue 0)).
    + apply (after_inv 0 []).
    + reflexivity.
Defined.

(** X9: [Get i] returns the element number [i] from the front for
    0 <= i < count and the element number count + i for a negative [i]
    not below -count (so -1 is the newest); for every other index it
    panics, after giving the read lock back; the queue is as it was. *)
Theorem X9_Get_indexes_from_both_ends (T : Type)
    (q : @Ring.Queue T) (i : Z) :
  Ring.ring_inv q -> Ring.unlocked q -> - 2 ^ 63 <= i < 2 ^ 63 ->
  let j := if i <? 0 then i + Ring.count q else i in
  (0 <= j < Ring.count q ->
   exists v, Ring.elems q !! Z.to_nat j = Some v /\
             Ring.Get i q = Ring.Ret v q) /\
  (~ 0 <= j < Ring.count q -> Ring.Get i q = Ring.Panic q).
Proof. apply Get_elems. Qed.

Lemma X9_Get_indexes_from_both_ends_witness :
  let q := Ring.after 0 [Ring.CallPush 4; Ring.CallPush 5; Ring.CallPush 6] in
  (exists v, Ring.elems q !! 2%nat = Some v /\ Ring.Get (-1) q = Ring.Ret v q) /\
  Ring.Get 3 q = Ring.Panic q.
Proof.
  cbv zeta.
  pose proof (after_inv 0 [Ring.CallPush 4; Ring.CallPush 5; Ring.CallPush 6])
    as Hq.
  split.
  - apply (proj1 (X9_Get_indexes_from_both_ends Z _ (-1) Hq eq_refl
                    ltac:(lia))).
    vm_compute. split; [discriminate|reflexivity].
  - apply (proj2 (X9_Get_indexes_from_both_ends Z _ 3 Hq eq_refl
                    ltac:(lia))).
    vm_compute. intros [_ H]. discriminate H.
Defined.

(** X10: on a queue that holds an element, with the lock free, [Index]
    compares the elements with the value, oldest first: it returns the
    position, counted from the front, of the first element that [==]
    finds equal, or -1 when [==] finds none equal, and leaves the queue as
    it was; when a comparison panics before an equal element is found,
    [Index] panics with its read lock still held. *)
Theorem X10_Index_finds_the_first_occurrence (T : Type)
    `{Ring.Comparable T} (q : @Ring.Queue T) (v : T) :
  Ring.ring_inv q -> Ring.unlocked q -> 0 < Ring.count q ->
  let l := Ring.elems q in
  (exists r,
     Ring.Index v q = Ring.Ret r q /\
     ((r = -1 /\
       forall j x, l !! j = Some x -> Ring.equal x v = Some false) \/
      (0 <= r < Z.of_nat (length l) /\
       (exists x, l !! Z.to_nat r = Some x /\ Ring.equal x v = Some true) /\
       forall j x, (j < Z.to_nat r)%nat -> l !! j = Some x ->
                   Ring.equal x v = Some false))) \/
  (Ring.Index v q = Ring.Panic (Ring.set_lock (Ring.mk_lock 1 false) q) /\
   exists k y, l !! k = Some y /\ Ring.equal y v = None /\
     forall j x, (j < k)%nat -> l !! j = Some x ->
                 Ring.equal x v = Some false).
Proof.
  intros Hq Hun Hpos. cbv zeta. rewrite Index_elems by done.
  pose proof (index_of_spec v (Ring.elems q)) as Hs.
  destruct (Ring.index_of v (Ring.elems q)) as [r|].
  - left. by exists r.
  - by right.
Qed.

Lemma X10_Index_finds_the_first_occurrence_witness :
  (let q := Ring.after 0 [Ring.CallPush 4; Ring.CallPush 5; Ring.CallPush 5] in
   let l := Ring.elems q in
   (exists r,
      Ring.Index 5 q = Ring.Ret r q /\
      ((r = -1 /\
        forall j x, l !! j = Some x -> Ring.equal x 5 = Some false) \/
       (0 <= r < Z.of_nat (length l) /\
        (exists x, l !! Z.to_nat r = Some x /\ Ring.equal x 5 = Some true) /\
        forall j x, (j < Z.to_nat r)%nat -> l !! j = Some x ->
                    Ring.equal x 5 = Some false))) \/
   (Ring.Index 5 q = Ring.Panic (Ring.set_lock (Ring.mk_lock 1 false) q) /\
    exists k y, l !! k = Some y /\ Ring.equal y 5 = None /\
      forall j x, (j < k)%nat -> l !! j = Some x ->
                  Ring.equal x 5 = Some false)) /\
  (let q := Ring.after Ring.DNil
              [Ring.CallPush (Ring.DInt 4); Ring.CallPush (Ring.DSlice [1]);
               Ring.CallPush (Ring.DInt 5)] in
   let v := Ring.DSlice [] in
   let l := Ring.elems q in
   (exists r,
      Ring.Index v q = Ring.Ret r q /\
      ((r = -1 /\
        forall j x, l !! j = Some x -> Ring.equal x v = Some false) \/
       (0 <= r < Z.of_nat (length l) /\
        (exists x, l !! Z.to_nat r = Some x /\ Ring.equal x v = Some true) /\
        forall j x, (j < Z.to_nat r)%nat -> l !! j = Some x ->
                    Ring.equal x v = Some false))) \/
   (Ring.Index v q = Ring.Panic (Ring.set_lock (Ring.mk_lock 1 false) q) /\
    exists k y, l !! k = Some y /\ Ring.equal y v = None /\
      forall j x, (j < k)%nat -> l !! j = Some x ->
                  Ring.equal x v = Some false)).
Proof.
  split.
  - apply (X10_Index_finds_the_first_occurrence Z
             (Ring.after 0 [Ring.CallPush 4; Ring.CallPush 5; Ring.CallPush 5])
             5).
    + apply after_inv.
    + reflexivity.
    + reflexivity.
  - apply (X10_Index_finds_the_first_occurrence Ring.dyn
             (Ring.after Ring.DNil
                [Ring.CallPush (Ring.DInt 4); Ring.CallPush (Ring.DSlice [1]);
                 Ring.CallPush (Ring.DInt 5)])
             (Ring.DSlice [])).
    + apply after_inv.
    + reflexivity.
    + reflexivity.
Defined.

(** X11: the ring buffer behaves as a list: after any sequence of calls on
    a new queue (fewer than 2^62 of them, [Index] only on a queue that
    holds an element and with a value whose comparisons do not panic) the
    elements are those of the list on which each [Push] appended and each
    [Pop] dropped the first, and the lock is free. *)
Theorem X11_ring_buffer_is_a_list_queue (T : Type) `{Ring.Comparable T}
    (zero : T) (cs : list (@Ring.call T)) :
  Z.of_nat (length cs) < 2 ^ 62 -> Ring.admissible [] cs ->
  Ring.unlocked (Ring.after zero cs) /\
  Ring.elems (Ring.after zero cs) = foldl Ring.model [] cs.
Proof.
  intros Hlen Had.
  apply (execs_model zero cs (Ring.NewQueue zero)); try done.
  apply NewQueue_inv.
Qed.

Lemma X11_ring_buffer_is_a_list_queue_witness :
  let cs := [Ring.CallPush 4; Ring.CallIndex 4; Ring.CallPush 5; Ring.CallPop;
             Ring.CallPeek; Ring.CallPush 6] in
  Ring.unlocked (Ring.after 0 cs) /\ Ring.elems (Ring.after 0 cs) = [5; 6].
Proof.
  cbv zeta.
  apply (X11_ring_buffer_is_a_list_queue Z 0
           [Ring.CallPush 4; Ring.CallIndex 4; Ring.CallPush 5; Ring.CallPop;
            Ring.CallPeek; Ring.CallPush 6]).
  - simpl. lia.
  - simpl. split_and!; try exact I; [discriminate|by eexists].
Defined.

(** X12: after any sequence of calls on a new queue the buffer has the
    least capacity, 16, or more than a quarter of it is in use: the
    capacity stays below four times the number of elements. *)
Theorem X12_capacity_follows_the_count (T : Type) `{Ring.Comparable T}
    (zero : T) (cs : list (@Ring.call T)) :
  let q := Ring.after zero cs in
  Ring.len (Ring.buf q) = Ring.minQueueLen \/
  Ring.len (Ring.buf q) < 4 * Ring.count q.
Proof. apply after_compact. Qed.

(** X13: a call leaves the lock free when it ends, whether it returns or
    panics, except in exactly these cases: [Index] on an empty queue,
    [Index] when a comparison panics before an equal element is found,
    and [Push] on a full buffer of 2^62 slots, which cannot be doubled. *)
Theorem X13_calls_release_the_lock (T : Type) `{Ring.Comparable T}
    (zero : T) (q : @Ring.Queue T) (c : @Ring.call T) :
  Ring.ring_inv q -> Ring.unlocked q ->
  (Ring.unlocked (Ring.exec zero c q) <->
   match c with
   | Ring.CallIndex v =>
       0 < Ring.count q /\ is_Some (Ring.index_of v (Ring.elems q))
   | Ring.CallPush _ => Ring.count q < 2 ^ 62
   | _ => True
   end).
Proof.
  intros Hq Hun. split; [|by apply lock_released].
  pose proof (ring_inv_len q Hq) as Hlen.
  destruct c as [| |e| |i| |v]; try done; cbn [Ring.exec].
  - intros Hfree.
    destruct (Z.lt_ge_cases (Ring.count q) (2 ^ 62)) as [|Hge]; [done|].
    destruct Hq as ((k & Hk & Hpow) & Hc & _).
    assert (2 ^ k <= 2 ^ 62) by (apply Z.pow_le_mono_r; lia).
    rewrite (Push_overflow zero q e) in Hfree by (done || lia).
    discriminate Hfree.
  - intros Hfree.
    destruct (Z.le_gt_cases (Ring.count q) 0) as [Hz|Hpos].
    { rewrite Index_empty in Hfree by done. discriminate Hfree. }
    split; [done|]. rewrite Index_elems in Hfree by done.
    destruct (Ring.index_of v (Ring.elems q)) as [r|]; [by eexists|].
    discriminate Hfree.
Qed.

Lemma X13_calls_release_the_lock_witness :
  (Ring.unlocked (Ring.exec 0 Ring.CallPeek (Ring.NewQueue 0)) <-> True) /\
  (let q := Ring.after Ring.DNil
              [Ring.CallPush (Ring.DInt 4); Ring.CallPush (Ring.DSlice [1])] in
   Ring.unlocked (Ring.exec Ring.DNil (Ring.CallIndex (Ring.DSlice [])) q)
   <-> 0 < Ring.count q /\
       is_Some (Ring.index_of (Ring.DSlice []) (Ring.elems q))).
Proof.
  split.
  - apply (X13_calls_release_the_lock Z 0 (Ring.NewQueue 0) Ring.CallPeek).
    + apply (after_inv 0 []).
    + reflexivity.
  - apply (X13_calls_release_the_lock Ring.dyn Ring.DNil
             (Ring.after Ring.DNil
                [Ring.CallPush (Ring.DInt 4); Ring.CallPush (Ring.DSlice [1])])
             (Ring.CallIndex (Ring.DSlice []))).
    + apply after_inv.
    + reflexivity.
Defined.

(** X14: the two-stage queue is first in, first out: after [PushBack] of
    the elements of a list onto a queue, [len] has grown by the length of
    the list, and [n] calls of [PopFront] return the first [n] of the
    elements the queue held followed by the list, in order, and nil for
    each call made after the last element is gone; what is left are the
    elements after the first [n]. *)
Theorem X14_two_stage_is_fifo (V : Type) (q : @TwoStage.Queue V)
    (ws : list (@TwoStage.value V)) (n : nat) :
  TwoStage.stage_inv q ->
  let q1 := TwoStage.PushBack_all ws q in
  let l := TwoStage.items q ++ ws in
  TwoStage.len q1 = TwoStage.len q + Z.of_nat (length ws) /\
  exists q2,
    TwoStage.PopFront_n n q1 =
      TwoStage.Ret (take n l ++ replicate (n - length l) None) q2 /\
    TwoStage.items q2 = drop n l /\
    TwoStage.len q2 = Z.of_nat (length l - n).
Proof.
  intros Hq. cbv zeta.
  destruct (PushBack_all_items ws q Hq) as (Hq1 & Hit & Hlen).
  split; [done|].
  destruct (PopFront_n_beyond n _ Hq1) as (q2 & Hpop & Hit2 & Hq2).
  exists q2. rewrite Hpop, Hit. split_and!; [done|by rewrite Hit2, Hit|].
  rewrite (len_items q2 Hq2), Hit2, Hit, length_drop. done.
Qed.

Lemma X14_two_stage_is_fifo_witness :
  let q1 := TwoStage.PushBack_all [Some 1; None; Some 3] TwoStage.zero_Queue in
  TwoStage.len q1 = 3 /\
  exists q2,
    TwoStage.PopFront_n 4 q1 =
      TwoStage.Ret [Some 1; None; Some 3; None] q2 /\
    TwoStage.items q2 = [] /\
    TwoStage.len q2 = 0.
Proof.
  cbv zeta.
  apply (X14_two_stage_is_fifo Z TwoStage.zero_Queue [Some 1; None; Some 3] 4).
  unfold TwoStage.stage_inv. simpl. lia.
Defined.

(** X15: on a queue whose position lies inside the first stage, [len] is
    never negative, [PopFront] returns without an index out of range,
    [PeekFront] shows the element that [PopFront] returns, and [PopFront]
    takes [len] down by one; on an empty queue it returns nil and leaves
    the queue as it was. *)
Theorem X15_PeekFront_shows_the_next_PopFront (V : Type)
    (q : @TwoStage.Queue V) :
  TwoStage.stage_inv q ->
  0 <= TwoStage.len q /\
  exists w q',
    TwoStage.PopFront q = TwoStage.Ret w q' /\
    TwoStage.PeekFront q = Some w /\
    TwoStage.stage_inv q' /\
    (TwoStage.Empty q = true -> w = None /\ q' = q) /\
    (TwoStage.Empty q = false -> TwoStage.len q' = TwoStage.len q - 1).
Proof.
  intros Hq. pose proof (len_items q Hq) as Hlen. split; [lia|].
  pose proof (PopFront_items q Hq) as Hpop.
  pose proof (PeekFront_items q Hq) as Hpeek.
  pose proof (Empty_items q Hq) as Hemp.
  destruct (TwoStage.items q) as [|w rest] eqn:Hit.
  - exists None, q. split_and!; try done.
    intros He. destruct Hemp as [_ Hemp]. rewrite Hemp in He; done.
  - destruct Hpop as (q' & Hp & Hrest & Hq').
    exists w, q'. split_and!; try done.
    + intros He. by apply Hemp in He.
    + intros _. rewrite (len_items q' Hq'), Hrest, Hlen. cbn [length]. lia.
Qed.

Lemma X15_PeekFront_shows_the_next_PopFront_witness :
  let q := TwoStage.mk_queue [None; Some 2] 1 [Some 3] in
  0 <= TwoStage.len q /\
  exists w q',
    TwoStage.PopFront q = TwoStage.Ret w q' /\
    TwoStage.PeekFront q = Some w /\
    TwoStage.stage_inv q' /\
    (TwoStage.Empty q = true -> w = None /\ q' = q) /\
    (TwoStage.Empty q = false -> TwoStage.len q' = TwoStage.len q - 1).
Proof.
  cbv zeta.
  apply (X15_PeekFront_shows_the_next_PopFront Z
           (TwoStage.mk_queue [None; Some 2] 1 [Some 3])).
  unfold TwoStage.stage_inv. simpl. lia.
Defined.

(** X16: [PopFront] leaves no element behind in a slot it has passed: if
    every slot of the first stage below the position holds nil, the same
    is true after [PushBack], after [PopFront] and after [CleanFront],
    and the position stays inside the first stage; the zero queue starts
    that way. *)
Theorem X16_popped_slots_hold_nil (V : Type) (q : @TwoStage.Queue V) :
  TwoStage.stage_inv q -> TwoStage.cleared q ->
  (forall w, TwoStage.stage_inv (TwoStage.PushBack w q) /\
             TwoStage.cleared (TwoStage.PushBack w q)) /\
  (forall w q', TwoStage.PopFront q = TwoStage.Ret w q' ->
                TwoStage.stage_inv q' /\ TwoStage.cleared q') /\
  (forall fuel b q', TwoStage.CleanFront fuel q = TwoStage.Ret b q' ->
                     TwoStage.stage_inv q' /\ TwoStage.cleared q').
Proof.
  intros Hq Hcl. split_and!.
  - intros w. split; [by apply PushBack_items|by apply cleared_PushBack].
  - intros w q' Hpop. split; [|by eapply cleared_PopFront].
    pose proof (PopFront_items q Hq) as Hit. rewrite Hpop in Hit.
    destruct (TwoStage.items q); [by injection Hit as _ <-|].
    by destruct Hit as (q2 & [= _ <-] & _ & ?).
  - intros fuel b q' Hrun.
    by destruct (cleared_CleanFront fuel q false b q' Hq Hcl Hrun).
Qed.

Lemma X16_popped_slots_hold_nil_witness :
  let q := TwoStage.mk_queue [None; Some 2] 1 [Some 3] in
  (forall w, TwoStage.stage_inv (TwoStage.PushBack w q) /\
             TwoStage.cleared (TwoStage.PushBack w q)) /\
  (forall w q', TwoStage.PopFront q = TwoStage.Ret w q' ->
                TwoStage.stage_inv q' /\ TwoStage.cleared q') /\
  (forall fuel b q', TwoStage.CleanFront fuel q = TwoStage.Ret b q' ->
                     TwoStage.stage_inv q' /\ TwoStage.cleared q').
Proof.
  cbv zeta.
  apply (X16_popped_slots_hold_nil Z
           (TwoStage.mk_queue [None; Some 2] 1 [Some 3])).
  - unfold TwoStage.stage_inv. simpl. lia.
  - intros i Hi. simpl in Hi. assert (i = 0)%nat as -> by lia. reflexivity.
Defined.
